(** * Prompt-engineering notebooks and the prompt-optimization driver

    A shallow embedding of
    - the iterative prompt-optimization loop, as diagrammed in the
      repository's mermaid flowchart (nodes [A] .. [R] and the three
      sub-charts GeneratePredictions, EvaluatePredictions, ImprovePrompt);
    - the dummy weather tool and the model-feedback cell of the
      function-calling notebook;
    - the inner-monologue extraction cell of the chain-of-thought notebook.

    Python strings are sequences of Unicode code points; a code point is a
    number, so a string is a [list N].  Scores are numbers; they are kept
    exact, as rationals. *)

From Stdlib Require Import List Arith NArith ZArith QArith Bool Lia String Ascii.
Import ListNotations.

Close Scope Q_scope.
Local Open Scope nat_scope.
Local Open Scope list_scope.

(* ===================================================================== *)
(** ** Python strings *)
(* ===================================================================== *)

Definition char := N.
Definition str := list char.

(** A string literal of the source, as a Python string. *)
Definition lit (s : string) : str := map N_of_ascii (list_ascii_of_string s).

Definition str_eq_dec : forall a b : str, {a = b} + {a <> b} :=
  list_eq_dec N.eq_dec.

Definition str_eqb (a b : str) : bool := if str_eq_dec a b then true else false.

(* ===================================================================== *)
(** ** The prompt-optimization flowchart *)
(* ===================================================================== *)

Module Flowchart.

(** The boxes of the main chart, each under its letter and its label. *)
Inductive node : Set :=
| A_Start
| B_LoadValidationData
| C_InitSystemPrompt
| D_InitTracking
| E_EnterLoop
| F_ConstructPrompt
| G_GeneratePredictions
| H_EvaluatePredictions
| I_SaveIterationResults
| J_CheckBestScore
| K_UpdateBest
| L_Continue
| M_LastIteration
| N_ImprovePrompt
| O_UpdateSystemPrompt
| P_EndLoop
| Q_SaveFinalResults
| R_End.

Scheme Equality for node.

(** What an arrow carries: nothing, or the answer of a decision box. *)
Inductive label : Set := Plain | Yes | No.

Scheme Equality for label.

(** The arrows of the main chart, in the order the chart lists them.  The
    chart's last three arrows, from G, H and N to the sub-charts, tell which
    sub-chart carries out the box: they are part of what the box does, not
    of control. *)
Definition edges : list (node * label * node) :=
  [ (A_Start, Plain, B_LoadValidationData);
    (B_LoadValidationData, Plain, C_InitSystemPrompt);
    (C_InitSystemPrompt, Plain, D_InitTracking);
    (D_InitTracking, Plain, E_EnterLoop);
    (E_EnterLoop, Plain, F_ConstructPrompt);
    (F_ConstructPrompt, Plain, G_GeneratePredictions);
    (G_GeneratePredictions, Plain, H_EvaluatePredictions);
    (H_EvaluatePredictions, Plain, I_SaveIterationResults);
    (I_SaveIterationResults, Plain, J_CheckBestScore);
    (J_CheckBestScore, Yes, K_UpdateBest);
    (J_CheckBestScore, No, L_Continue);
    (K_UpdateBest, Plain, M_LastIteration);
    (L_Continue, Plain, M_LastIteration);
    (M_LastIteration, No, N_ImprovePrompt);
    (N_ImprovePrompt, Plain, O_UpdateSystemPrompt);
    (O_UpdateSystemPrompt, Plain, E_EnterLoop);
    (M_LastIteration, Yes, P_EndLoop);
    (P_EndLoop, Plain, Q_SaveFinalResults);
    (Q_SaveFinalResults, Plain, R_End) ].

(** The box an arrow labelled [d] leads to from [n], if there is one. *)
Definition next (n : node) (d : label) : option node :=
  match find (fun e => node_beq (fst (fst e)) n && label_beq (snd (fst e)) d) edges with
  | Some e => Some (snd e)
  | None => None
  end.

(** *** Data *)

(** The two hosted models the chart names. *)
Inductive model : Set := GPT_4o_mini | O3_mini.

Scheme Equality for model.

(** G2, G5: a paper of the validation data has an abstract and gold labels. *)
Record paper : Set := mk_paper {
  abstract : str;
  gold_labels : list str }.

(** G5: a prediction is stored with its paper and the gold labels. *)
Record prediction : Set := mk_prediction {
  pred_paper : paper;
  pred_gold : list str;
  pred_names : list str }.

(** H3, H4: an evaluation holds the judged prediction, its score and the
    judge's explanation. *)
Record evaluation : Set := mk_evaluation {
  eval_prediction : prediction;
  eval_score : Q;
  eval_explanation : str }.

(** What the two save boxes write.  The chart says "store" for what a
    sub-chart keeps in a list (G5, H4) and "save" for boxes I and Q alone:
    both are writes to storage. *)
Inductive saved : Set :=
| IterationResults (iteration : nat) (prompt : str) (avg : Q) (evals : list evaluation)
| FinalResults (score : option Q) (prompt : option str) (iteration : option nat).

(** An exception raised by a model call. *)
Definition exn := string.

(** What a run does, in the order it does it. *)
Inductive event : Set :=
| Visit (n : node)
| ModelCall (m : model) (call_no : nat) (messages : list str)
| Save (s : saved).

(** The variables of the driver. *)
Record store : Set := mk_store {
  validation_data : list paper;
  system_prompt : str;
  iteration : nat;
  best_score : option Q;
  best_prompt : option str;
  best_iteration : option nat;
  zero_shot_prompt : str;
  predictions : list prediction;
  evaluations : list evaluation;
  avg_score : Q;
  improved_prompt : str;
  storage : list saved;
  calls : nat;
  trace : list event }.

Definition empty_store : store :=
  mk_store [] [] 0 None None None [] [] [] 0%Q [] [] 0 [].

(** Everything the chart leaves to its surroundings: the configured number
    of rounds, the validation file, the first system prompt, the hosted
    models, and the text-building and text-reading helpers of the boxes.
    A model call is answered according to its position [call_no] in the
    run, so that the same request may be answered differently each time;
    it either raises or returns the completion text. *)
Record environment : Type := mk_environment {
  num_iterations : nat;
  validation_json : list paper;
  initial_system_prompt : str;
  llm : model -> nat -> list str -> exn + str;
  construct_zero_shot_prompt : str -> str;
  create_query : str -> str;
  extract_model_names : str -> list str;
  judge_prompt : prediction -> str;
  calculate_score : str -> Q * str;
  generate_metaprompt : str -> list evaluation -> str;
  get_improved_prompt : str -> str }.

(** *** Store updates *)

Definition set_validation_data (v : list paper) (st : store) : store :=
  mk_store v (system_prompt st) (iteration st) (best_score st) (best_prompt st)
    (best_iteration st) (zero_shot_prompt st) (predictions st) (evaluations st)
    (avg_score st) (improved_prompt st) (storage st) (calls st) (trace st).

Definition set_system_prompt (v : str) (st : store) : store :=
  mk_store (validation_data st) v (iteration st) (best_score st) (best_prompt st)
    (best_iteration st) (zero_shot_prompt st) (predictions st) (evaluations st)
    (avg_score st) (improved_prompt st) (storage st) (calls st) (trace st).

Definition set_iteration (v : nat) (st : store) : store :=
  mk_store (validation_data st) (system_prompt st) v (best_score st) (best_prompt st)
    (best_iteration st) (zero_shot_prompt st) (predictions st) (evaluations st)
    (avg_score st) (improved_prompt st) (storage st) (calls st) (trace st).

Definition set_best (s : option Q) (p : option str) (i : option nat) (st : store) : store :=
  mk_store (validation_data st) (system_prompt st) (iteration st) s p
    i (zero_shot_prompt st) (predictions st) (evaluations st)
    (avg_score st) (improved_prompt st) (storage st) (calls st) (trace st).

Definition set_zero_shot_prompt (v : str) (st : store) : store :=
  mk_store (validation_data st) (system_prompt st) (iteration st) (best_score st)
    (best_prompt st) (best_iteration st) v (predictions st) (evaluations st)
    (avg_score st) (improved_prompt st) (storage st) (calls st) (trace st).

Definition set_predictions (v : list prediction) (st : store) : store :=
  mk_store (validation_data st) (system_prompt st) (iteration st) (best_score st)
    (best_prompt st) (best_iteration st) (zero_shot_prompt st) v (evaluations st)
    (avg_score st) (improved_prompt st) (storage st) (calls st) (trace st).

Definition set_evaluations (v : list evaluation) (avg : Q) (st : store) : store :=
  mk_store (validation_data st) (system_prompt st) (iteration st) (best_score st)
    (best_prompt st) (best_iteration st) (zero_shot_prompt st) (predictions st) v
    avg (improved_prompt st) (storage st) (calls st) (trace st).

Definition set_improved_prompt (v : str) (st : store) : store :=
  mk_store (validation_data st) (system_prompt st) (iteration st) (best_score st)
    (best_prompt st) (best_iteration st) (zero_shot_prompt st) (predictions st)
    (evaluations st) (avg_score st) v (storage st) (calls st) (trace st).

Definition record (ev : event) (st : store) : store :=
  mk_store (validation_data st) (system_prompt st) (iteration st) (best_score st)
    (best_prompt st) (best_iteration st) (zero_shot_prompt st) (predictions st)
    (evaluations st) (avg_score st) (improved_prompt st) (storage st) (calls st)
    (trace st ++ [ev]).

Definition write (s : saved) (st : store) : store :=
  mk_store (validation_data st) (system_prompt st) (iteration st) (best_score st)
    (best_prompt st) (best_iteration st) (zero_shot_prompt st) (predictions st)
    (evaluations st) (avg_score st) (improved_prompt st) (storage st ++ [s]) (calls st)
    (trace st ++ [Save s]).

Definition count_call (m : model) (messages : list str) (st : store) : store :=
  mk_store (validation_data st) (system_prompt st) (iteration st) (best_score st)
    (best_prompt st) (best_iteration st) (zero_shot_prompt st) (predictions st)
    (evaluations st) (avg_score st) (improved_prompt st) (storage st) (S (calls st))
    (trace st ++ [ModelCall m (calls st) messages]).

(** *** Computations over the store that may raise *)

Definition M (X : Type) : Type := store -> (exn + X) * store.

Definition ret {X : Type} (x : X) : M X := fun st => (inr x, st).

(** Modelled from the spec: the chart has no error branch and does not say
    what follows a model call that raises.  The spec's words are "no
    recovery semantics beyond default exception propagation": an exception
    ends the computation where it is raised and is handed on as it is. *)
Definition bind {X Y : Type} (m : M X) (k : X -> M Y) : M Y :=
  fun st =>
    match m st with
    | (inl e, st') => (inl e, st')
    | (inr x, st') => k x st'
    end.

Definition get : M store := fun st => (inr st, st).

Definition modify (f : store -> store) : M unit := fun st => (inr tt, f st).

Notation "x <- m ;; k" := (bind m (fun x => k))
  (at level 61, m at next level, right associativity).
Notation "m ;; k" := (bind m (fun _ => k))
  (at level 61, right associativity).

(** A request to a hosted model: the call is counted and logged whether it
    returns or raises, and an exception it raises is the computation's. *)
Definition call_model (env : environment) (m : model) (messages : list str) : M str :=
  fun st => (llm env m (calls st) messages, count_call m messages st).

(** A Python [for] loop over a list that collects one result per element. *)
Fixpoint for_each {X Y : Type} (f : X -> M Y) (l : list X) : M (list Y) :=
  match l with
  | [] => ret []
  | x :: l' =>
      y <- f x ;;
      ys <- for_each f l' ;;
      ret (y :: ys)
  end.

(** *** Sub-chart GeneratePredictions (G1 .. G5) *)

Definition predict (env : environment) (p : paper) : M prediction :=
  st <- get ;;
  let query := create_query env (abstract p) in                             (* G2 *)
  out <- call_model env GPT_4o_mini [zero_shot_prompt st; query] ;;         (* G3 *)
  let names := extract_model_names env out in                               (* G4 *)
  ret (mk_prediction p (gold_labels p) names).                              (* G5 *)

Definition generate_predictions (env : environment) : M (list prediction) :=
  st <- get ;;
  for_each (predict env) (validation_data st).                              (* G1 *)

(** *** Sub-chart EvaluatePredictions (H1 .. H5) *)

(** Python's [sum]. *)
Definition py_sum (l : list Q) : Q := fold_left Qplus l 0%Q.

(** H5: the sum of the scores over their number.  (On rationals a quotient
    by zero is zero; the chart does not say what an empty validation set
    yields.) *)
Definition average (l : list Q) : Q :=
  (py_sum l / inject_Z (Z.of_nat (List.length l)))%Q.

Definition evaluate (env : environment) (p : prediction) : M evaluation :=
  out <- call_model env O3_mini [judge_prompt env p] ;;                     (* H2 *)
  let result := calculate_score env out in                                  (* H3 *)
  ret (mk_evaluation p (fst result) (snd result)).                          (* H4 *)

Definition evaluate_predictions (env : environment) : M (list evaluation * Q) :=
  st <- get ;;
  evals <- for_each (evaluate env) (predictions st) ;;                      (* H1 *)
  ret (evals, average (map eval_score evals)).                              (* H5 *)

(** *** Sub-chart ImprovePrompt (N1 .. N3) *)

Definition improve_prompt (env : environment) : M str :=
  st <- get ;;
  let metaprompt := generate_metaprompt env (system_prompt st) (evaluations st) in  (* N1 *)
  out <- call_model env O3_mini [metaprompt] ;;                             (* N2 *)
  ret (get_improved_prompt env out).                                        (* N3 *)

(** *** The decision boxes *)

Definition Qltb (x y : Q) : bool := negb (Qle_bool y x).

(** Modelled from the spec: the test of box J and the first value of the
    best score are not in the chart.  The spec's words are "compute an
    average and compare to a running maximum": the running maximum of no
    round is absent, any first average beats it, and a later average beats
    it when it is strictly greater. *)
Definition beats (avg : Q) (best : option Q) : bool :=
  match best with
  | None => true
  | Some b => Qltb b avg
  end.

(** Modelled from the spec: the test of box M is not in the chart.  The
    spec's words are "it runs a fixed number of rounds": rounds are counted
    from one as box E is entered, and a round is the last one when the
    configured number of rounds is reached. *)
Definition last_iteration (env : environment) (st : store) : bool :=
  num_iterations env <=? iteration st.

(** *** What each box of the main chart does *)

(** The box is executed on the store and answers with the label of the
    arrow to follow.  Box D sets up the tracking variables: the round
    counter and the best score, prompt and iteration, none of which is known
    yet; box E counts the round it enters.  Boxes G, H and N are carried out
    by their sub-charts; boxes I and Q write to storage. *)
Definition action (env : environment) (n : node) : M label :=
  match n with
  | A_Start => ret Plain
  | B_LoadValidationData =>
      modify (set_validation_data (validation_json env)) ;; ret Plain
  | C_InitSystemPrompt =>
      modify (set_system_prompt (initial_system_prompt env)) ;; ret Plain
  | D_InitTracking =>
      modify (set_iteration 0) ;; modify (set_best None None None) ;; ret Plain
  | E_EnterLoop =>
      st <- get ;; modify (set_iteration (S (iteration st))) ;; ret Plain
  | F_ConstructPrompt =>
      st <- get ;;
      modify (set_zero_shot_prompt (construct_zero_shot_prompt env (system_prompt st))) ;;
      ret Plain
  | G_GeneratePredictions =>
      preds <- generate_predictions env ;;
      modify (set_predictions preds) ;; ret Plain
  | H_EvaluatePredictions =>
      r <- evaluate_predictions env ;;
      modify (set_evaluations (fst r) (snd r)) ;; ret Plain
  | I_SaveIterationResults =>
      st <- get ;;
      modify (write (IterationResults (iteration st) (system_prompt st)
                       (avg_score st) (evaluations st))) ;;
      ret Plain
  | J_CheckBestScore =>
      st <- get ;;
      ret (if beats (avg_score st) (best_score st) then Yes else No)
  | K_UpdateBest =>
      st <- get ;;
      modify (set_best (Some (avg_score st)) (Some (system_prompt st))
                (Some (iteration st))) ;;
      ret Plain
  | L_Continue => ret Plain
  | M_LastIteration =>
      st <- get ;;
      ret (if last_iteration env st then Yes else No)
  | N_ImprovePrompt =>
      p <- improve_prompt env ;;
      modify (set_improved_prompt p) ;; ret Plain
  | O_UpdateSystemPrompt =>
      st <- get ;;
      modify (set_system_prompt (improved_prompt st)) ;; ret Plain
  | P_EndLoop => ret Plain
  | Q_SaveFinalResults =>
      st <- get ;;
      modify (write (FinalResults (best_score st) (best_prompt st) (best_iteration st))) ;;
      ret Plain
  | R_End => ret Plain
  end.

(** *** Running the chart *)

Inductive outcome : Set :=
| Next (n : node) (st : store)      (* control stands before box [n] *)
| Raised (e : exn) (st : store)     (* an exception left the program *)
| Halt (st : store).                (* the last box has been executed *)

(** One box: log the visit, execute the box, follow the arrow. *)
Definition step (env : environment) (n : node) (st : store) : outcome :=
  match action env n (record (Visit n) st) with
  | (inl e, st') => Raised e st'
  | (inr d, st') =>
      match next n d with
      | Some n' => Next n' st'
      | None => Halt st'
      end
  end.

(** At most [fuel] boxes, from box [n]. *)
Fixpoint run (env : environment) (fuel : nat) (n : node) (st : store) : outcome :=
  match fuel with
  | 0 => Next n st
  | S fuel' =>
      match step env n st with
      | Next n' st' => run env fuel' n' st'
      | o => o
      end
  end.

(** The whole program, given enough fuel. *)
Definition main (env : environment) (fuel : nat) : outcome :=
  run env fuel A_Start empty_store.

Definition final_store (o : outcome) : store :=
  match o with
  | Next _ st => st
  | Raised _ st => st
  | Halt st => st
  end.

(** *** Reading a trace *)

Definition visited (tr : list event) : list node :=
  flat_map (fun ev => match ev with Visit n => [n] | _ => [] end) tr.

Definition saves (tr : list event) : list saved :=
  flat_map (fun ev => match ev with Save s => [s] | _ => [] end) tr.

Definition calls_to (m : model) (tr : list event) : nat :=
  List.length (filter (fun ev => match ev with
                            | ModelCall m' _ _ => if model_eq_dec m m' then true else false
                            | _ => false
                            end) tr).

End Flowchart.

(* ===================================================================== *)
(** ** Python values, string methods and the json module *)
(* ===================================================================== *)

Module Python.

(** The exceptions the notebook cells can meet. *)
Inductive pyexn : Set :=
| IndexError | KeyError | TypeError | AttributeError | ValueError | JSONDecodeError.

Set Warnings "-register-all".

(** The values the notebook cells handle: [None], booleans, strings, lists
    and dictionaries.  A dictionary keeps its keys in insertion order. *)
Inductive pyval : Set :=
| PNone
| PBool (b : bool)
| PStr (s : str)
| PList (l : list pyval)
| PDict (d : list (str * pyval)).

(** *** Dictionaries and subscripts *)

Fixpoint dict_get (d : list (str * pyval)) (k : str) : option pyval :=
  match d with
  | [] => None
  | (k', v) :: d' => if str_eq_dec k' k then Some v else dict_get d' k
  end.

(** [d[k] = v]: an existing key keeps its place, a new key goes last. *)
Fixpoint dict_set (d : list (str * pyval)) (k : str) (v : pyval) : list (str * pyval) :=
  match d with
  | [] => [(k, v)]
  | (k', v') :: d' =>
      if str_eq_dec k' k then (k', v) :: d' else (k', v') :: dict_set d' k v
  end.

(** A dictionary display [{k1: v1, ..., kn: vn}]. *)
Definition dict_display (items : list (str * pyval)) : list (str * pyval) :=
  fold_left (fun d kv => dict_set d (fst kv) (snd kv)) items [].

Definition keys (d : list (str * pyval)) : list str := map fst d.

(** [v[k]] for a string key. *)
Definition subscript (v : pyval) (k : str) : pyexn + pyval :=
  match v with
  | PDict d => match dict_get d k with Some x => inr x | None => inl KeyError end
  | PStr _ | PList _ => inl TypeError
  | PNone | PBool _ => inl TypeError
  end.

(** [v[i]] for a list and an index that is not negative. *)
Definition item (v : pyval) (i : nat) : pyexn + pyval :=
  match v with
  | PList l => match nth_error l i with Some x => inr x | None => inl IndexError end
  | PStr s => match nth_error s i with Some c => inr (PStr [c]) | None => inl IndexError end
  | PDict _ => inl KeyError
  | PNone | PBool _ => inl TypeError
  end.

Definition list_item {X : Type} (l : list X) (i : nat) : pyexn + X :=
  match nth_error l i with Some x => inr x | None => inl IndexError end.

(** Cell code that may raise: the first exception ends it. *)
Definition and_then {X Y : Type} (r : pyexn + X) (k : X -> pyexn + Y) : pyexn + Y :=
  match r with
  | inl e => inl e
  | inr x => k x
  end.

Notation "x <- r ;; k" := (and_then r (fun x => k))
  (at level 61, r at next level, right associativity).

(** [v[k] = x] for a string key. *)
Definition assign (v : pyval) (k : str) (x : pyval) : pyexn + pyval :=
  match v with
  | PDict d => inr (PDict (dict_set d k x))
  | _ => inl TypeError
  end.

(** [del v[k]] for a string key. *)
Definition delete (v : pyval) (k : str) : pyexn + pyval :=
  match v with
  | PDict d =>
      match dict_get d k with
      | Some _ => inr (PDict (filter (fun kv => negb (str_eqb (fst kv) k)) d))
      | None => inl KeyError
      end
  | _ => inl TypeError
  end.

(** *** str.find and str.split *)

Fixpoint starts_with (p s : str) : bool :=
  match p, s with
  | [], _ => true
  | _ :: _, [] => false
  | a :: p', b :: s' => N.eqb a b && starts_with p' s'
  end.

(** [s.find(sep)]: the lowest index where [sep] occurs in [s]. *)
Fixpoint find (sep s : str) : option nat :=
  if starts_with sep s then Some 0
  else match s with
       | [] => None
       | _ :: s' => option_map S (find sep s')
       end.

(** The pieces of [s] between the occurrences of [sep], found from left to
    right, each search starting after the previous occurrence. *)
Fixpoint split_from (fuel : nat) (sep s : str) : list str :=
  match find sep s with
  | None => [s]
  | Some i =>
      match fuel with
      | 0 => [s]
      | S fuel' => firstn i s :: split_from fuel' sep (skipn (i + List.length sep) s)
      end
  end.

(** [s.split(sep)]; an empty separator is a [ValueError]. *)
Definition split (s sep : str) : pyexn + list str :=
  match sep with
  | [] => inl ValueError
  | _ :: _ => inr (split_from (List.length s) sep s)
  end.

(** *** json.dumps *)

Definition quote : char := 34%N.
Definition backslash : char := 92%N.

Definition quoted (s : str) : str := quote :: s ++ [quote].

Fixpoint join (sep : str) (l : list str) : str :=
  match l with
  | [] => []
  | [x] => x
  | x :: l' => x ++ sep ++ join sep l'
  end.

Definition hex_digit (d : N) : char :=
  if (d <? 10)%N then (48 + d)%N else (87 + d)%N.

(** ['{0:04x}'.format(n)] for [n < 0x10000]. *)
Definition hex4 (n : N) : str :=
  [ hex_digit ((n / 4096) mod 16); hex_digit ((n / 256) mod 16);
    hex_digit ((n / 16) mod 16); hex_digit (n mod 16) ]%N.

Definition u_escape (n : N) : str := backslash :: 117%N :: hex4 n.

(** The replacement of one character in [encode_basestring_ascii]. *)
Definition escape_char (c : char) : str :=
  if (c =? 92)%N then [backslash; backslash]
  else if (c =? 34)%N then [backslash; quote]
  else if (c =? 8)%N then [backslash; 98%N]
  else if (c =? 12)%N then [backslash; 102%N]
  else if (c =? 10)%N then [backslash; 110%N]
  else if (c =? 13)%N then [backslash; 114%N]
  else if (c =? 9)%N then [backslash; 116%N]
  else if ((32 <=? c) && (c <=? 126))%N then [c]
  else if (c <? 65536)%N then u_escape c
  else
    let n := (c - 65536)%N in
    u_escape (N.lor 55296 (N.land (N.shiftr n 10) 1023))
      ++ u_escape (N.lor 56320 (N.land n 1023)).

(** A string as a JSON string with only ASCII characters. *)
Definition encode_basestring_ascii (s : str) : str :=
  quoted (flat_map escape_char s).

(** [json.dumps(v)] with the default separators; dictionary keys are
    strings. *)
Fixpoint dumps (v : pyval) : str :=
  match v with
  | PNone => lit "null"
  | PBool true => lit "true"
  | PBool false => lit "false"
  | PStr s => encode_basestring_ascii s
  | PList l => lit "[" ++ join (lit ", ") (map dumps l) ++ lit "]"
  | PDict d =>
      lit "{"
        ++ join (lit ", ")
             (map (fun kv => match kv with
                             | (k, x) => encode_basestring_ascii k ++ lit ": " ++ dumps x
                             end) d)
        ++ lit "}"
  end.

(** *** json.loads, for the values above (numbers are not among them) *)

Definition is_ws (c : char) : bool :=
  ((c =? 32) || (c =? 9) || (c =? 10) || (c =? 13))%N.

Fixpoint skip_ws (s : str) : str :=
  match s with
  | c :: s' => if is_ws c then skip_ws s' else s
  | [] => []
  end.

Definition hex_value (c : char) : option N :=
  if ((48 <=? c) && (c <=? 57))%N then Some (c - 48)%N
  else if ((97 <=? c) && (c <=? 102))%N then Some (c - 87)%N
  else if ((65 <=? c) && (c <=? 70))%N then Some (c - 55)%N
  else None.

Definition parse_hex4 (s : str) : option (N * str) :=
  match s with
  | a :: b :: c :: d :: rest =>
      match hex_value a, hex_value b, hex_value c, hex_value d with
      | Some x, Some y, Some z, Some w => Some (x * 4096 + y * 256 + z * 16 + w, rest)%N
      | _, _, _, _ => None
      end
  | _ => None
  end.

(** The characters of a JSON string up to its closing quote, and what
    follows it. *)
Fixpoint scanstring (fuel : nat) (s : str) : option (str * str) :=
  match fuel with
  | 0 => None
  | S fuel' =>
      match s with
      | [] => None
      | c :: s' =>
          if (c =? 34)%N then Some ([], s')
          else if (c =? 92)%N then
            match s' with
            | [] => None
            | e :: s'' =>
                if (e =? 117)%N then
                  match parse_hex4 s'' with
                  | None => None
                  | Some (hi, rest) =>
                      let low :=
                        match rest with
                        | b :: u :: rest' =>
                            if ((55296 <=? hi) && (hi <=? 56319) && (b =? 92) && (u =? 117))%N
                            then match parse_hex4 rest' with
                                 | Some (lo, rest'') =>
                                     if ((56320 <=? lo) && (lo <=? 57343))%N
                                     then Some (lo, rest'') else None
                                 | None => None
                                 end
                            else None
                        | _ => None
                        end in
                      match low with
                      | Some (lo, rest'') =>
                          match scanstring fuel' rest'' with
                          | Some (t, r) =>
                              Some ((65536 + N.lor (N.shiftl (hi - 55296) 10) (lo - 56320))%N :: t, r)
                          | None => None
                          end
                      | None =>
                          match scanstring fuel' rest with
                          | Some (t, r) => Some (hi :: t, r)
                          | None => None
                          end
                      end
                  end
                else
                  let plain :=
                    if (e =? 34)%N then Some 34%N
                    else if (e =? 92)%N then Some 92%N
                    else if (e =? 47)%N then Some 47%N
                    else if (e =? 98)%N then Some 8%N
                    else if (e =? 102)%N then Some 12%N
                    else if (e =? 110)%N then Some 10%N
                    else if (e =? 114)%N then Some 13%N
                    else if (e =? 116)%N then Some 9%N
                    else None in
                  match plain with
                  | None => None
                  | Some x =>
                      match scanstring fuel' s'' with
                      | Some (t, r) => Some (x :: t, r)
                      | None => None
                      end
                  end
            end
          else if (c <? 32)%N then None
          else
            match scanstring fuel' s' with
            | Some (t, r) => Some (c :: t, r)
            | None => None
            end
      end
  end.

(** One JSON value and what follows it.  [parse_items] reads the elements
    of an array after its bracket, [parse_members] the members of an object
    after its brace. *)
Fixpoint parse_value (fuel : nat) (s : str) : option (pyval * str) :=
  match fuel with
  | 0 => None
  | S fuel' =>
      match s with
      | 34%N :: r =>
          match scanstring (List.length r) r with
          | Some (t, r') => Some (PStr t, r')
          | None => None
          end
      | 110%N :: 117%N :: 108%N :: 108%N :: r => Some (PNone, r)
      | 116%N :: 114%N :: 117%N :: 101%N :: r => Some (PBool true, r)
      | 102%N :: 97%N :: 108%N :: 115%N :: 101%N :: r => Some (PBool false, r)
      | 91%N :: r =>
          match skip_ws r with
          | 93%N :: r' => Some (PList [], r')
          | r' =>
              match parse_items fuel' r' with
              | Some (l, r'') => Some (PList l, r'')
              | None => None
              end
          end
      | 123%N :: r =>
          match skip_ws r with
          | 125%N :: r' => Some (PDict [], r')
          | r' =>
              match parse_members fuel' r' [] with
              | Some (d, r'') => Some (PDict d, r'')
              | None => None
              end
          end
      | _ => None
      end
  end

with parse_items (fuel : nat) (s : str) : option (list pyval * str) :=
  match fuel with
  | 0 => None
  | S fuel' =>
      match parse_value fuel' s with
      | None => None
      | Some (v, r) =>
          match skip_ws r with
          | 93%N :: r' => Some ([v], r')
          | 44%N :: r' =>
              match parse_items fuel' (skip_ws r') with
              | Some (l, r'') => Some (v :: l, r'')
              | None => None
              end
          | _ => None
          end
      end
  end

with parse_members (fuel : nat) (s : str) (acc : list (str * pyval))
  : option (list (str * pyval) * str) :=
  match fuel with
  | 0 => None
  | S fuel' =>
      match s with
      | 34%N :: r =>
          match scanstring (List.length r) r with
          | None => None
          | Some (k, r1) =>
              match skip_ws r1 with
              | 58%N :: r2 =>
                  match parse_value fuel' (skip_ws r2) with
                  | None => None
                  | Some (v, r3) =>
                      let acc' := dict_set acc k v in
                      match skip_ws r3 with
                      | 125%N :: r4 => Some (acc', r4)
                      | 44%N :: r4 => parse_members fuel' (skip_ws r4) acc'
                      | _ => None
                      end
                  end
              | _ => None
              end
          end
      | _ => None
      end
  end.

(** [json.loads(s)]. *)
Definition loads (s : str) : pyexn + pyval :=
  match parse_value (S (List.length s)) (skip_ws s) with
  | Some (v, r) => match skip_ws r with [] => inr v | _ :: _ => inl JSONDecodeError end
  | None => inl JSONDecodeError
  end.

End Python.

(* ===================================================================== *)
(** ** The function-calling notebook *)
(* ===================================================================== *)

Module FunctionCalling.
Import Python.

(** Cell 3: the dummy weather tool.  An omitted [unit] is [None] here. *)
Definition get_current_weather (location : pyval) (unit : option pyval) : str :=
  let unit := match unit with
              | Some u => u
              | None => PStr (lit "fahrenheit")
              end in
  let weather := dict_display [ (lit "location", location);
                                (lit "temperature", PStr (lit "50"));
                                (lit "unit", unit) ] in
  dumps (PDict weather).

(** Cells 11 and 13: [args = json.loads(arguments)], then the tool is
    called with the entries of [args] as keyword arguments.  The keywords
    must be parameters of the tool, and [location] has no default. *)
Definition get_current_weather_kwargs (args : pyval) : pyexn + str :=
  match args with
  | PDict d =>
      if forallb (fun k => str_eqb k (lit "location") || str_eqb k (lit "unit")) (keys d)
      then match dict_get d (lit "location") with
           | Some location => inr (get_current_weather location (dict_get d (lit "unit")))
           | None => inl TypeError
           end
      else inl TypeError
  | _ => inl TypeError
  end.

Definition parse_and_call (arguments : str) : pyexn + str :=
  args <- loads arguments ;;
  get_current_weather_kwargs args.

(** Cell 29, after the model has answered: [reply] is the answer as read
    back from its JSON dump, [py_str] is Python's [str] on the function
    entry. *)
Definition prepare_assistant_message (py_str : pyval -> str) (reply : pyval)
  : pyexn + pyval :=
  tool_calls <- subscript reply (lit "tool_calls") ;;
  call <- item tool_calls 0 ;;
  function <- subscript call (lit "function") ;;
  assistant_message <- assign reply (lit "content") (PStr (py_str function)) ;;
  delete assistant_message (lit "function_call").

Definition user_message : pyval :=
  PDict (dict_display [ (lit "role", PStr (lit "user"));
                        (lit "content", PStr (lit "What's the weather like in Boston!")) ]).

(** Cells 29, 32 and 35 of the model-feedback walkthrough: the
    conversation after the tool-role message has been appended. *)
Definition model_feedback (py_str : pyval -> str) (reply : pyval) : pyexn + list pyval :=
  let messages := [] ++ [user_message] in
  assistant_message <- prepare_assistant_message py_str reply ;;
  let messages := messages ++ [assistant_message] in
  message <- list_item messages 1 ;;
  tool_calls <- subscript message (lit "tool_calls") ;;
  call <- item tool_calls 0 ;;
  function <- subscript call (lit "function") ;;
  arguments <- subscript function (lit "arguments") ;;
  let weather := get_current_weather arguments None in
  tool_calls' <- subscript assistant_message (lit "tool_calls") ;;
  call' <- item tool_calls' 0 ;;
  id <- subscript call' (lit "id") ;;
  function' <- subscript call' (lit "function") ;;
  name <- subscript function' (lit "name") ;;
  inr (messages ++ [ PDict (dict_display [ (lit "role", PStr (lit "tool"));
                                           (lit "tool_call_id", id);
                                           (lit "name", name);
                                           (lit "content", PStr weather) ]) ]).

End FunctionCalling.

(* ===================================================================== *)
(** ** The chain-of-thought notebook *)
(* ===================================================================== *)

Module ChainOfThought.
Import Python.

Definition response_delimiter : str := lit "<response>".
Definition response_delimiter_end : str := lit "</response>".

(** [response.split(sep)]: only a string has the method. *)
Definition method_split (response : pyval) (sep : str) : pyexn + list str :=
  match response with
  | PStr s => split s sep
  | _ => inl AttributeError
  end.

(** The body of the [try] of cell 8, up to the value that is printed. *)
Definition extract_final_response (response : pyval) : pyexn + str :=
  parts <- method_split response response_delimiter ;;
  inner <- list_item parts 1 ;;
  parts' <- split inner response_delimiter_end ;;
  final_response <- list_item parts' 0 ;;
  parts'' <- split final_response (lit "Response to the user: ") ;;
  list_item parts'' 1.

Inductive branch : Set := TryBranch | ExceptBranch.

Definition newline : char := 10%N.

(** Cell 8: the branch that ends the cell and what it prints. *)
Definition inner_monologue (response : pyval) : branch * str :=
  match extract_final_response response with
  | inr final_response => (TryBranch, final_response ++ [newline])
  | inl _ => (ExceptBranch, lit "No final response found" ++ [newline])
  end.

End ChainOfThought.

(* ===================================================================== *)
(** ** Sample environments *)
(* ===================================================================== *)

Module Samples.
Import Flowchart.

Definition sample_papers : list paper :=
  [ mk_paper (lit "We fine-tune BERT on legal text.") [lit "BERT"];
    mk_paper (lit "We compare GPT-2 with T5.") [lit "GPT-2"; lit "T5"] ].

(** GPT-4o-mini always names BERT; the judge gives 1 on even calls and 0
    on odd ones and, asked for a better prompt, answers with one. *)
Definition sample_llm (m : model) (call_no : nat) (messages : list str) : exn + str :=
  match m with
  | GPT_4o_mini => inr (lit "BERT")
  | O3_mini => inr (if Nat.even call_no then lit "1" else lit "0")
  end.

(** The same models, but the call numbered [bad] raises. *)
Definition failing_llm (bad : nat) (m : model) (call_no : nat) (messages : list str)
  : exn + str :=
  if Nat.eqb call_no bad then inl "RateLimitError"%string
  else sample_llm m call_no messages.

Definition sample_score (out : str) : Q * str :=
  (if str_eqb out (lit "1") then 1%Q else 0%Q, out).

Definition sample_env (rounds : nat) : environment :=
  mk_environment rounds sample_papers (lit "Extract the model names.")
    sample_llm
    (fun system => system)
    (fun abstract => abstract)
    (fun out => [out])
    (fun p => abstract (pred_paper p))
    sample_score
    (fun system evals => system)
    (fun out => out).

Definition failing_env (rounds bad : nat) : environment :=
  mk_environment rounds sample_papers (lit "Extract the model names.")
    (failing_llm bad)
    (fun system => system)
    (fun abstract => abstract)
    (fun out => [out])
    (fun p => abstract (pred_paper p))
    sample_score
    (fun system evals => system)
    (fun out => out).

End Samples.

(* ===================================================================== *)
(** ** Words for the statements about the flowchart *)
(* ===================================================================== *)

Module FlowchartTerms.
Import Flowchart.

(** *** Model calls *)

(** The store after the model calls [evs]: only the call counter and the
    trace move. *)
Definition advance (evs : list event) (st : store) : store :=
  mk_store (validation_data st) (system_prompt st) (iteration st) (best_score st)
    (best_prompt st) (best_iteration st) (zero_shot_prompt st) (predictions st)
    (evaluations st) (avg_score st) (improved_prompt st) (storage st)
    (List.length evs + calls st) (trace st ++ evs).

(** The calls of one loop over [l], numbered from [k]. *)
Fixpoint call_events {X : Type} (m : model) (request : X -> list str) (k : nat) (l : list X)
  : list event :=
  match l with
  | [] => []
  | x :: l' => ModelCall m k (request x) :: call_events m request (S k) l'
  end.

(** A logged model call that returned. *)
Definition returned (env : environment) (ev : event) : Prop :=
  match ev with
  | ModelCall m k messages => exists out, llm env m k messages = inr out
  | _ => True
  end.

(** One request to a model and the reading of its answer. *)
Definition one_call {X Y : Type} (env : environment) (m : model)
    (request : store -> X -> list str) (answer : X -> str -> Y) : X -> M Y :=
  fun x st =>
    match call_model env m (request st x) st with
    | (inl e, st') => (inl e, st')
    | (inr out, st') => (inr (answer x out), st')
    end.

(** The requests and the readings of the two loops. *)
Definition gen_request (env : environment) (st : store) (p : paper) : list str :=
  [zero_shot_prompt st; create_query env (abstract p)].

Definition gen_answer (env : environment) (p : paper) (out : str) : prediction :=
  mk_prediction p (gold_labels p) (extract_model_names env out).

Definition judge_request (env : environment) (st : store) (p : prediction) : list str :=
  [judge_prompt env p].

Definition judge_answer (env : environment) (p : prediction) (out : str) : evaluation :=
  mk_evaluation p (fst (calculate_score env out)) (snd (calculate_score env out)).

Definition improve_request (env : environment) (st : store) : list str :=
  [generate_metaprompt env (system_prompt st) (evaluations st)].

(** No model call raises, whatever is asked and whenever. *)
Definition never_raises (env : environment) : Prop :=
  forall m k messages, exists out, llm env m k messages = inr out.

(** *** The shape of a trace *)

(** An event without its data. *)
Inductive kind : Set :=
| KVisit (n : node)
| KCall (m : model)
| KSaveIteration
| KSaveFinal.

Definition kind_of (ev : event) : kind :=
  match ev with
  | Visit n => KVisit n
  | ModelCall m _ _ => KCall m
  | Save (IterationResults _ _ _ _) => KSaveIteration
  | Save (FinalResults _ _ _) => KSaveFinal
  end.

Definition shape (tr : list event) : list kind := map kind_of tr.

Arguments shape : simpl never.

(** What a round has done when control stands before G, H, I, J, M and O;
    [np] is the number of papers, [b] tells whether box J answered Yes. *)
Definition to_G : list kind :=
  [KVisit E_EnterLoop; KVisit F_ConstructPrompt].

Definition to_H (np : nat) : list kind :=
  to_G ++ KVisit G_GeneratePredictions :: repeat (KCall GPT_4o_mini) np.

Definition to_I (np : nat) : list kind :=
  to_H np ++ KVisit H_EvaluatePredictions :: repeat (KCall O3_mini) np.

Definition to_J (np : nat) : list kind :=
  to_I np ++ [KVisit I_SaveIterationResults; KSaveIteration].

Definition to_M (np : nat) (b : bool) : list kind :=
  to_J np ++ [KVisit J_CheckBestScore; KVisit (if b then K_UpdateBest else L_Continue)].

Definition to_O (np : nat) (b : bool) : list kind :=
  to_M np b ++ [KVisit M_LastIteration; KVisit N_ImprovePrompt; KCall O3_mini].

(** A round that is followed by another one, and the last round. *)
Definition full_round (np : nat) (b : bool) : list kind :=
  to_O np b ++ [KVisit O_UpdateSystemPrompt].

Definition last_round (np : nat) (b : bool) : list kind :=
  to_M np b ++ [KVisit M_LastIteration].

Definition prelude : list kind :=
  [KVisit A_Start; KVisit B_LoadValidationData; KVisit C_InitSystemPrompt;
   KVisit D_InitTracking].

Definition ending : list kind :=
  [KVisit P_EndLoop; KVisit Q_SaveFinalResults; KSaveFinal; KVisit R_End].

Definition rounds (np : nat) (choices : list bool) : list kind :=
  flat_map (full_round np) choices.

(** The shape of a whole run of [S (length choices)] rounds. *)
Definition whole_run (np : nat) (choices : list bool) (b : bool) : list kind :=
  prelude ++ rounds np choices ++ last_round np b ++ ending.

(** The number of rounds a run makes. *)
Definition rounds_made (env : environment) : nat := Nat.max 1 (num_iterations env).

Arguments rounds_made : simpl never.

(** Control is in a round after the rounds [choices], and the round has
    done [tail] so far. *)
Definition in_round (env : environment) (st : store) (tail : list kind) : Prop :=
  exists choices,
    shape (trace st) = prelude ++ rounds (List.length (validation_json env)) choices ++ tail
    /\ iteration st = S (List.length choices).

(** What the trace looks like when control stands before each box. *)
Definition Shape (env : environment) (n : node) (st : store) : Prop :=
  match n with
  | A_Start => trace st = []
  | B_LoadValidationData => shape (trace st) = [KVisit A_Start]
  | C_InitSystemPrompt =>
      shape (trace st) = [KVisit A_Start; KVisit B_LoadValidationData]
      /\ validation_data st = validation_json env
  | D_InitTracking =>
      shape (trace st) = [KVisit A_Start; KVisit B_LoadValidationData;
                          KVisit C_InitSystemPrompt]
      /\ validation_data st = validation_json env
  | E_EnterLoop =>
      validation_data st = validation_json env
      /\ iteration st < rounds_made env
      /\ exists choices,
           shape (trace st) = prelude ++ rounds (List.length (validation_json env)) choices
           /\ iteration st = List.length choices
  | F_ConstructPrompt =>
      validation_data st = validation_json env
      /\ iteration st <= rounds_made env
      /\ in_round env st [KVisit E_EnterLoop]
  | G_GeneratePredictions =>
      validation_data st = validation_json env
      /\ iteration st <= rounds_made env
      /\ in_round env st to_G
  | H_EvaluatePredictions =>
      validation_data st = validation_json env
      /\ iteration st <= rounds_made env
      /\ in_round env st (to_H (List.length (validation_json env)))
      /\ List.length (predictions st) = (List.length (validation_json env))
  | I_SaveIterationResults =>
      validation_data st = validation_json env
      /\ iteration st <= rounds_made env
      /\ in_round env st (to_I (List.length (validation_json env)))
  | J_CheckBestScore =>
      validation_data st = validation_json env
      /\ iteration st <= rounds_made env
      /\ in_round env st (to_J (List.length (validation_json env)))
  | K_UpdateBest =>
      validation_data st = validation_json env
      /\ iteration st <= rounds_made env
      /\ in_round env st (to_J (List.length (validation_json env)) ++ [KVisit J_CheckBestScore])
  | L_Continue =>
      validation_data st = validation_json env
      /\ iteration st <= rounds_made env
      /\ in_round env st (to_J (List.length (validation_json env)) ++ [KVisit J_CheckBestScore])
  | M_LastIteration =>
      validation_data st = validation_json env
      /\ iteration st <= rounds_made env
      /\ exists b, in_round env st (to_M (List.length (validation_json env)) b)
  | N_ImprovePrompt =>
      validation_data st = validation_json env
      /\ iteration st < num_iterations env
      /\ exists b, in_round env st (to_M (List.length (validation_json env)) b ++ [KVisit M_LastIteration])
  | O_UpdateSystemPrompt =>
      validation_data st = validation_json env
      /\ iteration st < num_iterations env
      /\ exists b, in_round env st (to_O (List.length (validation_json env)) b)
  | P_EndLoop =>
      iteration st = rounds_made env
      /\ exists b, in_round env st (last_round (List.length (validation_json env)) b)
  | Q_SaveFinalResults =>
      iteration st = rounds_made env
      /\ exists b, in_round env st (last_round (List.length (validation_json env)) b ++ [KVisit P_EndLoop])
  | R_End =>
      iteration st = rounds_made env
      /\ exists b, in_round env st (last_round (List.length (validation_json env)) b
                                  ++ [KVisit P_EndLoop; KVisit Q_SaveFinalResults; KSaveFinal])
  end.

(** *** The boxes and the writes of a whole run *)

Definition nodes_of (ks : list kind) : list node :=
  flat_map (fun k => match k with KVisit n => [n] | _ => [] end) ks.

Definition writes_of (ks : list kind) : list kind :=
  filter (fun k => match k with KSaveIteration | KSaveFinal => true | _ => false end) ks.

(** The boxes of one round up to the test for the last round. *)
Definition round_boxes (b : bool) : list node :=
  [E_EnterLoop; F_ConstructPrompt; G_GeneratePredictions; H_EvaluatePredictions;
   I_SaveIterationResults; J_CheckBestScore;
   if b then K_UpdateBest else L_Continue; M_LastIteration].

(** The boxes of a loop whose rounds but the last took [choices] at box J
    and whose last round took [b]. *)
Definition loop_boxes (choices : list bool) (b : bool) : list node :=
  flat_map (fun c => round_boxes c ++ [N_ImprovePrompt; O_UpdateSystemPrompt]) choices
    ++ round_boxes b.

Definition program_boxes (choices : list bool) (b : bool) : list node :=
  [A_Start; B_LoadValidationData; C_InitSystemPrompt; D_InitTracking]
    ++ loop_boxes choices b
    ++ [P_EndLoop; Q_SaveFinalResults; R_End].

(** How often a box was executed. *)
Definition times (n : node) (tr : list event) : nat :=
  count_occ node_eq_dec (visited tr) n.

(** What is in storage is what the trace says was written. *)
Definition Stored (n : node) (st : store) : Prop := storage st = saves (trace st).

(** *** The best round *)

(** A round as it was saved: its number, its system prompt, its average. *)
Definition round_record : Set := (nat * str * Q)%type.

Definition logged (s : saved) : list round_record :=
  match s with
  | IterationResults i p a _ => [(i, p, a)]
  | FinalResults _ _ _ => []
  end.

(** The rounds saved so far, oldest first. *)
Definition history (st : store) : list round_record := flat_map logged (storage st).

(** The tracking variables hold a best round of [h]: none when [h] is
    empty, else a round of [h] whose average no round of [h] exceeds. *)
Definition tracked (st : store) (h : list round_record) : Prop :=
  (h = [] -> best_score st = None /\ best_prompt st = None /\ best_iteration st = None)
  /\ (h <> [] ->
      exists i p s,
        best_score st = Some s /\ best_prompt st = Some p /\ best_iteration st = Some i
        /\ In (i, p, s) h
        /\ forall i' p' s', In (i', p', s') h -> (s' <= s)%Q).

(** The rounds of [h] are the rounds 1, 2, ... in this order. *)
Definition numbered (h : list round_record) : Prop :=
  map (fun r => fst (fst r)) h = seq 1 (List.length h).

(** The average of the current round beats the running maximum. *)
Definition beats_running_maximum (st : store) : Prop :=
  best_score st = None \/ exists s, best_score st = Some s /\ (s < avg_score st)%Q.

Definition current_round (st : store) : round_record :=
  (iteration st, system_prompt st, avg_score st).

(** The tracking variables are in line with the saved rounds, box by box. *)
Definition Best (n : node) (st : store) : Prop :=
  match n with
  | A_Start | B_LoadValidationData | C_InitSystemPrompt | D_InitTracking =>
      storage st = []
  | E_EnterLoop =>
      tracked st (history st) /\ numbered (history st)
      /\ List.length (history st) = iteration st
  | F_ConstructPrompt | G_GeneratePredictions | H_EvaluatePredictions
  | I_SaveIterationResults =>
      tracked st (history st) /\ numbered (history st)
      /\ S (List.length (history st)) = iteration st
  | J_CheckBestScore =>
      numbered (history st) /\ List.length (history st) = iteration st
      /\ exists prev, history st = prev ++ [current_round st] /\ tracked st prev
  | K_UpdateBest =>
      numbered (history st) /\ List.length (history st) = iteration st
      /\ (exists prev, history st = prev ++ [current_round st] /\ tracked st prev)
      /\ beats (avg_score st) (best_score st) = true
  | L_Continue | M_LastIteration | N_ImprovePrompt | O_UpdateSystemPrompt
  | P_EndLoop | Q_SaveFinalResults | R_End =>
      tracked st (history st) /\ numbered (history st)
      /\ List.length (history st) = iteration st
  end.

(** *** The data of a round *)

(** [y] is the prediction for paper [p]: the model was asked once, with the
    zero-shot prompt and the query built from the paper's abstract, and the
    prediction holds the paper, its gold labels and the names read from the
    answer. *)
Definition predicted (env : environment) (zero_shot : str) (p : paper) (y : prediction)
  : Prop :=
  exists k out,
    llm env GPT_4o_mini k [zero_shot; create_query env (abstract p)] = inr out
    /\ y = mk_prediction p (gold_labels p) (extract_model_names env out).

(** [y] is the evaluation of prediction [p]: the judge was asked once, and
    the evaluation holds the prediction with the score and the explanation
    read from the answer. *)
Definition judged (env : environment) (p : prediction) (y : evaluation) : Prop :=
  exists k out,
    llm env O3_mini k [judge_prompt env p] = inr out
    /\ y = mk_evaluation p (fst (calculate_score env out)) (snd (calculate_score env out)).

Definition prompted (env : environment) (st : store) : Prop :=
  zero_shot_prompt st = construct_zero_shot_prompt env (system_prompt st).

Definition generated (env : environment) (st : store) : Prop :=
  Forall2 (predicted env (zero_shot_prompt st)) (validation_data st) (predictions st).

Definition evaluated (env : environment) (st : store) : Prop :=
  Forall2 (judged env) (predictions st) (evaluations st)
  /\ avg_score st = average (map eval_score (evaluations st)).

(** The data of the round are in place, box by box. *)
Definition RoundData (env : environment) (n : node) (st : store) : Prop :=
  match n with
  | A_Start | B_LoadValidationData | C_InitSystemPrompt | D_InitTracking
  | E_EnterLoop | F_ConstructPrompt => True
  | G_GeneratePredictions => prompted env st
  | H_EvaluatePredictions => prompted env st /\ generated env st
  | _ => prompted env st /\ generated env st /\ evaluated env st
  end.

(** *** Exceptions *)

(** While the program runs, every model call logged so far has returned. *)
Definition Clean (env : environment) (n : node) (st : store) : Prop := Forall (returned env) (trace st).

(** Until the final save has been made, box Q is not among the boxes
    visited. *)
Definition NotSaved (n : node) (st : store) : Prop :=
  n = R_End \/ ~ In Q_SaveFinalResults (visited (trace st)).

End FlowchartTerms.

(* ===================================================================== *)
(** ** Words for the statements about the notebooks *)
(* ===================================================================== *)

Module ChainOfThoughtTerms.
Import Python ChainOfThought.

(** The words of cell 8's last split and of its [except] branch. *)
Definition prefix : str := lit "Response to the user: ".

Definition fallback : branch * str :=
  (ExceptBranch, lit "No final response found" ++ [newline]).

(** The reply recorded in the notebook: its part before the response
    delimiter, the text it gives the user, and the whole of it. *)
Definition recorded_thinking : str :=
  lit "<thinking>" ++ [newline]
    ++ lit "Step 1: The user is asking a question related to a food item, specifically the Mini Cheeseburger."
    ++ [newline]
    ++ lit "Step 2: The Mini Cheeseburger exists in our menu under the Kids Menu category."
    ++ [newline]
    ++ lit "</thinking>" ++ [newline].

Definition recorded_answer : str :=
  lit "The price of the Mini Cheeseburger is $6.99. Enjoy your meal!" ++ [newline].

Definition recorded_response : str :=
  recorded_thinking
    ++ response_delimiter
    ++ ([newline] ++ prefix ++ recorded_answer)
    ++ response_delimiter_end ++ [].

End ChainOfThoughtTerms.

Module JsonTerms.
Import Python.

(** A Unicode scalar value: a code point that is not a surrogate. *)
Definition is_scalar (c : char) : bool :=
  (((c <? 55296) || (57344 <=? c)) && (c <? 1114112))%N.

(** A string of scalar values. *)
Definition well_formed (s : str) : Prop := forallb is_scalar s = true.

(** The surrogate pair of a code point beyond the basic plane. *)
Definition high_surrogate (c : char) : N :=
  (N.lor 55296 (N.land (N.shiftr (c - 65536) 10) 1023))%N.

Definition low_surrogate (c : char) : N :=
  (N.lor 56320 (N.land (c - 65536) 1023))%N.

(** One more character in front of what a scan has read. *)
Definition read_more (c : char) (o : option (str * str)) : option (str * str) :=
  match o with
  | Some (t, r) => Some (c :: t, r)
  | None => None
  end.

(** A dictionary whose values are strings. *)
Definition string_items (d : list (str * str)) : list (str * pyval) :=
  map (fun kv => (fst kv, PStr (snd kv))) d.

(** The text of one member of a dumped dictionary. *)
Definition member (kv : str * pyval) : str :=
  match kv with
  | (k, x) => encode_basestring_ascii k ++ lit ": " ++ dumps x
  end.

(** Keys and values are strings of scalar values. *)
Definition items_well_formed (d : list (str * str)) : Prop :=
  Forall (fun kv => well_formed (fst kv) /\ well_formed (snd kv)) d.

End JsonTerms.

Module FunctionCallingTerms.
Import Python FunctionCalling.

(** The object the tool serializes. *)
Definition weather_of (location unit : pyval) : list (str * pyval) :=
  [ (lit "location", location);
    (lit "temperature", PStr (lit "50"));
    (lit "unit", unit) ].

(** The tool-role message of the walkthrough. *)
Definition tool_message (id name : pyval) (content : str) : pyval :=
  PDict [ (lit "role", PStr (lit "tool"));
          (lit "tool_call_id", id);
          (lit "name", name);
          (lit "content", PStr content) ].

(** The arguments string, the model's answer and the tool-role content
    that the notebook recorded. *)
Definition recorded_arguments : str :=
  lit "{" ++ quoted (lit "location") ++ lit ":" ++ quoted (lit "Boston, MA") ++ lit "}".

Definition recorded_reply : pyval :=
  PDict [ (lit "content", PNone);
          (lit "refusal", PNone);
          (lit "role", PStr (lit "assistant"));
          (lit "audio", PNone);
          (lit "function_call", PNone);
          (lit "tool_calls",
           PList [ PDict [ (lit "id", PStr (lit "call_HjEsBatvMQLfyvpW3YjaRd6k"));
                           (lit "function",
                            PDict [ (lit "arguments", PStr recorded_arguments);
                                    (lit "name", PStr (lit "get_current_weather")) ]);
                           (lit "type", PStr (lit "function")) ] ]) ].

Definition recorded_content : str :=
  lit "{" ++ quoted (lit "location") ++ lit ": "
    ++ quoted (lit "{" ++ [backslash; quote] ++ lit "location" ++ [backslash; quote]
                 ++ lit ":" ++ [backslash; quote] ++ lit "Boston, MA" ++ [backslash; quote]
                 ++ lit "}")
    ++ lit ", " ++ quoted (lit "temperature") ++ lit ": " ++ quoted (lit "50")
    ++ lit ", " ++ quoted (lit "unit") ++ lit ": " ++ quoted (lit "fahrenheit") ++ lit "}".

End FunctionCallingTerms.

(* ===================================================================== *)
(** ** The chain-of-thought notebook: the completion helper, the testing loop
       and the format of a response *)
(* ===================================================================== *)

Module TestingLoop.
Import Python ChainOfThought.

(** What the API is asked in cell 3. *)
Record request : Type := mk_request {
  request_model : str;
  request_messages : list pyval;
  request_temperature : Q }.

(** The API: a call either raises or returns a response, of which the
    cell reads the message content of each choice, [None] or a string. *)
Definition api : Type := request -> string + list (option str).

(** What ends a cell early: an exception of the API, or one of Python. *)
Inductive failure : Type :=
| ApiError (e : string)
| Uncaught (e : pyexn).

(** Cell 3: [get_chat_completion(messages, model="gpt-4o", temperature=0.0)]. *)
Definition get_chat_completion (create : api) (messages : list pyval)
    (model : option str) (temperature : option Q) : failure + option str :=
  let model := match model with Some m => m | None => lit "gpt-4o" end in
  let temperature := match temperature with Some t => t | None => 0%Q end in
  match create (mk_request model messages temperature) with
  | inl e => inl (ApiError e)
  | inr choices =>
      match nth_error choices 0 with
      | Some content => inr content
      | None => inl (Uncaught IndexError)
      end
  end.

(** [{"role": role, "content": content}]. *)
Definition message (role content : str) : pyval :=
  PDict (dict_display [ (lit "role", PStr role); (lit "content", PStr content) ]).

(** Python's [str] on a content, and [print] on strings. *)
Definition str_of_content (content : option str) : str :=
  match content with
  | Some s => s
  | None => lit "None"
  end.

Definition print (args : list str) : str := join (lit " ") args ++ [newline].

Definition separator : str :=
  lit "====================================================".

(** Cell 10: the loop over the questions.  The calls to the API are
    numbered from [calls]; [out] is what has been printed.  The loop ends
    with the exception that ended it, if one did, the number of the next
    call and all that has been printed. *)
Fixpoint testing_loop (client : nat -> api) (system_message : str)
    (user_questions : list str) (calls : nat) (out : str)
  : option failure * nat * str :=
  match user_questions with
  | [] => (None, calls, out)
  | question :: user_questions' =>
      let user_message := question in
      let messages := [ message (lit "system") system_message;
                        message (lit "user") user_message ] in
      match get_chat_completion (client calls) messages None None with
      | inl e => (Some e, S calls, out)
      | inr response =>
          let out := out ++ print [lit "Question:"; question] in
          let out := out ++ print [lit "Response:"; str_of_content response] in
          let out := out ++ print [separator] in
          testing_loop client system_message user_questions' (S calls) out
      end
  end.

End TestingLoop.

Module ResponseFormat.
Import Python ChainOfThought.

(** Cell 5: the delimiters of the reasoning. *)
Definition thinking_delimiter : str := lit "<thinking>".
Definition thinking_delimiter_end : str := lit "</thinking>".

(** The format the system message of cell 5 asks the model for, with the
    reasoning lines and the response to the user filled in: the last seven
    lines of the message, after its f-string has put the delimiters in. *)
Definition response_format (reasoning answer : str) : str :=
  thinking_delimiter ++ [newline]
    ++ reasoning
    ++ thinking_delimiter_end ++ [newline]
    ++ response_delimiter ++ [newline]
    ++ lit "Response to the user: " ++ answer ++ [newline]
    ++ response_delimiter_end.

End ResponseFormat.

(* ===================================================================== *)
(** ** The function-calling notebook: the declared tool *)
(* ===================================================================== *)

Module ToolSchema.
Import Python FunctionCalling.

(** Cell 5: the tool as it is declared to the model. *)
Definition tools : pyval :=
  PList
    [ PDict (dict_display
        [ (lit "type", PStr (lit "function"));
          (lit "function",
           PDict (dict_display
             [ (lit "name", PStr (lit "get_current_weather"));
               (lit "description", PStr (lit "Get the current weather in a given location"));
               (lit "parameters",
                PDict (dict_display
                  [ (lit "type", PStr (lit "object"));
                    (lit "properties",
                     PDict (dict_display
                       [ (lit "location",
                          PDict (dict_display
                            [ (lit "type", PStr (lit "string"));
                              (lit "description",
                               PStr (lit "The city and state, e.g. San Francisco, CA")) ]));
                         (lit "unit",
                          PDict (dict_display
                            [ (lit "type", PStr (lit "string"));
                              (lit "enum",
                               PList [PStr (lit "celsius"); PStr (lit "fahrenheit")]) ])) ]));
                    (lit "required", PList [PStr (lit "location")]) ])) ])) ]) ].

End ToolSchema.

(* ===================================================================== *)
(** ** Words for further statements about the notebooks *)
(* ===================================================================== *)

Module TestingLoopTerms.
Import Python ChainOfThought TestingLoop.

(** The request the loop makes for a question. *)
Definition asked (system_message question : str) : request :=
  mk_request (lit "gpt-4o")
    [ message (lit "system") system_message; message (lit "user") question ]
    0%Q.

(** The three lines the loop prints for a question and its answer. *)
Definition block (qa : str * option str) : str :=
  lit "Question: " ++ fst qa ++ [newline]
    ++ lit "Response: " ++ str_of_content (snd qa) ++ [newline]
    ++ separator ++ [newline].

(** The calls numbered from [k] answered the questions [qs] with
    [answers], each as the content of the first choice of its response. *)
Fixpoint answered (client : nat -> api) (system_message : str) (k : nat)
    (qs : list str) (answers : list (option str)) : Prop :=
  match qs, answers with
  | [], [] => True
  | q :: qs', a :: answers' =>
      (exists choices, client k (asked system_message q) = inr (a :: choices))
      /\ answered client system_message (S k) qs' answers'
  | _, _ => False
  end.

(** A client for two questions: the second call raises. *)
Definition sample_client (k : nat) (r : request) : string + list (option str) :=
  match k with
  | 0 => inr [Some (lit "Yes."); Some (lit "No.")]
  | _ => inl "APIConnectionError"%string
  end.

End TestingLoopTerms.

Module ResponseFormatTerms.
Import Python ChainOfThought ChainOfThoughtTerms ResponseFormat.

(** The reasoning lines and the answer of the reply recorded in the
    notebook. *)
Definition recorded_reasoning : str :=
  lit "Step 1: The user is asking a question related to a food item, specifically the Mini Cheeseburger."
    ++ [newline]
    ++ lit "Step 2: The Mini Cheeseburger exists in our menu under the Kids Menu category."
    ++ [newline].

Definition recorded_answer_line : str :=
  lit "The price of the Mini Cheeseburger is $6.99. Enjoy your meal!".

(** The marker [sep] does not stand across the end of [a]: [a] ends with
    a character that [sep] has nowhere but, maybe, at its end. *)
Definition ends_apart (sep a : str) : Prop :=
  exists a' c, a = a' ++ [c] /\ ~ In c (removelast sep).

(** The marker [sep] does not stand across the start of [b]: [b] starts
    with a character that [sep] has nowhere but, maybe, at its start. *)
Definition starts_apart (sep b : str) : Prop :=
  exists c b', b = c :: b' /\ ~ In c (tl sep).

End ResponseFormatTerms.

Module ToolSchemaTerms.
Import Python FunctionCalling ToolSchema.

(** The keys of a dictionary, and the strings of a list of strings. *)
Definition keys_of (v : pyval) : pyexn + list str :=
  match v with
  | PDict d => inr (keys d)
  | _ => inl AttributeError
  end.

Definition strings_of (v : pyval) : pyexn + list str :=
  match v with
  | PList l =>
      fold_right (fun x r => match x, r with
                             | PStr s, inr ss => inr (s :: ss)
                             | _, _ => inl TypeError
                             end) (inr []) l
  | _ => inl TypeError
  end.

(** The parameters the first tool declares, and those it requires. *)
Definition declared_parameters : pyexn + list str :=
  tool <- item tools 0 ;;
  function <- subscript tool (lit "function") ;;
  parameters <- subscript function (lit "parameters") ;;
  properties <- subscript parameters (lit "properties") ;;
  keys_of properties.

Definition required_parameters : pyexn + list str :=
  tool <- item tools 0 ;;
  function <- subscript tool (lit "function") ;;
  parameters <- subscript function (lit "parameters") ;;
  required <- subscript parameters (lit "required") ;;
  strings_of required.

Definition declared_name : pyexn + pyval :=
  tool <- item tools 0 ;;
  function <- subscript tool (lit "function") ;;
  subscript function (lit "name").

End ToolSchemaTerms.

Module FeedbackTerms.
Import Python FunctionCalling.

(** An answer without a tool call, as the notebook recorded one for the
    question about London under [tool_choice="none"], read back from its
    JSON dump. *)
Definition recorded_plain_reply : pyval :=
  PDict [ (lit "content",
           PStr (lit "Would you like the temperature in Celsius or Fahrenheit?"));
          (lit "refusal", PNone);
          (lit "role", PStr (lit "assistant"));
          (lit "audio", PNone);
          (lit "function_call", PNone);
          (lit "tool_calls", PNone) ].

(** The keys of a dictionary after [del d[k]]. *)
Definition without (k : str) (ks : list str) : list str := remove str_eq_dec k ks.

End FeedbackTerms.

Module JsonValues.
Import Python JsonTerms.

(** No key twice. *)
Fixpoint distinct (ks : list str) : bool :=
  match ks with
  | [] => true
  | k :: ks' => negb (existsb (str_eqb k) ks') && distinct ks'
  end.

(** The values Python can hold of the shapes above: a dictionary has no
    key twice; strings and keys are strings of scalar values. *)
Fixpoint json_value (v : pyval) : bool :=
  match v with
  | PNone => true
  | PBool _ => true
  | PStr s => forallb is_scalar s
  | PList l => forallb json_value l
  | PDict d =>
      distinct (keys d)
        && forallb (fun kv => match kv with
                              | (k, x) => forallb is_scalar k && json_value x
                              end) d
  end.

(** The number of values in a value, containers counted twice. *)
Fixpoint size (v : pyval) : nat :=
  match v with
  | PList l => 2 + list_sum (map size l)
  | PDict d => 2 + list_sum (map (fun kv => match kv with (_, x) => size x end) d)
  | _ => 1
  end.

Definition member_size (kv : str * pyval) : nat := match kv with (_, x) => size x end.

Definition member_ok (kv : str * pyval) : bool :=
  match kv with (k, x) => forallb is_scalar k && json_value x end.

(** A printable ASCII character. *)
Definition printable (c : char) : bool := ((32 <=? c) && (c <=? 126))%N.

(** The first character of a dumped value. *)
Definition starts_value (c : char) : Prop :=
  In c [34%N; 110%N; 116%N; 102%N; 91%N; 123%N].

End JsonValues.

(* ===================================================================== *)
(** ** Words for further statements about the flowchart *)
(* ===================================================================== *)

Module FlowchartLedger.
Import Flowchart FlowchartTerms.

(** A run is over: control stands before no box. *)
Definition ended (o : outcome) : Prop := forall n st, o <> Next n st.

(** The boxes a run of [rounds] rounds executes when no call raises. *)
Definition boxes_of_run (rounds : nat) : nat := 10 * rounds + 5.

(** The model calls among the events of a shape. *)
Definition calls_in (m : model) (ks : list kind) : nat :=
  List.length (filter (fun k => match k with
                                | KCall m' => model_beq m m'
                                | _ => false
                                end) ks).

(** The call counter counts the calls of the trace. *)
Definition Counted (n : node) (st : store) : Prop :=
  calls st = calls_to GPT_4o_mini (trace st) + calls_to O3_mini (trace st).

(** What a box writes to storage. *)
Definition written (n : node) (st : store) : list saved :=
  match n with
  | I_SaveIterationResults =>
      [IterationResults (iteration st) (system_prompt st) (avg_score st) (evaluations st)]
  | Q_SaveFinalResults =>
      [FinalResults (best_score st) (best_prompt st) (best_iteration st)]
  | _ => []
  end.

(** The saved results of a round are those of one pass over the validation
    data: its evaluations are the judgements of predictions that were made,
    paper by paper, under the round's prompt, and its average is the
    average of their scores. *)
Definition sound_record (env : environment) (s : saved) : Prop :=
  match s with
  | IterationResults _ p a evals =>
      Forall2 (predicted env (construct_zero_shot_prompt env p))
        (validation_json env) (map eval_prediction evals)
      /\ Forall (fun y => judged env (eval_prediction y) y) evals
      /\ a = average (map eval_score evals)
  | FinalResults _ _ _ => True
  end.

(** The prompt and the evaluations of the rounds saved, oldest first. *)
Definition round_data (s : saved) : list (str * list evaluation) :=
  match s with
  | IterationResults _ p _ evals => [(p, evals)]
  | FinalResults _ _ _ => []
  end.

Definition ledger (st : store) : list (str * list evaluation) :=
  flat_map round_data (storage st).

(** [p] is the prompt read from the judge's answer to the metaprompt built
    from prompt [p0] and evaluations [e0]. *)
Definition improved_from (env : environment) (r : str * list evaluation) (p : str) : Prop :=
  exists k out,
    llm env O3_mini k [generate_metaprompt env (fst r) (snd r)] = inr out
    /\ p = get_improved_prompt env out.

(** [p] is the prompt that follows the round [prev]: the first prompt when
    there is no round before. *)
Definition follows (env : environment) (prev : option (str * list evaluation)) (p : str)
  : Prop :=
  match prev with
  | None => p = initial_system_prompt env
  | Some r => improved_from env r p
  end.

(** Each round's prompt follows the round before. *)
Fixpoint chained (env : environment) (prev : option (str * list evaluation))
    (l : list (str * list evaluation)) : Prop :=
  match l with
  | [] => True
  | r :: l' => follows env prev (fst r) /\ chained env (Some r) l'
  end.

Definition latest (prev : option (str * list evaluation)) (l : list (str * list evaluation))
  : option (str * list evaluation) :=
  last (map Some l) prev.

(** The prompts of the rounds are chained, box by box. *)
Definition Lineage (env : environment) (n : node) (st : store) : Prop :=
  chained env None (ledger st)
  /\ match n with
     | A_Start | B_LoadValidationData | C_InitSystemPrompt => ledger st = []
     | D_InitTracking | E_EnterLoop | F_ConstructPrompt | G_GeneratePredictions
     | H_EvaluatePredictions | I_SaveIterationResults =>
         follows env (latest None (ledger st)) (system_prompt st)
     | J_CheckBestScore | K_UpdateBest | L_Continue | M_LastIteration | N_ImprovePrompt =>
         latest None (ledger st) = Some (system_prompt st, evaluations st)
     | O_UpdateSystemPrompt =>
         follows env (latest None (ledger st)) (improved_prompt st)
         /\ latest None (ledger st) <> None
     | P_EndLoop | Q_SaveFinalResults | R_End => True
     end.

(** Storage holds the results of rounds only. *)
Definition is_round (s : saved) : bool :=
  match s with
  | IterationResults _ _ _ _ => true
  | FinalResults _ _ _ => false
  end.

Definition RoundsOnly (n : node) (st : store) : Prop :=
  n = R_End \/ forallb is_round (storage st) = true.

End FlowchartLedger.

Module FlowchartBudgetTerms.
Import Flowchart FlowchartTerms.

(** The most requests a model gets in a run of [rounds] rounds over [np]
    papers: one per paper and round and, for the judge, one more after
    every round but the last. *)
Definition budget (m : model) (rounds np : nat) : nat :=
  match m with
  | GPT_4o_mini => rounds * np
  | O3_mini => rounds * np + (rounds - 1)
  end.

End FlowchartBudgetTerms.

(* ===================================================================== *)
(** ** Facts about str.find and str.split *)
(* ===================================================================== *)

Module PythonFacts.
Import Python.

(** What [s.split(sep)[0]] is: [s] up to the first [sep], or all of [s]. *)
Definition before (sep s : str) : str :=
  match find sep s with
  | Some i => firstn i s
  | None => s
  end.

(** What follows the first [sep] in [s], if [sep] occurs. *)
Definition after (sep s : str) : option str :=
  match find sep s with
  | Some i => Some (skipn (i + List.length sep) s)
  | None => None
  end.

Lemma starts_with_app (p s : str) : starts_with p (p ++ s) = true.
Proof.
  induction p as [|c p IH]; simpl; [reflexivity|].
  now rewrite N.eqb_refl, IH.
Qed.

Lemma starts_with_inv (p s : str) :
  starts_with p s = true -> exists t, s = p ++ t.
Proof.
  revert s; induction p as [|c p IH]; intros s H; simpl in *.
  - now exists s.
  - destruct s as [|d s]; [discriminate|].
    apply andb_true_iff in H as [Hc Hp].
    apply N.eqb_eq in Hc; subst d.
    destruct (IH _ Hp) as [t ->]. now exists t.
Qed.

Lemma find_nil_sep (c : char) (sep : str) : find (c :: sep) [] = None.
Proof. reflexivity. Qed.

(** [find] returns a place where the separator stands. *)
Lemma find_Some_split (sep s : str) (i : nat) :
  find sep s = Some i ->
  s = firstn i s ++ sep ++ skipn (i + List.length sep) s /\ i + List.length sep <= List.length s.
Proof.
  revert i; induction s as [|c s IH]; intros i H.
  - simpl in H. destruct (starts_with sep []) eqn:E; [|discriminate].
    injection H as <-. apply starts_with_inv in E as [t E].
    symmetry in E. apply app_eq_nil in E as [-> ->]. simpl. split; [reflexivity|lia].
  - simpl in H. destruct (starts_with sep (c :: s)) eqn:E.
    + injection H as <-. apply starts_with_inv in E as [t E]. rewrite E.
      simpl firstn. simpl Nat.add. rewrite skipn_app, skipn_all, Nat.sub_diag.
      simpl. split; [reflexivity | rewrite length_app; lia].
    + destruct (find sep s) as [j|] eqn:F; [|discriminate].
      injection H as <-. destruct (IH j eq_refl) as [IH1 IH2].
      simpl. split; [now rewrite <- IH1 | lia].
Qed.

(** No separator: [find] fails exactly when the separator stands nowhere. *)
Lemma find_None_no_occurrence (sep s : str) :
  find sep s = None -> forall a b, s <> a ++ sep ++ b.
Proof.
  revert sep; induction s as [|c s IH]; intros sep H a b E.
  - simpl in H. destruct (starts_with sep []) eqn:S0; [discriminate|].
    symmetry in E. apply app_eq_nil in E as [-> E]. apply app_eq_nil in E as [-> ->].
    discriminate.
  - simpl in H. destruct (starts_with sep (c :: s)) eqn:S0; [discriminate|].
    destruct (find sep s) eqn:F; [discriminate|].
    destruct a as [|d a].
    + simpl in E. rewrite E, starts_with_app in S0. discriminate.
    + injection E as -> E. exact (IH sep F a b E).
Qed.

Lemma find_occurrence (sep a b : str) : exists i, find sep (a ++ sep ++ b) = Some i.
Proof.
  destruct (find sep (a ++ sep ++ b)) as [i|] eqn:F; [now exists i|].
  exfalso. exact (find_None_no_occurrence _ _ F a b eq_refl).
Qed.

(** A string in which the separator does not occur has no part in which
    it occurs. *)
Lemma find_None_firstn (sep s : str) (n : nat) :
  find sep s = None -> find sep (firstn n s) = None.
Proof.
  intros H. destruct (find sep (firstn n s)) as [i|] eqn:F; [|reflexivity].
  exfalso. apply find_Some_split in F as [F _].
  apply (find_None_no_occurrence _ _ H (firstn i (firstn n s))
           (skipn (i + List.length sep) (firstn n s) ++ skipn n s)).
  rewrite <- (firstn_skipn n s) at 1. rewrite F at 1.
  now rewrite <- !app_assoc.
Qed.

Lemma find_None_skipn (sep s : str) (n : nat) :
  find sep s = None -> find sep (skipn n s) = None.
Proof.
  intros H. destruct (find sep (skipn n s)) as [i|] eqn:F; [|reflexivity].
  exfalso. apply find_Some_split in F as [F _].
  apply (find_None_no_occurrence _ _ H (firstn n s ++ firstn i (skipn n s))
           (skipn (i + List.length sep) (skipn n s))).
  rewrite <- (firstn_skipn n s) at 1. rewrite F at 1.
  now rewrite <- !app_assoc.
Qed.

Lemma find_None_before (sep p s : str) :
  find p s = None -> find p (before sep s) = None.
Proof.
  intros H. unfold before. destruct (find sep s); [now apply find_None_firstn|exact H].
Qed.

Lemma find_None_after (sep p s r : str) :
  find p s = None -> after sep s = Some r -> find p r = None.
Proof.
  unfold after. intros H A. destruct (find sep s); [|discriminate].
  injection A as <-. now apply find_None_skipn.
Qed.

(** What stands before and after an occurrence at a known place. *)
Lemma before_at (sep a b : str) :
  find sep (a ++ sep ++ b) = Some (List.length a) -> before sep (a ++ sep ++ b) = a.
Proof.
  intros H. unfold before. rewrite H.
  now rewrite firstn_app, firstn_all, Nat.sub_diag, app_nil_r.
Qed.

Lemma after_at (sep a b : str) :
  find sep (a ++ sep ++ b) = Some (List.length a) -> after sep (a ++ sep ++ b) = Some b.
Proof.
  intros H. unfold after. rewrite H. f_equal.
  rewrite app_assoc, <- length_app.
  now rewrite skipn_app, skipn_all, Nat.sub_diag.
Qed.

Lemma before_absent (sep s : str) : find sep s = None -> before sep s = s.
Proof. intros H. unfold before. now rewrite H. Qed.

Lemma after_absent (sep s : str) : find sep s = None -> after sep s = None.
Proof. intros H. unfold after. now rewrite H. Qed.

(** With enough fuel, [split_from] unfolds at each occurrence. *)
Lemma split_from_unfold (fuel : nat) (sep s : str) :
  sep <> [] -> List.length s <= fuel ->
  split_from fuel sep s =
    match find sep s with
    | None => [s]
    | Some i => firstn i s :: split_from (fuel - 1) sep (skipn (i + List.length sep) s)
    end.
Proof.
  intros Hsep Hlen. destruct fuel as [|fuel].
  - destruct s; [|simpl in Hlen; lia].
    destruct sep as [|c sep]; [contradiction|]. reflexivity.
  - simpl. now rewrite Nat.sub_0_r.
Qed.

Lemma split_from_head (fuel : nat) (sep s : str) :
  sep <> [] -> List.length s <= fuel ->
  nth_error (split_from fuel sep s) 0 = Some (before sep s).
Proof.
  intros Hsep Hlen. rewrite split_from_unfold by assumption.
  unfold before. now destruct (find sep s).
Qed.

(** [s.split(sep)[0]] never fails. *)
Lemma split_item_0 (sep s : str) :
  sep <> [] ->
  (parts <- split s sep ;; list_item parts 0) = inr (before sep s).
Proof.
  intros Hsep. unfold split. destruct sep as [|c sep]; [contradiction|].
  unfold and_then, list_item. now rewrite split_from_head.
Qed.

(** [s.split(sep)[1]] is what stands between the first and the second
    [sep]; it is an [IndexError] when [sep] does not occur. *)
Lemma split_item_1 (sep s : str) :
  sep <> [] ->
  (parts <- split s sep ;; list_item parts 1) =
    match after sep s with
    | Some r => inr (before sep r)
    | None => inl IndexError
    end.
Proof.
  intros Hsep. unfold split. destruct sep as [|c sep]; [contradiction|].
  unfold and_then, list_item, after.
  rewrite split_from_unfold by (discriminate || lia).
  destruct (find (c :: sep) s) as [i|] eqn:F; [|reflexivity].
  change (nth_error (?x :: ?l) 1) with (nth_error l 0).
  rewrite split_from_head; [reflexivity|discriminate|].
  rewrite length_skipn. simpl List.length. lia.
Qed.

End PythonFacts.

(* ===================================================================== *)
(** ** The inner-monologue cell *)
(* ===================================================================== *)

Module ChainOfThoughtFacts.
Import Python PythonFacts ChainOfThought ChainOfThoughtTerms.

Lemma and_then_assoc {X Y Z : Type} (r : pyexn + X) (f : X -> pyexn + Y) (g : Y -> pyexn + Z) :
  and_then (and_then r f) g = and_then r (fun x => and_then (f x) g).
Proof. now destruct r. Qed.

Lemma response_delimiter_not_empty : response_delimiter <> [].
Proof. discriminate. Qed.

Lemma response_delimiter_end_not_empty : response_delimiter_end <> [].
Proof. discriminate. Qed.

Lemma prefix_not_empty : prefix <> [].
Proof. discriminate. Qed.

(** The three splits of the cell, read as cuts at first occurrences. *)
Lemma extract_final_response_cuts (s : str) :
  extract_final_response (PStr s) =
    match after response_delimiter s with
    | None => inl IndexError
    | Some r =>
        match after prefix (before response_delimiter_end (before response_delimiter r)) with
        | None => inl IndexError
        | Some u => inr (before prefix u)
        end
    end.
Proof.
  unfold extract_final_response, method_split.
  rewrite <- (and_then_assoc (split s response_delimiter) (fun parts => list_item parts 1)).
  rewrite (split_item_1 _ s response_delimiter_not_empty).
  destruct (after response_delimiter s) as [r|]; [|reflexivity].
  cbn [and_then].
  rewrite <- (and_then_assoc (split _ response_delimiter_end) (fun parts => list_item parts 0)).
  rewrite (split_item_0 _ _ response_delimiter_end_not_empty).
  cbn [and_then].
  exact (split_item_1 _ _ prefix_not_empty).
Qed.

Lemma inner_monologue_cuts (s : str) :
  inner_monologue (PStr s) =
    match after response_delimiter s with
    | None => fallback
    | Some r =>
        match after prefix (before response_delimiter_end (before response_delimiter r)) with
        | None => fallback
        | Some u => (TryBranch, before prefix u ++ [newline])
        end
    end.
Proof.
  unfold inner_monologue. rewrite extract_final_response_cuts.
  destruct (after response_delimiter s) as [r|]; [|reflexivity].
  now destruct (after prefix _).
Qed.

Lemma inner_monologue_not_str (v : pyval) :
  (forall s, v <> PStr s) -> inner_monologue v = fallback.
Proof.
  intros H. destruct v; try reflexivity. now destruct (H s).
Qed.




End ChainOfThoughtFacts.

(* ===================================================================== *)
(** ** The prompt-optimization flowchart: how a run unfolds *)
(* ===================================================================== *)

Module FlowchartFacts.
Import Flowchart FlowchartTerms.

Section Calls.
Variable env : environment.

Lemma advance_nil (st : store) : advance [] st = st.
Proof. destruct st. unfold advance. simpl. now rewrite app_nil_r. Qed.

Lemma advance_app (evs1 evs2 : list event) (st : store) :
  advance evs2 (advance evs1 st) = advance (evs1 ++ evs2) st.
Proof.
  unfold advance. simpl. rewrite length_app, <- app_assoc. f_equal. lia.
Qed.

Lemma count_call_advance (m : model) (messages : list str) (st : store) :
  count_call m messages st = advance [ModelCall m (calls st) messages] st.
Proof. reflexivity. Qed.

Lemma call_events_length {X : Type} (m : model) (request : X -> list str) (k : nat) (l : list X) :
  List.length (call_events m request k l) = List.length l.
Proof. revert k; induction l; intros k; simpl; [reflexivity | now rewrite IHl]. Qed.

Lemma call_events_app {X : Type} (m : model) (request : X -> list str) (k : nat) (l1 l2 : list X) :
  call_events m request k (l1 ++ l2)
  = call_events m request k l1 ++ call_events m request (List.length l1 + k) l2.
Proof.
  revert k; induction l1 as [|x l1 IH]; intros k; simpl; [reflexivity|].
  rewrite IH. do 3 f_equal. lia.
Qed.

(** A loop of calls either collects one answer per element, all its calls
    having returned, or stops at the first call that raises, with that
    call's exception. *)
Lemma for_each_one_call {X Y : Type} (m : model)
    (request : store -> X -> list str) (answer : X -> str -> Y) :
  (forall evs st, request (advance evs st) = request st) ->
  forall (l : list X) (st : store),
    match for_each (one_call env m request answer) l st with
    | (inr ys, st') =>
        st' = advance (call_events m (request st) (calls st) l) st
        /\ Forall (returned env) (call_events m (request st) (calls st) l)
        /\ Forall2 (fun x y => exists k out,
                        llm env m k (request st x) = inr out /\ y = answer x out) l ys
    | (inl e, st') =>
        exists l1 x l2,
          l = l1 ++ x :: l2
          /\ st' = advance (call_events m (request st) (calls st) (l1 ++ [x])) st
          /\ Forall (returned env) (call_events m (request st) (calls st) l1)
          /\ llm env m (List.length l1 + calls st) (request st x) = inl e
    end.
Proof.
  intros Hreq l. induction l as [|x l IH]; intros st.
  - simpl. unfold ret. rewrite advance_nil. repeat split; constructor.
  - simpl for_each. unfold bind at 1. unfold one_call at 1. unfold call_model.
    destruct (llm env m (calls st) (request st x)) as [e|out] eqn:L.
    + exists [], x, l. simpl. repeat split; auto.
    + rewrite count_call_advance.
      specialize (IH (advance [ModelCall m (calls st) (request st x)] st)).
      unfold bind.
      destruct (for_each (one_call env m request answer) l _) as [[e|ys] st'].
      * destruct IH as (l1 & x' & l2 & -> & -> & Hret & Hfail).
        rewrite Hreq in *. simpl calls in *.
        exists (x :: l1), x', l2. simpl. repeat split.
        -- now rewrite advance_app.
        -- constructor; [now exists out | exact Hret].
        -- rewrite <- Hfail. f_equal. lia.
      * destruct IH as (-> & Hret & Hall).
        rewrite Hreq in *. simpl calls in *. unfold ret. simpl.
        repeat split.
        -- now rewrite advance_app.
        -- constructor; [now exists out | exact Hret].
        -- constructor; [now exists (calls st), out | exact Hall].
Qed.

End Calls.

Section Steps.
Variable env : environment.

Lemma predict_one_call :
  predict env = one_call env GPT_4o_mini (gen_request env) (gen_answer env).
Proof. reflexivity. Qed.

Lemma evaluate_one_call :
  evaluate env = one_call env O3_mini (judge_request env) (judge_answer env).
Proof. reflexivity. Qed.

Lemma step_G (st : store) :
  step env G_GeneratePredictions st =
    match for_each (one_call env GPT_4o_mini (gen_request env) (gen_answer env))
            (validation_data st) (record (Visit G_GeneratePredictions) st) with
    | (inl e, st') => Raised e st'
    | (inr preds, st') => Next H_EvaluatePredictions (set_predictions preds st')
    end.
Proof.
  unfold step, action, generate_predictions. rewrite predict_one_call.
  unfold bind, get. simpl validation_data.
  now destruct (for_each _ _ _) as [[e|preds] st'].
Qed.

Lemma step_H (st : store) :
  step env H_EvaluatePredictions st =
    match for_each (one_call env O3_mini (judge_request env) (judge_answer env))
            (predictions st) (record (Visit H_EvaluatePredictions) st) with
    | (inl e, st') => Raised e st'
    | (inr evals, st') =>
        Next I_SaveIterationResults
          (set_evaluations evals (average (map eval_score evals)) st')
    end.
Proof.
  unfold step, action, evaluate_predictions. rewrite evaluate_one_call.
  unfold bind, get. simpl predictions.
  now destruct (for_each _ _ _) as [[e|evals] st'].
Qed.

Lemma step_N (st : store) :
  step env N_ImprovePrompt st =
    let st1 := record (Visit N_ImprovePrompt) st in
    let st2 := advance [ModelCall O3_mini (calls st) (improve_request env st)] st1 in
    match llm env O3_mini (calls st) (improve_request env st) with
    | inl e => Raised e st2
    | inr out => Next O_UpdateSystemPrompt (set_improved_prompt (get_improved_prompt env out) st2)
    end.
Proof.
  unfold step, action, improve_prompt, bind, get, call_model, improve_request.
  simpl. now destruct (llm env O3_mini _ _).
Qed.

Lemma step_J (st : store) :
  step env J_CheckBestScore st =
    Next (if beats (avg_score st) (best_score st) then K_UpdateBest else L_Continue)
      (record (Visit J_CheckBestScore) st).
Proof. cbn. now destruct (beats _ _). Qed.

Lemma step_M (st : store) :
  step env M_LastIteration st =
    Next (if last_iteration env st then P_EndLoop else N_ImprovePrompt)
      (record (Visit M_LastIteration) st).
Proof.
  unfold step, action, bind, get, ret.
  change (last_iteration env (record (Visit M_LastIteration) st))
    with (last_iteration env st).
  now destruct (last_iteration env st).
Qed.

(** What box G leaves behind when it returns, and when it raises. *)
Lemma step_G_next (st : store) (n' : node) (st' : store) :
  step env G_GeneratePredictions st = Next n' st' ->
  n' = H_EvaluatePredictions
  /\ exists preds,
       let evs := call_events GPT_4o_mini (gen_request env st) (calls st) (validation_data st) in
       st' = set_predictions preds (advance evs (record (Visit G_GeneratePredictions) st))
       /\ Forall (returned env) evs
       /\ Forall2 (fun p y => exists k out,
                      llm env GPT_4o_mini k (gen_request env st p) = inr out
                      /\ y = gen_answer env p out) (validation_data st) preds.
Proof.
  rewrite step_G.
  pose proof (for_each_one_call env GPT_4o_mini (gen_request env) (gen_answer env)
                (fun _ _ => eq_refl) (validation_data st)
                (record (Visit G_GeneratePredictions) st)) as F.
  destruct (for_each _ _ _) as [[e|preds] st1]; [discriminate|].
  intros E. injection E as <- <-. destruct F as (-> & Hret & Hall).
  split; [reflexivity|]. exists preds. repeat split; assumption.
Qed.

Lemma step_H_next (st : store) (n' : node) (st' : store) :
  step env H_EvaluatePredictions st = Next n' st' ->
  n' = I_SaveIterationResults
  /\ exists evals,
       let evs := call_events O3_mini (judge_request env st) (calls st) (predictions st) in
       st' = set_evaluations evals (average (map eval_score evals))
               (advance evs (record (Visit H_EvaluatePredictions) st))
       /\ Forall (returned env) evs
       /\ Forall2 (fun p y => exists k out,
                      llm env O3_mini k (judge_request env st p) = inr out
                      /\ y = judge_answer env p out) (predictions st) evals.
Proof.
  rewrite step_H.
  pose proof (for_each_one_call env O3_mini (judge_request env) (judge_answer env)
                (fun _ _ => eq_refl) (predictions st)
                (record (Visit H_EvaluatePredictions) st)) as F.
  destruct (for_each _ _ _) as [[e|evals] st1]; [discriminate|].
  intros E. injection E as <- <-. destruct F as (-> & Hret & Hall).
  split; [reflexivity|]. exists evals. repeat split; assumption.
Qed.

Lemma step_G_raised (st : store) (e : exn) (st' : store) :
  step env G_GeneratePredictions st = Raised e st' ->
  exists l1 p l2,
    validation_data st = l1 ++ p :: l2
    /\ st' = advance (call_events GPT_4o_mini (gen_request env st) (calls st) (l1 ++ [p]))
               (record (Visit G_GeneratePredictions) st)
    /\ Forall (returned env) (call_events GPT_4o_mini (gen_request env st) (calls st) l1)
    /\ llm env GPT_4o_mini (List.length l1 + calls st) (gen_request env st p) = inl e.
Proof.
  rewrite step_G.
  pose proof (for_each_one_call env GPT_4o_mini (gen_request env) (gen_answer env)
                (fun _ _ => eq_refl) (validation_data st)
                (record (Visit G_GeneratePredictions) st)) as F.
  destruct (for_each _ _ _) as [[e1|preds] st1]; [|discriminate].
  intros E. injection E as <- <-. exact F.
Qed.

Lemma step_H_raised (st : store) (e : exn) (st' : store) :
  step env H_EvaluatePredictions st = Raised e st' ->
  exists l1 p l2,
    predictions st = l1 ++ p :: l2
    /\ st' = advance (call_events O3_mini (judge_request env st) (calls st) (l1 ++ [p]))
               (record (Visit H_EvaluatePredictions) st)
    /\ Forall (returned env) (call_events O3_mini (judge_request env st) (calls st) l1)
    /\ llm env O3_mini (List.length l1 + calls st) (judge_request env st p) = inl e.
Proof.
  rewrite step_H.
  pose proof (for_each_one_call env O3_mini (judge_request env) (judge_answer env)
                (fun _ _ => eq_refl) (predictions st)
                (record (Visit H_EvaluatePredictions) st)) as F.
  destruct (for_each _ _ _) as [[e1|evals] st1]; [|discriminate].
  intros E. injection E as <- <-. exact F.
Qed.

(** *** Runs *)

Lemma run_add (a b : nat) (n : node) (st : store) :
  run env (a + b) n st =
    match run env a n st with
    | Next n' st' => run env b n' st'
    | o => o
    end.
Proof.
  revert n st; induction a as [|a IH]; intros n st; simpl; [reflexivity|].
  destruct (step env n st); auto.
Qed.

(** A property of the boxes that every step keeps holds all along a run. *)
Lemma run_invariant (Inv : node -> store -> Prop) :
  (forall n st n' st', Inv n st -> step env n st = Next n' st' -> Inv n' st') ->
  forall fuel n st n' st',
    Inv n st -> run env fuel n st = Next n' st' -> Inv n' st'.
Proof.
  intros Hstep fuel; induction fuel as [|fuel IH]; intros n st n' st' HI Hrun; simpl in Hrun.
  - now injection Hrun as <- <-.
  - destruct (step env n st) as [n1 st1| |] eqn:S1; try discriminate.
    exact (IH _ _ _ _ (Hstep _ _ _ _ HI S1) Hrun).
Qed.

(** A run that has ended did so at a step. *)
Lemma run_ended (fuel : nat) (n : node) (st : store) (o : outcome) :
  run env fuel n st = o ->
  (forall n' st', o <> Next n' st') ->
  exists k n1 st1,
    k < fuel /\ run env k n st = Next n1 st1 /\ step env n1 st1 = o.
Proof.
  revert n st; induction fuel as [|fuel IH]; intros n st Hrun Hend; simpl in Hrun.
  - now destruct (Hend n st).
  - destruct (step env n st) as [n1 st1| |] eqn:S1.
    + destruct (IH _ _ Hrun Hend) as (k & n2 & st2 & Hk & Hr & Hs).
      exists (S k), n2, st2. simpl. rewrite S1. repeat split; [lia|assumption..].
    + exists 0, n, st. simpl. subst o. repeat split; [lia|assumption].
    + exists 0, n, st. simpl. subst o. repeat split; [lia|assumption].
Qed.

(** Once a run has ended, more fuel changes nothing. *)
Lemma run_ended_stable (fuel fuel' : nat) (n : node) (st : store) (o : outcome) :
  run env fuel n st = o ->
  (forall n' st', o <> Next n' st') ->
  fuel <= fuel' ->
  run env fuel' n st = o.
Proof.
  intros Hrun Hend Hle.
  replace fuel' with (fuel + (fuel' - fuel)) by lia.
  rewrite run_add, Hrun. destruct o; try reflexivity. now destruct (Hend n0 st0).
Qed.

End Steps.

(** *** The shape of a trace *)

Section Shape.
Variable env : environment.

Let np : nat := List.length (validation_json env).

Lemma shape_app (tr1 tr2 : list event) : shape (tr1 ++ tr2) = shape tr1 ++ shape tr2.
Proof. apply map_app. Qed.

Lemma shape_call_events {X : Type} (m : model) (request : X -> list str) (k : nat) (l : list X) :
  shape (call_events m request k l) = repeat (KCall m) (List.length l).
Proof.
  unfold shape. revert k; induction l; intros k; simpl; [reflexivity | now rewrite IHl].
Qed.

Lemma in_round_snoc (st st' : store) (tail more : list kind) :
  in_round env st tail ->
  shape (trace st') = shape (trace st) ++ more ->
  iteration st' = iteration st ->
  in_round env st' (tail ++ more).
Proof.
  intros (choices & Hs & Hi) Ht Hit. exists choices. split; [|congruence].
  rewrite Ht, Hs. now rewrite <- !app_assoc.
Qed.

Lemma in_round_step (st st' : store) (tail more tail' : list kind) :
  in_round env st tail ->
  shape (trace st') = shape (trace st) ++ more ->
  iteration st' = iteration st ->
  tail ++ more = tail' ->
  in_round env st' tail'.
Proof. intros H Ht Hi <-. now apply in_round_snoc with (st := st). Qed.

Ltac tail_eq :=
  unfold to_O, to_M, to_J, to_I, to_H, to_G, last_round, full_round;
  rewrite <- ?app_assoc; simpl; rewrite <- ?app_assoc; reflexivity.

Ltac trace_eq :=
  cbn; rewrite ?shape_app; unfold shape; cbn; rewrite <- ?app_assoc; reflexivity.

Lemma rounds_snoc (choices : list bool) (b : bool) :
  rounds np (choices ++ [b]) = rounds np choices ++ full_round np b.
Proof. unfold rounds. rewrite flat_map_app. simpl. now rewrite app_nil_r. Qed.

(** Every step keeps the shape. *)
Lemma Shape_step (n : node) (st : store) (n' : node) (st' : store) :
  Shape env n st -> step env n st = Next n' st' -> Shape env n' st'.
Proof.
  intros HS Hstep. destruct n.
  - (* A *) cbn in Hstep. injection Hstep as <- <-. cbn in *. now rewrite HS.
  - (* B *) cbn in Hstep. injection Hstep as <- <-. cbn in *.
    split; [|reflexivity]. rewrite shape_app, HS. reflexivity.
  - (* C *) cbn in Hstep. injection Hstep as <- <-. destruct HS as [HS Hv]. cbn in *.
    split; [|exact Hv]. rewrite shape_app, HS. reflexivity.
  - (* D *) cbn in Hstep. injection Hstep as <- <-. destruct HS as [HS Hv]. cbn in *.
    split; [exact Hv|]. split; [unfold rounds_made; lia|].
    exists []. split; [|reflexivity]. rewrite shape_app, HS. reflexivity.
  - (* E *) cbn in Hstep. injection Hstep as <- <-.
    destruct HS as (Hv & Hlt & choices & Hs & Hi). cbn in *.
    split; [exact Hv|]. split; [lia|].
    exists choices. split; [|now rewrite Hi].
    cbn. rewrite shape_app, Hs. unfold shape. cbn. now rewrite <- ?app_assoc.
  - (* F *) cbn in Hstep. injection Hstep as <- <-.
    destruct HS as (Hv & Hle & Hr).
    split; [exact Hv|]. split; [exact Hle|].
    eapply in_round_step; [exact Hr | trace_eq | reflexivity | tail_eq].
  - (* G *) apply step_G_next in Hstep as (-> & preds & -> & _ & Hall).
    destruct HS as (Hv & Hle & Hr).
    split; [exact Hv|]. split; [exact Hle|]. split.
    + eapply in_round_step; [exact Hr | | reflexivity | tail_eq].
      simpl. rewrite !shape_app, shape_call_events, Hv. fold np. trace_eq.
    + simpl. apply Forall2_length in Hall. rewrite <- Hall, Hv. reflexivity.
  - (* H *) apply step_H_next in Hstep as (-> & evals & -> & _ & Hall).
    destruct HS as (Hv & Hle & Hr & Hp).
    split; [exact Hv|]. split; [exact Hle|].
    eapply in_round_step; [exact Hr | | reflexivity | tail_eq].
    simpl. rewrite !shape_app, shape_call_events, Hp. trace_eq.
  - (* I *) cbn in Hstep. injection Hstep as <- <-.
    destruct HS as (Hv & Hle & Hr).
    split; [exact Hv|]. split; [exact Hle|].
    eapply in_round_step; [exact Hr | trace_eq | reflexivity | tail_eq].
  - (* J *) cbn in Hstep. destruct HS as (Hv & Hle & Hr).
    destruct (beats (avg_score st) (best_score st)); cbn in Hstep;
      injection Hstep as <- <-;
      (split; [exact Hv|]; split; [exact Hle|];
       eapply in_round_step; [exact Hr | trace_eq | reflexivity | tail_eq]).
  - (* K *) cbn in Hstep. injection Hstep as <- <-.
    destruct HS as (Hv & Hle & Hr).
    split; [exact Hv|]. split; [exact Hle|]. exists true.
    eapply in_round_step; [exact Hr | trace_eq | reflexivity | tail_eq].
  - (* L *) cbn in Hstep. injection Hstep as <- <-.
    destruct HS as (Hv & Hle & Hr).
    split; [exact Hv|]. split; [exact Hle|]. exists false.
    eapply in_round_step; [exact Hr | trace_eq | reflexivity | tail_eq].
  - (* M *) destruct HS as (Hv & Hle & b & Hr).
    unfold step, action, bind, get, ret, last_iteration in Hstep.
    cbn [iteration record] in Hstep.
    destruct (Nat.leb_spec (num_iterations env) (iteration st)) as [Hl|Hl];
      cbn in Hstep; injection Hstep as <- <-.
    + split.
      * destruct Hr as (choices & _ & Hi). cbn. unfold rounds_made in *. lia.
      * exists b. eapply in_round_step; [exact Hr | trace_eq | reflexivity | tail_eq].
    + split; [exact Hv|]. split; [exact Hl|]. exists b.
      eapply in_round_step; [exact Hr | trace_eq | reflexivity | tail_eq].
  - (* N *) rewrite step_N in Hstep. cbv zeta in Hstep.
    destruct (llm env O3_mini (calls st) (improve_request env st)) as [e|out];
      [discriminate|]. injection Hstep as <- <-.
    destruct HS as (Hv & Hlt & b & Hr).
    split; [exact Hv|]. split; [exact Hlt|]. exists b.
    eapply in_round_step; [exact Hr | trace_eq | reflexivity | tail_eq].
  - (* O *) cbn in Hstep. injection Hstep as <- <-.
    destruct HS as (Hv & Hlt & b & choices & Hs & Hi).
    split; [exact Hv|]. split; [cbn; unfold rounds_made; lia|].
    exists (choices ++ [b]). split.
    + cbn. rewrite shape_app, Hs, rounds_snoc. unfold full_round.
      now rewrite <- !app_assoc.
    + cbn. rewrite length_app. simpl. lia.
  - (* P *) cbn in Hstep. injection Hstep as <- <-.
    destruct HS as (Hi & b & Hr). split; [exact Hi|]. exists b.
    eapply in_round_step; [exact Hr | trace_eq | reflexivity | tail_eq].
  - (* Q *) cbn in Hstep. injection Hstep as <- <-.
    destruct HS as (Hi & b & Hr). split; [exact Hi|]. exists b.
    eapply in_round_step; [exact Hr | trace_eq | reflexivity | tail_eq].
  - (* R *) cbn in Hstep. discriminate.
Qed.

Lemma Shape_main (fuel : nat) (n : node) (st : store) :
  main env fuel = Next n st -> Shape env n st.
Proof.
  apply (run_invariant env (Shape env) Shape_step). reflexivity.
Qed.

(** Only the last box ends a run without an exception. *)
Lemma step_halt (n : node) (st st' : store) :
  step env n st = Halt st' -> n = R_End /\ st' = record (Visit R_End) st.
Proof.
  intros H. destruct n; try (cbn in H; discriminate).
  - rewrite step_G in H. destruct (for_each _ _ _) as [[e|preds] st1]; discriminate.
  - rewrite step_H in H. destruct (for_each _ _ _) as [[e|evals] st1]; discriminate.
  - cbn in H. destruct (beats _ _); discriminate.
  - unfold step, action, bind, get, ret in H.
    destruct (last_iteration env _); discriminate.
  - rewrite step_N in H. cbv zeta in H. destruct (llm env _ _ _); discriminate.
  - cbn in H. injection H as <-. now split.
Qed.

(** The trace of a run that reached the end of the chart. *)
Lemma Shape_halt (fuel : nat) (st : store) :
  main env fuel = Halt st ->
  exists choices b,
    shape (trace st) = whole_run np choices b
    /\ S (List.length choices) = rounds_made env
    /\ iteration st = rounds_made env.
Proof.
  intros H.
  destruct (run_ended env _ _ _ _ H) as (k & n1 & st1 & _ & Hr & Hs); [discriminate|].
  apply Shape_main in Hr. apply step_halt in Hs as [-> ->].
  destruct Hr as (Hi & b & choices & Hsh & Hit).
  exists choices, b. cbn. split; [|split; congruence].
  rewrite shape_app, Hsh. unfold whole_run, ending, shape. cbn.
  repeat (rewrite <- app_assoc || rewrite <- app_comm_cons). reflexivity.
Qed.

End Shape.

(** *** Runs in which no model call raises *)

Section Progress.
Variable env : environment.
Hypothesis Hnr : never_raises env.

Lemma run_S (fuel : nat) (n : node) (st : store) :
  run env (S fuel) n st =
    match step env n st with
    | Next n' st' => run env fuel n' st'
    | o => o
    end.
Proof. reflexivity. Qed.

Lemma step_G_ok (st : store) :
  exists st', step env G_GeneratePredictions st = Next H_EvaluatePredictions st'
              /\ iteration st' = iteration st
              /\ validation_data st' = validation_data st.
Proof.
  destruct (step env G_GeneratePredictions st) as [n' st'|e st'|st'] eqn:S1.
  - apply step_G_next in S1 as (-> & preds & -> & _). eexists. now repeat split.
  - apply step_G_raised in S1 as (l1 & p & l2 & _ & _ & _ & Hfail).
    destruct (Hnr GPT_4o_mini (List.length l1 + calls st) (gen_request env st p)) as [out Hout].
    congruence.
  - apply step_halt in S1 as [? _]. discriminate.
Qed.

Lemma step_H_ok (st : store) :
  exists st', step env H_EvaluatePredictions st = Next I_SaveIterationResults st'
              /\ iteration st' = iteration st
              /\ validation_data st' = validation_data st.
Proof.
  destruct (step env H_EvaluatePredictions st) as [n' st'|e st'|st'] eqn:S1.
  - apply step_H_next in S1 as (-> & evals & -> & _). eexists. now repeat split.
  - apply step_H_raised in S1 as (l1 & p & l2 & _ & _ & _ & Hfail).
    destruct (Hnr O3_mini (List.length l1 + calls st) (judge_request env st p)) as [out Hout].
    congruence.
  - apply step_halt in S1 as [? _]. discriminate.
Qed.

Lemma step_N_ok (st : store) :
  exists st', step env N_ImprovePrompt st = Next O_UpdateSystemPrompt st'
              /\ iteration st' = iteration st.
Proof.
  rewrite step_N. cbv zeta.
  destruct (Hnr O3_mini (calls st) (improve_request env st)) as [out ->].
  eexists. now split.
Qed.

Lemma run_compose (a b : nat) (n n1 : node) (st st1 : store) (o : outcome) :
  run env a n st = Next n1 st1 -> run env b n1 st1 = o -> run env (a + b) n st = o.
Proof. intros H1 H2. now rewrite run_add, H1. Qed.

Lemma run_1 (n : node) (st : store) (n' : node) (st' : store) :
  step env n st = Next n' st' -> run env 1 n st = Next n' st'.
Proof. intros H. simpl. now rewrite H. Qed.

(** From the head of the loop to the test for the last round. *)
Lemma round_to_M (st : store) :
  exists st', run env 7 E_EnterLoop st = Next M_LastIteration st'
              /\ iteration st' = S (iteration st).
Proof.
  assert (S1 : exists st1, run env 2 E_EnterLoop st = Next G_GeneratePredictions st1
                           /\ iteration st1 = S (iteration st))
    by (eexists; split; reflexivity).
  destruct S1 as (st1 & R1 & I1).
  destruct (step_G_ok st1) as (st2 & R2 & I2 & _). apply run_1 in R2.
  destruct (step_H_ok st2) as (st3 & R3 & I3 & _). apply run_1 in R3.
  assert (S4 : exists st4, run env 3 I_SaveIterationResults st3 = Next M_LastIteration st4
                           /\ iteration st4 = iteration st3).
  { unfold run, step at 1. cbn [action bind get modify ret next find edges fst snd
                                 node_beq label_beq andb].
    unfold step at 1, action, bind, get, ret.
    destruct (beats _ _); eexists; split; reflexivity. }
  destruct S4 as (st4 & R4 & I4).
  exists st4. split; [|congruence].
  change 7 with (2 + (1 + (1 + 3))).
  eapply run_compose; [exact R1|].
  eapply run_compose; [exact R2|].
  eapply run_compose; [exact R3|exact R4].
Qed.

(** From the head of the loop to the end of the chart. *)
Lemma loop_ends (d : nat) :
  forall st,
    rounds_made env - S (iteration st) = d ->
    iteration st < rounds_made env ->
    exists fuel st', run env fuel E_EnterLoop st = Halt st'.
Proof.
  induction d as [|d IH]; intros st Hd Hlt;
    destruct (round_to_M st) as (st1 & R1 & I1).
  - assert (L : last_iteration env st1 = true).
    { unfold last_iteration. apply Nat.leb_le. unfold rounds_made in *. lia. }
    exists (7 + 4). eexists. eapply run_compose; [exact R1|].
    rewrite run_S, step_M, L. reflexivity.
  - destruct (last_iteration env st1) eqn:L.
    + exists (7 + 4). eexists. eapply run_compose; [exact R1|].
      rewrite run_S, step_M, L. reflexivity.
    + assert (R2 : run env 1 M_LastIteration st1
                   = Next N_ImprovePrompt (record (Visit M_LastIteration) st1)).
      { rewrite run_S, step_M, L. reflexivity. }
      destruct (step_N_ok (record (Visit M_LastIteration) st1)) as (st2 & R3 & I3).
      apply run_1 in R3.
      assert (R4 : exists st3, run env 1 O_UpdateSystemPrompt st2 = Next E_EnterLoop st3
                               /\ iteration st3 = iteration st2)
        by (eexists; split; reflexivity).
      destruct R4 as (st3 & R4 & I4).
      unfold last_iteration in L. apply Nat.leb_gt in L.
      destruct (IH st3) as (fuel & st' & Hrun).
      * cbn in I3. unfold rounds_made in *. lia.
      * cbn in I3. unfold rounds_made in *. lia.
      * exists (7 + (1 + (1 + (1 + fuel)))), st'.
        eapply run_compose; [exact R1|].
        eapply run_compose; [exact R2|].
        eapply run_compose; [exact R3|].
        eapply run_compose; [exact R4|exact Hrun].
Qed.

(** When no model call raises, the program reaches the end of the chart. *)
Lemma main_ends : exists fuel st, main env fuel = Halt st.
Proof.
  destruct (loop_ends (rounds_made env - 1)
              (set_best None None None
                 (set_iteration 0
                    (record (Visit D_InitTracking)
                       (set_system_prompt (initial_system_prompt env)
                          (record (Visit C_InitSystemPrompt)
                             (set_validation_data (validation_json env)
                                (record (Visit B_LoadValidationData)
                                   (record (Visit A_Start) empty_store)))))))))
    as (fuel & st & H).
  - reflexivity.
  - cbn. unfold rounds_made. lia.
  - exists (4 + fuel), st. unfold main. eapply run_compose; [reflexivity|exact H].
Qed.

End Progress.

(** *** The boxes and the writes of a whole run *)

Lemma visited_shape (tr : list event) : visited tr = nodes_of (shape tr).
Proof.
  unfold visited, nodes_of, shape. induction tr as [|ev tr IH]; [reflexivity|].
  simpl. rewrite IH. destruct ev as [n|m k msgs|[i p a e|s p i]]; reflexivity.
Qed.

Lemma nodes_of_app (k1 k2 : list kind) : nodes_of (k1 ++ k2) = nodes_of k1 ++ nodes_of k2.
Proof. apply flat_map_app. Qed.

Lemma nodes_of_calls (m : model) (n : nat) : nodes_of (repeat (KCall m) n) = [].
Proof. induction n; [reflexivity | exact IHn]. Qed.

Lemma nodes_of_to_M (np : nat) (b : bool) :
  nodes_of (to_M np b) =
    [E_EnterLoop; F_ConstructPrompt; G_GeneratePredictions; H_EvaluatePredictions;
     I_SaveIterationResults; J_CheckBestScore; if b then K_UpdateBest else L_Continue].
Proof.
  unfold to_M, to_J, to_I, to_H, to_G.
  rewrite !nodes_of_app. cbn [nodes_of flat_map app].
  rewrite !nodes_of_calls. reflexivity.
Qed.

Lemma nodes_of_rounds (np : nat) (choices : list bool) :
  nodes_of (rounds np choices)
  = flat_map (fun c => round_boxes c ++ [N_ImprovePrompt; O_UpdateSystemPrompt]) choices.
Proof.
  unfold rounds. induction choices as [|c choices IH]; [reflexivity|].
  cbn [flat_map]. rewrite nodes_of_app, IH. f_equal.
  unfold full_round, to_O. rewrite !nodes_of_app, nodes_of_to_M. reflexivity.
Qed.

Lemma nodes_of_whole_run (np : nat) (choices : list bool) (b : bool) :
  nodes_of (whole_run np choices b) = program_boxes choices b.
Proof.
  unfold whole_run, program_boxes, loop_boxes, last_round.
  rewrite !nodes_of_app, nodes_of_rounds, nodes_of_to_M.
  cbn [nodes_of flat_map app prelude ending]. unfold round_boxes.
  rewrite <- !app_assoc. reflexivity.
Qed.

Lemma writes_of_app (k1 k2 : list kind) : writes_of (k1 ++ k2) = writes_of k1 ++ writes_of k2.
Proof. apply filter_app. Qed.

Lemma writes_of_calls (m : model) (n : nat) : writes_of (repeat (KCall m) n) = [].
Proof. induction n; [reflexivity | exact IHn]. Qed.

Lemma writes_of_to_M (np : nat) (b : bool) : writes_of (to_M np b) = [KSaveIteration].
Proof.
  unfold to_M, to_J, to_I, to_H, to_G.
  rewrite !writes_of_app. cbn [writes_of filter app].
  rewrite !writes_of_calls. reflexivity.
Qed.

Lemma writes_of_rounds (np : nat) (choices : list bool) :
  writes_of (rounds np choices) = repeat KSaveIteration (List.length choices).
Proof.
  unfold rounds. induction choices as [|c choices IH]; [reflexivity|].
  cbn [flat_map]. rewrite writes_of_app, IH.
  unfold full_round, to_O. rewrite !writes_of_app, writes_of_to_M. reflexivity.
Qed.

(** How often each box of the loop occurs among the boxes of a program. *)
Lemma count_loop_boxes (choices : list bool) (b : bool) (n : node) :
  In n [E_EnterLoop; F_ConstructPrompt; G_GeneratePredictions; H_EvaluatePredictions;
        I_SaveIterationResults; J_CheckBestScore; M_LastIteration] ->
  count_occ node_eq_dec (program_boxes choices b) n = S (List.length choices).
Proof.
  intros Hn. unfold program_boxes, loop_boxes. rewrite !count_occ_app.
  assert (R : forall c, count_occ node_eq_dec (round_boxes c) n = 1).
  { intros c. simpl in Hn.
    destruct Hn as [<-|[<-|[<-|[<-|[<-|[<-|[<-|[]]]]]]]]; destruct c; reflexivity. }
  assert (F : count_occ node_eq_dec
                (flat_map (fun c => round_boxes c ++ [N_ImprovePrompt; O_UpdateSystemPrompt])
                   choices) n = List.length choices).
  { induction choices as [|c choices IH]; [reflexivity|].
    cbn [flat_map]. rewrite !count_occ_app, IH, R.
    simpl in Hn.
    destruct Hn as [<-|[<-|[<-|[<-|[<-|[<-|[<-|[]]]]]]]]; reflexivity. }
  rewrite F, R.
  simpl in Hn.
  destruct Hn as [<-|[<-|[<-|[<-|[<-|[<-|[<-|[]]]]]]]]; simpl; lia.
Qed.

(** *** What is written is what the trace says was written *)

Section Storage.
Variable env : environment.

Lemma saves_app (tr1 tr2 : list event) : saves (tr1 ++ tr2) = saves tr1 ++ saves tr2.
Proof. apply flat_map_app. Qed.

Lemma saves_call_events {X : Type} (m : model) (request : X -> list str) (k : nat) (l : list X) :
  saves (call_events m request k l) = [].
Proof. revert k; induction l; intros k; simpl; [reflexivity | apply IHl]. Qed.

Lemma Stored_step (n : node) (st : store) (n' : node) (st' : store) :
  Stored n st -> step env n st = Next n' st' -> Stored n' st'.
Proof.
  unfold Stored. intros HS Hstep. destruct n;
    try (cbn in Hstep; injection Hstep as <- <-; cbn;
         rewrite ?saves_app, HS; cbn; now rewrite ?app_nil_r).
  - apply step_G_next in Hstep as (-> & preds & -> & _). cbn.
    now rewrite !saves_app, saves_call_events, HS, !app_nil_r.
  - apply step_H_next in Hstep as (-> & evals & -> & _). cbn.
    now rewrite !saves_app, saves_call_events, HS, !app_nil_r.
  - rewrite step_J in Hstep. injection Hstep as <- <-. cbn.
    now rewrite saves_app, HS, app_nil_r.
  - rewrite step_M in Hstep. injection Hstep as <- <-. cbn.
    now rewrite saves_app, HS, app_nil_r.
  - rewrite step_N in Hstep. cbv zeta in Hstep.
    destruct (llm env _ _ _); [discriminate|]. injection Hstep as <- <-. cbn.
    now rewrite !saves_app, HS, !app_nil_r.
  - cbn in Hstep. discriminate.
Qed.

Lemma Stored_halt (fuel : nat) (st : store) :
  main env fuel = Halt st -> storage st = saves (trace st).
Proof.
  intros H.
  destruct (run_ended env _ _ _ _ H) as (k & n1 & st1 & _ & Hr & Hs); [discriminate|].
  apply (run_invariant env Stored Stored_step) in Hr; [|reflexivity].
  apply step_halt in Hs as [-> ->]. cbn.
  unfold Stored in Hr. now rewrite saves_app, Hr, app_nil_r.
Qed.

End Storage.

End FlowchartFacts.

(* ===================================================================== *)
(** ** The prompt-optimization flowchart: rounds, termination, writes *)
(* ===================================================================== *)

Module FlowchartRounds.
Import Flowchart FlowchartTerms FlowchartFacts Samples.

Lemma sample_never_raises (rounds : nat) : never_raises (sample_env rounds).
Proof. intros m k messages. destruct m; eexists; reflexivity. Qed.

(** C2, as amended.  In a run that reaches the end of the chart the rounds
    follow one another without overlap, and every round does the same steps
    in the same order: it enters the loop, builds the prompt, asks for one
    prediction per paper, has each prediction judged, saves the round's
    results and checks for the best score; every round but the last then
    improves the prompt and updates the system prompt before the next round
    starts, while the last round leaves the loop for the final save. *)
Theorem rounds_in_sequence (env : environment) (fuel : nat) (st : store) :
  main env fuel = Halt st ->
  exists choices b,
    S (List.length choices) = rounds_made env
    /\ shape (trace st) = whole_run (List.length (validation_json env)) choices b
    /\ visited (trace st) = program_boxes choices b.
Proof.
  intros H. destruct (Shape_halt env fuel st H) as (choices & b & Hs & Hr & _).
  exists choices, b. repeat split; [exact Hr | exact Hs |].
  now rewrite visited_shape, Hs, nodes_of_whole_run.
Qed.

Lemma rounds_in_sequence_witness :
  exists st choices b,
    main (sample_env 2) 30 = Halt st
    /\ S (List.length choices) = rounds_made (sample_env 2)
    /\ shape (trace st) = whole_run 2 choices b
    /\ visited (trace st) = program_boxes choices b.
Proof.
  eexists.
  assert (H : main (sample_env 2) 30 = Halt (final_store (main (sample_env 2) 30)))
    by (vm_compute; reflexivity).
  destruct (rounds_in_sequence (sample_env 2) 30 _ H) as (choices & b & H1 & H2 & H3).
  exists choices, b. exact (conj H (conj H1 (conj H2 H3))).
Defined.

(** C2 as first stated fails: the last round does not improve the prompt.
    With two rounds configured, predictions are generated twice and the
    prompt is improved once. *)
Lemma last_round_without_improvement :
  exists st,
    main (sample_env 2) 30 = Halt st
    /\ times G_GeneratePredictions (trace st) = 2
    /\ times N_ImprovePrompt (trace st) = 1
    /\ visited (trace st) = program_boxes [true] false.
Proof.
  exists (final_store (main (sample_env 2) 30)).
  split; [|split; [|split]]; vm_compute; reflexivity.
Qed.

(** C3, as amended.  When no model call raises and at least one round is
    configured, the program ends, and it has then executed each box of the
    loop body exactly as many times as rounds are configured; the last test
    for the last round is followed by the end of the loop and the final
    save. *)
Theorem loop_runs_configured_rounds (env : environment) :
  never_raises env ->
  1 <= num_iterations env ->
  exists fuel st,
    (forall fuel', fuel <= fuel' -> main env fuel' = Halt st)
    /\ iteration st = num_iterations env
    /\ (forall n,
          In n [E_EnterLoop; F_ConstructPrompt; G_GeneratePredictions;
                H_EvaluatePredictions; I_SaveIterationResults; J_CheckBestScore;
                M_LastIteration] ->
          times n (trace st) = num_iterations env)
    /\ exists before,
         visited (trace st)
         = before ++ [M_LastIteration; P_EndLoop; Q_SaveFinalResults; R_End].
Proof.
  intros Hnr Hn. destruct (main_ends env Hnr) as (fuel & st & H).
  exists fuel, st.
  destruct (Shape_halt env fuel st H) as (choices & b & Hs & Hr & Hi).
  assert (Hm : rounds_made env = num_iterations env) by (unfold rounds_made; lia).
  assert (Hv : visited (trace st) = program_boxes choices b)
    by (now rewrite visited_shape, Hs, nodes_of_whole_run).
  split; [|split; [|split]].
  - intros fuel' Hle. unfold main in *.
    apply (run_ended_stable env fuel fuel' _ _ _ H); [discriminate|exact Hle].
  - congruence.
  - intros n Hin. unfold times. rewrite Hv, count_loop_boxes by exact Hin. congruence.
  - rewrite Hv. unfold program_boxes, loop_boxes, round_boxes.
    exists ([A_Start; B_LoadValidationData; C_InitSystemPrompt; D_InitTracking]
              ++ flat_map (fun c => round_boxes c ++ [N_ImprovePrompt; O_UpdateSystemPrompt])
                   choices
              ++ [E_EnterLoop; F_ConstructPrompt; G_GeneratePredictions;
                  H_EvaluatePredictions; I_SaveIterationResults; J_CheckBestScore;
                  if b then K_UpdateBest else L_Continue]).
    rewrite <- !app_assoc. reflexivity.
Qed.

Lemma loop_runs_configured_rounds_witness :
  exists fuel st,
    (forall fuel', fuel <= fuel' -> main (sample_env 3) fuel' = Halt st)
    /\ iteration st = 3
    /\ times G_GeneratePredictions (trace st) = 3.
Proof.
  destruct (loop_runs_configured_rounds (sample_env 3) (sample_never_raises 3))
    as (fuel & st & H1 & H2 & H3 & _).
  - simpl. lia.
  - exists fuel, st. split; [exact H1|]. split; [exact H2|].
    apply H3. simpl. tauto.
Defined.

(** C3 as first stated fails for no configured round: the chart enters the
    loop before any test, so one round is made. *)
Lemma no_round_configured_one_round_made :
  exists st,
    num_iterations (sample_env 0) = 0
    /\ main (sample_env 0) 15 = Halt st
    /\ times G_GeneratePredictions (trace st) = 1
    /\ iteration st = 1.
Proof.
  exists (final_store (main (sample_env 0) 15)).
  split; [|split; [|split]]; vm_compute; reflexivity.
Qed.




End FlowchartRounds.

(* ===================================================================== *)
(** ** The prompt-optimization flowchart: the best round *)
(* ===================================================================== *)

Module FlowchartBest.
Import Flowchart FlowchartTerms FlowchartFacts Samples.

Section Best.
Variable env : environment.

Lemma beats_spec (st : store) :
  beats (avg_score st) (best_score st) = true <-> beats_running_maximum st.
Proof.
  unfold beats, beats_running_maximum, Qltb. destruct (best_score st) as [s|].
  - split.
    + intros H. right. exists s. split; [reflexivity|].
      apply negb_true_iff in H. apply Qnot_le_lt. intros Hle.
      apply Qle_bool_iff in Hle. congruence.
    + intros [H|(s' & H & Hlt)]; [discriminate|]. injection H as <-.
      apply negb_true_iff. destruct (Qle_bool (avg_score st) s) eqn:E; [|reflexivity].
      apply Qle_bool_iff in E. exfalso. exact (Qlt_not_le _ _ Hlt E).
  - split; [now left | reflexivity].
Qed.

Lemma history_write_round (st : store) (i : nat) (p : str) (a : Q) (evals : list evaluation) :
  history (write (IterationResults i p a evals) st) = history st ++ [(i, p, a)].
Proof. unfold history. cbn. now rewrite flat_map_app. Qed.

Lemma history_write_final (st : store) (s : option Q) (p : option str) (i : option nat) :
  history (write (FinalResults s p i) st) = history st.
Proof. unfold history. cbn. rewrite flat_map_app. cbn. now rewrite app_nil_r. Qed.

Lemma numbered_snoc (h : list round_record) (p : str) (a : Q) :
  numbered h -> numbered (h ++ [(S (List.length h), p, a)]).
Proof.
  unfold numbered, round_record in *. intros H. rewrite map_app, H, length_app. simpl.
  rewrite Nat.add_1_r, seq_S. reflexivity.
Qed.

(** The round that does not beat the running maximum leaves it in place. *)
Lemma tracked_keep (st : store) (prev : list round_record) :
  tracked st prev ->
  beats (avg_score st) (best_score st) = false ->
  tracked st (prev ++ [current_round st]).
Proof.
  intros [Hnil Hcons] Hb. split.
  - intros E. apply app_eq_nil in E as [_ E]. discriminate.
  - intros _. destruct prev as [|r prev].
    + destruct (Hnil eq_refl) as (Hs & _). unfold beats in Hb. rewrite Hs in Hb. discriminate.
    + destruct Hcons as (i & p & s & Hs & Hp & Hi & Hin & Hmax); [discriminate|].
      exists i, p, s. repeat split; try assumption.
      * apply in_or_app. now left.
      * intros i' p' s' H'. apply in_app_or in H' as [H'|[H'|[]]].
        -- exact (Hmax _ _ _ H').
        -- unfold current_round in H'. injection H' as _ _ <-.
           unfold beats in Hb. rewrite Hs in Hb. unfold Qltb in Hb.
           apply negb_false_iff in Hb. now apply Qle_bool_iff.
Qed.

(** The round that beats the running maximum becomes the best round. *)
Lemma tracked_update (st : store) (prev : list round_record) :
  tracked st prev ->
  beats (avg_score st) (best_score st) = true ->
  tracked (set_best (Some (avg_score st)) (Some (system_prompt st)) (Some (iteration st)) st)
    (prev ++ [current_round st]).
Proof.
  intros [Hnil Hcons] Hb. split.
  - intros E. apply app_eq_nil in E as [_ E]. discriminate.
  - intros _. exists (iteration st), (system_prompt st), (avg_score st).
    cbn. repeat split.
    + apply in_or_app. right. now left.
    + intros i' p' s' H'. apply in_app_or in H' as [H'|[H'|[]]].
      * destruct prev as [|r prev]; [destruct H'|].
        destruct Hcons as (i & p & s & Hs & _ & _ & _ & Hmax); [discriminate|].
        apply beats_spec in Hb as [Hb|(s0 & Hs0 & Hlt)]; [congruence|].
        assert (s0 = s) by congruence. subst s0.
        apply Qle_trans with s; [exact (Hmax _ _ _ H') | now apply Qlt_le_weak].
      * unfold current_round in H'. injection H' as _ _ <-. apply Qle_refl.
Qed.

Lemma tracked_frame (st st' : store) (h : list round_record) :
  best_score st' = best_score st ->
  best_prompt st' = best_prompt st ->
  best_iteration st' = best_iteration st ->
  tracked st h -> tracked st' h.
Proof. unfold tracked. intros -> -> ->. trivial. Qed.

(** Every step keeps the tracking variables in line with the saved rounds. *)
Lemma Best_step (n : node) (st : store) (n' : node) (st' : store) :
  Best n st -> step env n st = Next n' st' -> Best n' st'.
Proof.
  intros HS Hstep. destruct n.
  - (* A *) cbn in Hstep. injection Hstep as <- <-. exact HS.
  - (* B *) cbn in Hstep. injection Hstep as <- <-. exact HS.
  - (* C *) cbn in Hstep. injection Hstep as <- <-. exact HS.
  - (* D *) cbn in Hstep. injection Hstep as <- <-. cbn in HS.
    unfold Best, history, tracked, numbered. cbn. rewrite HS. cbn.
    repeat split; try reflexivity. intros H. now destruct H.
  - (* E *) cbn in Hstep. injection Hstep as <- <-.
    destruct HS as (Ht & Hn & Hl).
    split; [exact Ht|]. split; [exact Hn|]. cbn. now rewrite <- Hl.
  - (* F *) cbn in Hstep. injection Hstep as <- <-. exact HS.
  - (* G *) apply step_G_next in Hstep as (-> & preds & -> & _). exact HS.
  - (* H *) apply step_H_next in Hstep as (-> & evals & -> & _). exact HS.
  - (* I *) cbn in Hstep. injection Hstep as <- <-.
    destruct HS as (Ht & Hn & Hl).
    assert (Hh : history (write (IterationResults (iteration st) (system_prompt st)
                                   (avg_score st) (evaluations st))
                            (record (Visit I_SaveIterationResults) st))
                 = history st ++ [(iteration st, system_prompt st, avg_score st)])
      by exact (history_write_round (record (Visit I_SaveIterationResults) st) _ _ _ _).
    unfold Best. rewrite Hh. split; [|split].
    + rewrite <- Hl. now apply numbered_snoc.
    + rewrite length_app. cbn. lia.
    + exists (history st). split; [reflexivity | exact Ht].
  - (* J *) rewrite step_J in Hstep.
    destruct HS as (Hn & Hl & prev & Hh & Ht).
    destruct (beats (avg_score st) (best_score st)) eqn:Hb; injection Hstep as <- <-.
    + split; [exact Hn|]. split; [exact Hl|]. split; [|exact Hb].
      exists prev. split; [exact Hh | exact Ht].
    + split; [|split; [exact Hn | exact Hl]].
      change (tracked st (history st)). rewrite Hh. now apply tracked_keep.
  - (* K *) cbn in Hstep. injection Hstep as <- <-.
    destruct HS as (Hn & Hl & (prev & Hh & Ht) & Hb).
    split; [|split; [exact Hn | exact Hl]].
    change (tracked (set_best (Some (avg_score st)) (Some (system_prompt st))
                       (Some (iteration st)) st) (history st)).
    rewrite Hh. now apply tracked_update.
  - (* L *) cbn in Hstep. injection Hstep as <- <-. exact HS.
  - (* M *) rewrite step_M in Hstep.
    destruct (last_iteration env st); injection Hstep as <- <-; exact HS.
  - (* N *) rewrite step_N in Hstep. cbv zeta in Hstep.
    destruct (llm env _ _ _); [discriminate|]. injection Hstep as <- <-. exact HS.
  - (* O *) cbn in Hstep. injection Hstep as <- <-. exact HS.
  - (* P *) cbn in Hstep. injection Hstep as <- <-. exact HS.
  - (* Q *) cbn in Hstep. injection Hstep as <- <-.
    destruct HS as (Ht & Hn & Hl). unfold Best.
    rewrite history_write_final. split; [exact Ht|]. split; [exact Hn | exact Hl].
  - (* R *) cbn in Hstep. discriminate.
Qed.

Lemma Best_main (fuel : nat) (n : node) (st : store) :
  main env fuel = Next n st -> Best n st.
Proof. apply (run_invariant env Best Best_step). reflexivity. Qed.

End Best.

(** C1.  After every completed round, that is whenever control stands
    before the test for the last round, the rounds saved so far are the
    rounds 1 .. [iteration], and the tracked best score, best prompt and
    best iteration are those of one of these rounds, whose average is the
    maximum of their averages.  At the best-score check of a round the
    tracking variables hold a best round of the earlier rounds, and the
    update is made exactly when the round's average beats that running
    maximum: then the round becomes the best one, otherwise the tracking
    variables stay as they are. *)
Theorem best_is_running_maximum (env : environment) (fuel : nat) (n : node) (st : store) :
  main env fuel = Next n st ->
  (n = M_LastIteration ->
     map (fun r => fst (fst r)) (history st) = seq 1 (iteration st)
     /\ exists i p s,
          best_score st = Some s /\ best_prompt st = Some p /\ best_iteration st = Some i
          /\ In (i, p, s) (history st)
          /\ forall i' p' s', In (i', p', s') (history st) -> (s' <= s)%Q)
  /\ (n = J_CheckBestScore ->
        (exists prev, history st = prev ++ [current_round st] /\ tracked st prev)
        /\ exists st',
             run env 2 J_CheckBestScore st = Next M_LastIteration st'
             /\ history st' = history st
             /\ (beats_running_maximum st ->
                   visited (trace st')
                   = visited (trace st) ++ [J_CheckBestScore; K_UpdateBest]
                   /\ best_score st' = Some (avg_score st)
                   /\ best_prompt st' = Some (system_prompt st)
                   /\ best_iteration st' = Some (iteration st))
             /\ (~ beats_running_maximum st ->
                   visited (trace st')
                   = visited (trace st) ++ [J_CheckBestScore; L_Continue]
                   /\ best_score st' = best_score st
                   /\ best_prompt st' = best_prompt st
                   /\ best_iteration st' = best_iteration st)).
Proof.
  intros H. pose proof (Best_main env fuel n st H) as HB. split; intros ->.
  - destruct HB as ((_ & Hcons) & Hn & Hl). split.
    + unfold numbered in Hn. now rewrite <- Hl.
    + apply Hcons. intros E. rewrite E in Hl. cbn in Hl.
      apply Shape_main in H. destruct H as (_ & _ & b & choices & _ & Hi). lia.
  - destruct HB as (_ & _ & Hprev). split; [exact Hprev|].
    destruct (beats (avg_score st) (best_score st)) eqn:Hb.
    + eexists. split; [|split; [|split]].
      * rewrite run_S, step_J, Hb. reflexivity.
      * reflexivity.
      * intros _. split; [|now repeat split].
        cbn. unfold visited. rewrite !flat_map_app. cbn.
        now rewrite <- app_assoc.
      * intros Hnot. exfalso. apply Hnot. now apply beats_spec.
    + eexists. split; [|split; [|split]].
      * rewrite run_S, step_J, Hb. reflexivity.
      * reflexivity.
      * intros Hyes. apply beats_spec in Hyes. congruence.
      * intros _. split; [|now repeat split].
        cbn. unfold visited. rewrite !flat_map_app. cbn.
        now rewrite <- app_assoc.
Qed.

(** The end of the second round and the best-score check of the first
    round, in a run of two configured rounds. *)
Lemma best_is_running_maximum_witness :
  (exists st s,
     main (sample_env 2) 21 = Next M_LastIteration st
     /\ map (fun r => fst (fst r)) (history st) = [1; 2]
     /\ best_score st = Some s
     /\ best_iteration st = Some 1
     /\ forall i' p' s', In (i', p', s') (history st) -> (s' <= s)%Q)
  /\ (exists st st',
        main (sample_env 2) 9 = Next J_CheckBestScore st
        /\ run (sample_env 2) 2 J_CheckBestScore st = Next M_LastIteration st'
        /\ best_score st' = Some (avg_score st)
        /\ best_iteration st' = Some (iteration st)).
Proof.
  split.
  - assert (H : main (sample_env 2) 21
                = Next M_LastIteration (final_store (main (sample_env 2) 21)))
      by (vm_compute; reflexivity).
    destruct (best_is_running_maximum (sample_env 2) 21 _ _ H) as [HM _].
    destruct (HM eq_refl) as (Hnum & i & p & s & Hs & _ & _ & _ & Hmax).
    exists (final_store (main (sample_env 2) 21)), s.
    split; [exact H|]. split; [vm_compute; reflexivity|]. split; [exact Hs|].
    split; [vm_compute; reflexivity | exact Hmax].
  - assert (H : main (sample_env 2) 9
                = Next J_CheckBestScore (final_store (main (sample_env 2) 9)))
      by (vm_compute; reflexivity).
    destruct (best_is_running_maximum (sample_env 2) 9 _ _ H) as [_ HJ].
    destruct (HJ eq_refl) as (_ & st' & Hrun & _ & Hyes & _).
    destruct Hyes as (_ & H1 & _ & H2); [left; vm_compute; reflexivity|].
    exists (final_store (main (sample_env 2) 9)), st'.
    exact (conj H (conj Hrun (conj H1 H2))).
Defined.

End FlowchartBest.

(* ===================================================================== *)
(** ** The prompt-optimization flowchart: the data of a round *)
(* ===================================================================== *)

Module FlowchartData.
Import Flowchart FlowchartTerms FlowchartFacts Samples.

Section Data.
Variable env : environment.

Lemma RoundData_step (n : node) (st : store) (n' : node) (st' : store) :
  RoundData env n st -> step env n st = Next n' st' -> RoundData env n' st'.
Proof.
  intros HS Hstep. destruct n;
    try (cbn in Hstep; injection Hstep as <- <-; first [exact I | exact HS]).
  - (* F *) cbn in Hstep. injection Hstep as <- <-. reflexivity.
  - (* G *) apply step_G_next in Hstep as (-> & preds & -> & _ & Hall).
    split; [exact HS | exact Hall].
  - (* H *) apply step_H_next in Hstep as (-> & evals & -> & _ & Hall).
    destruct HS as [Hp Hg]. split; [exact Hp|]. split; [exact Hg|].
    split; [exact Hall | reflexivity].
  - (* J *) rewrite step_J in Hstep.
    destruct (beats _ _); injection Hstep as <- <-; exact HS.
  - (* M *) rewrite step_M in Hstep.
    destruct (last_iteration env st); injection Hstep as <- <-; exact HS.
  - (* N *) rewrite step_N in Hstep. cbv zeta in Hstep.
    destruct (llm env _ _ _); [discriminate|]. injection Hstep as <- <-. exact HS.
  - (* R *) cbn in Hstep. discriminate.
Qed.

Lemma RoundData_main (fuel : nat) (n : node) (st : store) :
  main env fuel = Next n st -> RoundData env n st.
Proof. apply (run_invariant env (RoundData env) RoundData_step). exact I. Qed.

Lemma predicted_paper (zs : str) (l : list paper) (preds : list prediction) :
  Forall2 (predicted env zs) l preds ->
  map pred_paper preds = l /\ map pred_gold preds = map gold_labels l.
Proof.
  induction 1 as [|p y l preds (k & out & _ & ->) _ [IH1 IH2]]; [now split|].
  simpl. now rewrite IH1, IH2.
Qed.

Lemma judged_prediction (l : list prediction) (evals : list evaluation) :
  Forall2 (judged env) l evals -> map eval_prediction evals = l.
Proof.
  induction 1 as [|p y l evals (k & out & _ & ->) _ IH]; [reflexivity|].
  simpl. now rewrite IH.
Qed.

End Data.

(** The average times the number of scores is their sum. *)
Lemma average_spec (l : list Q) :
  (average l * inject_Z (Z.of_nat (List.length l)) == py_sum l)%Q.
Proof.
  unfold average. destruct l as [|x l].
  - reflexivity.
  - rewrite Qmult_comm. apply Qmult_div_r.
    unfold Qeq. simpl. lia.
Qed.



(** C5, as amended.  In every round but the last, that is whenever the test
    for the last round answers No, the round's evaluations, one per paper,
    all go into one metaprompt, which is sent to o3-mini in the round's next
    model call; if that call raises, so does the program; otherwise the text
    read from its answer is the system prompt of the next round, from which
    the next round builds the prompt of its predictions. *)
Theorem critique_feeds_next_round (env : environment) (fuel : nat) (st : store) :
  main env fuel = Next M_LastIteration st ->
  last_iteration env st = false ->
  Forall2 (judged env) (predictions st) (evaluations st)
  /\ List.length (evaluations st) = List.length (validation_json env)
  /\ match llm env O3_mini (calls st)
             [generate_metaprompt env (system_prompt st) (evaluations st)] with
     | inl e => exists st', run env 2 M_LastIteration st = Raised e st'
     | inr out =>
         exists st',
           run env 5 M_LastIteration st = Next G_GeneratePredictions st'
           /\ iteration st' = S (iteration st)
           /\ system_prompt st' = get_improved_prompt env out
           /\ zero_shot_prompt st'
              = construct_zero_shot_prompt env (get_improved_prompt env out)
           /\ calls st' = S (calls st)
     end.
Proof.
  intros H Hlast.
  destruct (RoundData_main env fuel _ st H) as (_ & Hg & Hj & _).
  destruct (Shape_main env fuel _ st H) as (Hv & _).
  split; [exact Hj|]. split.
  { apply Forall2_length in Hj, Hg. congruence. }
  destruct (llm env O3_mini (calls st) _) as [e|out] eqn:L.
  - eexists. rewrite run_S, step_M, Hlast, run_S, step_N. cbv zeta.
    unfold improve_request. cbn [calls record system_prompt evaluations].
    rewrite L. reflexivity.
  - eexists. split.
    + rewrite run_S, step_M, Hlast, run_S, step_N. cbv zeta.
      unfold improve_request. cbn [calls record system_prompt evaluations].
      rewrite L. reflexivity.
    + now repeat split.
Qed.

Lemma critique_feeds_next_round_witness :
  exists st st',
    main (sample_env 2) 11 = Next M_LastIteration st
    /\ List.length (evaluations st) = 2
    /\ run (sample_env 2) 5 M_LastIteration st = Next G_GeneratePredictions st'
    /\ iteration st' = 2
    /\ system_prompt st' = lit "1".
Proof.
  assert (H : main (sample_env 2) 11
              = Next M_LastIteration (final_store (main (sample_env 2) 11)))
    by (vm_compute; reflexivity).
  destruct (critique_feeds_next_round (sample_env 2) 11 _ H) as (_ & H1 & H2).
  - vm_compute. reflexivity.
  - exists (final_store (main (sample_env 2) 11)).
    exists (final_store (run (sample_env 2) 5 M_LastIteration
                            (final_store (main (sample_env 2) 11)))).
    split; [exact H|]. split; [exact H1|].
    split; [|split]; vm_compute; reflexivity.
Defined.

(** C5 as first stated fails: the last round feeds nothing back.  With one
    round configured, the judge is called once per paper and the improve
    box is never executed; the system prompt is never replaced. *)
Lemma last_round_feeds_nothing_back :
  exists st,
    main (sample_env 1) 15 = Halt st
    /\ times G_GeneratePredictions (trace st) = 1
    /\ times N_ImprovePrompt (trace st) = 0
    /\ calls_to O3_mini (trace st) = List.length sample_papers
    /\ system_prompt st = initial_system_prompt (sample_env 1).
Proof.
  exists (final_store (main (sample_env 1) 15)).
  split; [|split; [|split; [|split]]]; vm_compute; reflexivity.
Qed.

End FlowchartData.

(* ===================================================================== *)
(** ** The prompt-optimization flowchart: exceptions *)
(* ===================================================================== *)

Module FlowchartExceptions.
Import Flowchart FlowchartTerms FlowchartFacts Samples.

Section Exceptions.
Variable env : environment.

Lemma Clean_step (n : node) (st : store) (n' : node) (st' : store) :
  Clean env n st -> step env n st = Next n' st' -> Clean env n' st'.
Proof.
  unfold Clean. intros HS Hstep.
  assert (V : forall ev, returned env ev -> Forall (returned env) (trace st ++ [ev])).
  { intros ev Hev. apply Forall_app. split; [exact HS | now constructor]. }
  destruct n.
  7: { apply step_G_next in Hstep as (-> & preds & -> & Hret & _). cbn.
       apply Forall_app. split; [now apply V | exact Hret]. }
  7: { apply step_H_next in Hstep as (-> & evals & -> & Hret & _). cbn.
       apply Forall_app. split; [now apply V | exact Hret]. }
  8: { rewrite step_J in Hstep. injection Hstep as <- <-. now apply V. }
  10: { rewrite step_M in Hstep. injection Hstep as <- <-. now apply V. }
  10: { rewrite step_N in Hstep. cbv zeta in Hstep.
        destruct (llm env O3_mini (calls st) (improve_request env st)) as [e|out] eqn:L;
          [discriminate|]. injection Hstep as <- <-. cbn.
        apply Forall_app. split; [now apply V|].
        constructor; [now exists out | constructor]. }
  13: { cbn in Hstep. discriminate. }
  all: cbn in Hstep; injection Hstep as <- <-; cbn.
  all: try (now apply V).
  all: apply Forall_app; split; [now apply V | now repeat constructor].
Qed.

Lemma Clean_main (fuel : nat) (n : node) (st : store) :
  main env fuel = Next n st -> Forall (returned env) (trace st).
Proof. apply (run_invariant env (Clean env) Clean_step). constructor. Qed.

(** A step that raises stops at a model call: the calls before it have
    returned, the exception is the one this call raised, and the call is
    the last event of the trace. *)
Lemma step_raised (n : node) (st : store) (e : exn) (st' : store) :
  step env n st = Raised e st' ->
  exists evs m k messages,
    trace st' = (trace st ++ Visit n :: evs) ++ [ModelCall m k messages]
    /\ Forall (returned env) evs
    /\ llm env m k messages = inl e
    /\ In n [G_GeneratePredictions; H_EvaluatePredictions; N_ImprovePrompt].
Proof.
  intros H. destruct n; try (cbn in H; discriminate).
  - apply step_G_raised in H as (l1 & p & l2 & _ & -> & Hret & Hfail).
    exists (call_events GPT_4o_mini (gen_request env st) (calls st) l1),
      GPT_4o_mini, (List.length l1 + calls st), (gen_request env st p).
    split; [|split; [exact Hret|split; [exact Hfail|simpl; tauto]]].
    cbn. rewrite call_events_app. cbn. now rewrite <- !app_assoc.
  - apply step_H_raised in H as (l1 & p & l2 & _ & -> & Hret & Hfail).
    exists (call_events O3_mini (judge_request env st) (calls st) l1),
      O3_mini, (List.length l1 + calls st), (judge_request env st p).
    split; [|split; [exact Hret|split; [exact Hfail|simpl; tauto]]].
    cbn. rewrite call_events_app. cbn. now rewrite <- !app_assoc.
  - rewrite step_J in H. discriminate.
  - rewrite step_M in H. discriminate.
  - rewrite step_N in H. cbv zeta in H.
    destruct (llm env O3_mini (calls st) (improve_request env st)) as [e1|out] eqn:L;
      [|discriminate]. injection H as <- <-.
    exists [], O3_mini, (calls st), (improve_request env st).
    split; [|split; [constructor|split; [exact L|simpl; tauto]]].
    cbn. now rewrite <- !app_assoc.
Qed.

Lemma last_event (X : Type) (l1 before after : list X) (x y : X) :
  l1 ++ [x] = before ++ y :: after ->
  (after = [] /\ x = y /\ l1 = before) \/ In y l1.
Proof.
  revert before; induction l1 as [|z l1 IH]; intros before H.
  - destruct before as [|b before].
    + injection H as -> <-. now left.
    + injection H as _ H. now destruct before.
  - destruct before as [|b before].
    + injection H as <- _. right. now left.
    + injection H as <- H. destruct (IH _ H) as [(-> & -> & ->)|Hin].
      * now left.
      * right. now right.
Qed.

Lemma visited_app (tr1 tr2 : list event) : visited (tr1 ++ tr2) = visited tr1 ++ visited tr2.
Proof. apply flat_map_app. Qed.

Lemma visited_call_events {X : Type} (m : model) (request : X -> list str) (k : nat) (l : list X) :
  visited (call_events m request k l) = [].
Proof. revert k; induction l; intros k; simpl; [reflexivity | apply IHl]. Qed.

(** Whatever its outcome, a step adds its box, and no other box, to the
    boxes visited. *)
Lemma step_visited (n : node) (st : store) :
  visited (trace (final_store (step env n st))) = visited (trace st) ++ [n].
Proof.
  destruct n.
  7: { rewrite step_G.
       pose proof (for_each_one_call env GPT_4o_mini (gen_request env) (gen_answer env)
                     (fun _ _ => eq_refl) (validation_data st)
                     (record (Visit G_GeneratePredictions) st)) as F.
       destruct (for_each _ _ _) as [[e|preds] st1].
       - destruct F as (l1 & p & l2 & _ & -> & _). cbn.
         now rewrite !visited_app, visited_call_events, app_nil_r.
       - destruct F as (-> & _). cbn.
         now rewrite !visited_app, visited_call_events, app_nil_r. }
  7: { rewrite step_H.
       pose proof (for_each_one_call env O3_mini (judge_request env) (judge_answer env)
                     (fun _ _ => eq_refl) (predictions st)
                     (record (Visit H_EvaluatePredictions) st)) as F.
       destruct (for_each _ _ _) as [[e|evals] st1].
       - destruct F as (l1 & p & l2 & _ & -> & _). cbn.
         now rewrite !visited_app, visited_call_events, app_nil_r.
       - destruct F as (-> & _). cbn.
         now rewrite !visited_app, visited_call_events, app_nil_r. }
  8: { rewrite step_J. cbn. now rewrite visited_app. }
  10: { rewrite step_M. cbn. now rewrite visited_app. }
  10: { rewrite step_N. cbv zeta.
        destruct (llm env O3_mini (calls st) (improve_request env st)); cbn;
          now rewrite !visited_app, app_nil_r. }
  all: cbn; now rewrite ?visited_app, ?app_nil_r.
Qed.

Lemma NotSaved_step (n : node) (st : store) (n' : node) (st' : store) :
  NotSaved n st -> step env n st = Next n' st' -> NotSaved n' st'.
Proof.
  intros [->|HS] Hstep; [cbn in Hstep; discriminate|].
  destruct (node_eq_dec n Q_SaveFinalResults) as [->|Hn].
  - cbn in Hstep. injection Hstep as <- <-. now left.
  - right. pose proof (step_visited n st) as V. rewrite Hstep in V. cbn in V.
    rewrite V. intros Hin. apply in_app_or in Hin as [Hin|[Hin|[]]]; [now apply HS|].
    now apply Hn.
Qed.

Lemma NotSaved_main (fuel : nat) (n : node) (st : store) :
  main env fuel = Next n st -> NotSaved n st.
Proof.
  apply (run_invariant env NotSaved NotSaved_step). right. intros H. destruct H.
Qed.

End Exceptions.

(** C7.  Whenever a model call that the program made, be it a request for
    a prediction, for a judgement or for a better prompt, raised an
    exception, that call is the last thing the program did: nothing is
    logged after it, neither a retry nor a later step of the round or of a
    later round; the program has ended with exactly this exception, without
    reaching the final save, and running it longer changes nothing. *)
Theorem exception_propagates
    (env : environment) (fuel : nat) (o : outcome)
    (m : model) (k : nat) (messages : list str) (e : exn) (before after : list event) :
  main env fuel = o ->
  trace (final_store o) = before ++ ModelCall m k messages :: after ->
  llm env m k messages = inl e ->
  after = []
  /\ o = Raised e (final_store o)
  /\ (forall fuel', fuel <= fuel' -> main env fuel' = o)
  /\ ~ In Q_SaveFinalResults (visited (trace (final_store o))).
Proof.
  intros Hrun Htrace Hfail.
  assert (Hnot : forall tr, Forall (returned env) tr -> ~ In (ModelCall m k messages) tr).
  { intros tr Hall Hin. rewrite Forall_forall in Hall.
    destruct (Hall _ Hin) as [out Hout]. congruence. }
  destruct o as [n st|e' st|st]; cbn [final_store] in *.
  - exfalso. apply (Hnot (trace st)); [exact (Clean_main env fuel n st Hrun)|].
    rewrite Htrace. apply in_or_app. right. now left.
  - destruct (run_ended env _ _ _ _ Hrun) as (k0 & n1 & st1 & _ & Hr & Hs); [discriminate|].
    pose proof (Clean_main env k0 n1 st1 Hr) as Hclean.
    pose proof (NotSaved_main env k0 n1 st1 Hr) as Hsaved.
    destruct (step_raised env _ _ _ _ Hs) as (evs & m' & k' & msgs' & Ht & Hret & Hf & Hn).
    assert (Hpre : Forall (returned env) (trace st1 ++ Visit n1 :: evs)).
    { apply Forall_app. split; [exact Hclean|]. constructor; [exact I | exact Hret]. }
    pose proof (step_visited env n1 st1) as V. rewrite Hs in V. cbn in V.
    rewrite Ht in Htrace. apply last_event in Htrace as [(-> & E & _)|Hin];
      [|now destruct (Hnot _ Hpre)].
    injection E as -> -> ->.
    assert (e' = e) by congruence. subst e'.
    split; [reflexivity|]. split; [reflexivity|]. split.
    + intros fuel' Hle. unfold main in *.
      apply (run_ended_stable env fuel fuel' _ _ _ Hrun); [discriminate|exact Hle].
    + rewrite V. intros Hin. apply in_app_or in Hin as [Hin|[Hin|[]]].
      * destruct Hsaved as [->|Hsaved]; [|now apply Hsaved].
        simpl in Hn. destruct Hn as [Hn|[Hn|[Hn|[]]]]; discriminate.
      * subst n1. simpl in Hn. destruct Hn as [Hn|[Hn|[Hn|[]]]]; discriminate.
  - exfalso.
    destruct (run_ended env _ _ _ _ Hrun) as (k0 & n1 & st1 & _ & Hr & Hs); [discriminate|].
    apply step_halt in Hs as [-> ->].
    apply (Hnot (trace st1 ++ [Visit R_End])).
    + apply Forall_app. split; [exact (Clean_main env k0 _ st1 Hr)|now repeat constructor].
    + cbn in Htrace. rewrite Htrace. apply in_or_app. right. now left.
Qed.

(** A prediction request, a judge request and an improve request that
    raise, each in a run of two configured rounds over two papers. *)
Lemma exception_propagates_witness :
  (exists st, main (failing_env 2 1) 40 = Raised "RateLimitError"%string st
              /\ visited (trace st)
                 = [A_Start; B_LoadValidationData; C_InitSystemPrompt; D_InitTracking;
                    E_EnterLoop; F_ConstructPrompt; G_GeneratePredictions]
              /\ calls st = 2)
  /\ (exists st, main (failing_env 2 3) 40 = Raised "RateLimitError"%string st
                 /\ calls st = 4 /\ storage st = [])
  /\ (exists st, main (failing_env 2 4) 40 = Raised "RateLimitError"%string st
                 /\ calls st = 5 /\ iteration st = 1).
Proof.
  assert (W : forall bad st before m msgs,
             final_store (main (failing_env 2 bad) 40) = st ->
             trace st = before ++ [ModelCall m bad msgs] ->
             main (failing_env 2 bad) 40 = Raised "RateLimitError"%string st).
  { intros bad st before m msgs <- Ht.
    destruct (exception_propagates (failing_env 2 bad) 40 _ m bad msgs
                "RateLimitError"%string before [] eq_refl Ht) as (_ & H & _).
    - cbn. unfold failing_llm. now rewrite Nat.eqb_refl.
    - exact H. }
  split; [|split].
  - exists (final_store (main (failing_env 2 1) 40)).
    split; [|split; vm_compute; reflexivity].
    eapply (W 1 _ (removelast (trace (final_store (main (failing_env 2 1) 40)))));
      [reflexivity | vm_compute; reflexivity].
  - exists (final_store (main (failing_env 2 3) 40)).
    split; [|split; vm_compute; reflexivity].
    eapply (W 3 _ (removelast (trace (final_store (main (failing_env 2 3) 40)))));
      [reflexivity | vm_compute; reflexivity].
  - exists (final_store (main (failing_env 2 4) 40)).
    split; [|split; vm_compute; reflexivity].
    eapply (W 4 _ (removelast (trace (final_store (main (failing_env 2 4) 40)))));
      [reflexivity | vm_compute; reflexivity].
Defined.

End FlowchartExceptions.

(* ===================================================================== *)
(** ** json: what is dumped is read back *)
(* ===================================================================== *)

Module JsonFacts.
Import Python JsonTerms.

Local Open Scope N_scope.

Lemma land_shiftl_small (q r : N) : r < 2 ^ 10 -> N.land (N.shiftl q 10) r = 0.
Proof.
  intros H. apply N.bits_inj_0. intros i. rewrite N.land_spec.
  destruct (N.lt_ge_cases i 10) as [Hi|Hi].
  - now rewrite N.shiftl_spec_low.
  - rewrite (N.bits_above_log2 r i), Bool.andb_false_r; [reflexivity|].
    destruct (N.eq_dec r 0) as [->|Hr]; [simpl; lia|].
    apply N.lt_le_trans with 10; [|exact Hi].
    apply N.log2_lt_pow2; lia.
Qed.

Lemma lor_shiftl_small (q r : N) : r < 2 ^ 10 -> N.lor (N.shiftl q 10) r = q * 1024 + r.
Proof.
  intros H. rewrite <- N.lxor_lor, <- N.add_nocarry_lxor by now apply land_shiftl_small.
  now rewrite N.shiftl_mul_pow2.
Qed.

Lemma hex_value_digit (d : N) : d < 16 -> hex_value (hex_digit d) = Some d.
Proof.
  intros H. unfold hex_digit, hex_value.
  destruct (N.ltb_spec d 10) as [Hd|Hd].
  - replace ((48 <=? 48 + d) && (48 + d <=? 57))%N with true.
    + f_equal. lia.
    + symmetry. apply andb_true_iff. split; apply N.leb_le; lia.
  - replace ((48 <=? 87 + d) && (87 + d <=? 57))%N with false.
    + replace ((97 <=? 87 + d) && (87 + d <=? 102))%N with true.
      * f_equal. lia.
      * symmetry. apply andb_true_iff. split; apply N.leb_le; lia.
    + symmetry. apply andb_false_iff. right. apply N.leb_gt. lia.
Qed.

Lemma parse_hex4_hex4 (n : N) (rest : str) :
  n < 65536 -> parse_hex4 (hex4 n ++ rest) = Some (n, rest).
Proof.
  intros H. unfold hex4, parse_hex4. cbn [app].
  assert (M : forall x, x mod 16 < 16) by (intros x; apply N.mod_lt; discriminate).
  rewrite !hex_value_digit by apply M.
  do 2 f_equal. clear M. zify. Z.to_euclidean_division_equations. lia.
Qed.

Lemma high_surrogate_value (c : char) :
  65536 <= c -> c < 1114112 -> high_surrogate c = 55296 + (c - 65536) / 1024.
Proof.
  intros H1 H2. unfold high_surrogate.
  change 1023 with (N.ones 10). rewrite N.land_ones, N.shiftr_div_pow2.
  change 55296 with (N.shiftl 54 10) at 1.
  rewrite lor_shiftl_small by (apply N.mod_lt; discriminate).
  change (2 ^ 10) with 1024. rewrite N.mod_small; [reflexivity|].
  zify. Z.to_euclidean_division_equations. lia.
Qed.

Lemma low_surrogate_value (c : char) :
  low_surrogate c = 56320 + (c - 65536) mod 1024.
Proof.
  unfold low_surrogate.
  change 1023 with (N.ones 10). rewrite N.land_ones.
  change 56320 with (N.shiftl 55 10) at 1.
  rewrite lor_shiftl_small by (apply N.mod_lt; discriminate). reflexivity.
Qed.

Lemma surrogates_combine (c : char) :
  65536 <= c -> c < 1114112 ->
  65536 + N.lor (N.shiftl (high_surrogate c - 55296) 10) (low_surrogate c - 56320) = c.
Proof.
  intros H1 H2. rewrite high_surrogate_value, low_surrogate_value by assumption.
  rewrite (N.add_comm 55296), N.add_sub, (N.add_comm 56320), N.add_sub.
  rewrite lor_shiftl_small by (apply N.mod_lt; discriminate).
  zify. Z.to_euclidean_division_equations. lia.
Qed.

Local Close Scope N_scope.

Lemma scan_plain (fuel : nat) (c : char) (s : str) :
  (c =? 34)%N = false -> (c =? 92)%N = false -> (c <? 32)%N = false ->
  scanstring (S fuel) (c :: s) = read_more c (scanstring fuel s).
Proof.
  intros E1 E2 E3. cbn [scanstring]. rewrite E1, E2, E3. unfold read_more.
  now destruct (scanstring fuel s) as [[t r]|].
Qed.

Lemma scan_simple (fuel : nat) (e x : char) (s : str) :
  In (e, x) [(34, 34); (92, 92); (98, 8); (102, 12); (110, 10); (114, 13); (116, 9)]%N ->
  scanstring (S fuel) (backslash :: e :: s) = read_more x (scanstring fuel s).
Proof.
  intros H. simpl in H.
  repeat (destruct H as [H|H];
          [injection H as <- <-; unfold read_more; cbn;
           now destruct (scanstring fuel s) as [[t r]|] |]).
  destruct H.
Qed.

Lemma scan_u_bmp (fuel : nat) (hi : N) (s : str) :
  (hi < 65536)%N ->
  ((55296 <=? hi) && (hi <=? 56319))%N = false ->
  scanstring (S fuel) (u_escape hi ++ s) = read_more hi (scanstring fuel s).
Proof.
  intros H1 H2. unfold u_escape. cbn [app scanstring].
  change (backslash =? 34)%N with false. change (backslash =? 92)%N with true.
  change (117 =? 117)%N with true. cbv iota.
  rewrite parse_hex4_hex4 by exact H1. rewrite H2. cbn [andb].
  unfold read_more. destruct s as [|b [|u rest']]; reflexivity.
Qed.

Lemma scan_u_pair (fuel : nat) (c : char) (s : str) :
  (65536 <= c)%N -> (c < 1114112)%N ->
  scanstring (S fuel) (u_escape (high_surrogate c) ++ u_escape (low_surrogate c) ++ s)
  = read_more c (scanstring fuel s).
Proof.
  intros H1 H2.
  pose proof (high_surrogate_value c H1 H2) as Hh.
  pose proof (low_surrogate_value c) as Hl.
  assert (Hq : ((c - 65536) / 1024 < 1024)%N)
    by (zify; Z.to_euclidean_division_equations; lia).
  assert (Hr : ((c - 65536) mod 1024 < 1024)%N) by (apply N.mod_lt; discriminate).
  assert (Bh : (55296 <= high_surrogate c /\ high_surrogate c <= 56319)%N).
  { rewrite Hh. generalize dependent ((c - 65536) / 1024)%N. intros q _ Hq. lia. }
  assert (Bl : (56320 <= low_surrogate c /\ low_surrogate c <= 57343)%N).
  { rewrite Hl. generalize dependent ((c - 65536) mod 1024)%N. intros r _ Hr. lia. }
  clear Hh Hl Hq Hr. destruct Bh as [Bh1 Bh2]. destruct Bl as [Bl1 Bl2].
  unfold u_escape at 1. cbn [app scanstring].
  change (backslash =? 34)%N with false. change (backslash =? 92)%N with true.
  change (117 =? 117)%N with true. cbv iota.
  rewrite parse_hex4_hex4 by lia.
  unfold u_escape. cbn [app].
  replace ((55296 <=? high_surrogate c) && (high_surrogate c <=? 56319))%N with true
    by (symmetry; apply andb_true_iff; split; apply N.leb_le; lia).
  change (backslash =? 92)%N with true. change (117 =? 117)%N with true. cbn [andb].
  rewrite parse_hex4_hex4 by lia.
  replace ((56320 <=? low_surrogate c) && (low_surrogate c <=? 57343))%N with true
    by (symmetry; apply andb_true_iff; split; apply N.leb_le; lia).
  rewrite surrogates_combine by assumption.
  reflexivity.
Qed.

(** Reading back the escape of one character. *)
Lemma scan_escape_char (fuel : nat) (c : char) (s : str) :
  is_scalar c = true ->
  scanstring (S fuel) (escape_char c ++ s) = read_more c (scanstring fuel s).
Proof.
  intros Hc. unfold is_scalar in Hc.
  apply andb_true_iff in Hc as [Hs Hmax]. apply N.ltb_lt in Hmax.
  unfold escape_char.
  destruct (N.eqb_spec c 92) as [->|N92];
    [apply (scan_simple fuel 92%N 92%N); simpl; tauto|].
  destruct (N.eqb_spec c 34) as [->|N34];
    [apply (scan_simple fuel 34%N 34%N); simpl; tauto|].
  destruct (N.eqb_spec c 8) as [->|N8];
    [apply (scan_simple fuel 98%N 8%N); simpl; tauto|].
  destruct (N.eqb_spec c 12) as [->|N12];
    [apply (scan_simple fuel 102%N 12%N); simpl; tauto|].
  destruct (N.eqb_spec c 10) as [->|N10];
    [apply (scan_simple fuel 110%N 10%N); simpl; tauto|].
  destruct (N.eqb_spec c 13) as [->|N13];
    [apply (scan_simple fuel 114%N 13%N); simpl; tauto|].
  destruct (N.eqb_spec c 9) as [->|N9];
    [apply (scan_simple fuel 116%N 9%N); simpl; tauto|].
  destruct ((32 <=? c) && (c <=? 126))%N eqn:P.
  - apply andb_true_iff in P as [P1 P2]. apply N.leb_le in P1.
    apply scan_plain; [now apply N.eqb_neq | now apply N.eqb_neq | now apply N.ltb_ge].
  - destruct (N.ltb_spec c 65536) as [B|B].
    + apply scan_u_bmp; [exact B|].
      apply orb_true_iff in Hs as [Hs|Hs].
      * apply N.ltb_lt in Hs. apply andb_false_iff. left. apply N.leb_gt. exact Hs.
      * apply N.leb_le in Hs. apply andb_false_iff. right. apply N.leb_gt. lia.
    + rewrite <- app_assoc. now apply scan_u_pair.
Qed.

(** Reading back an encoded string, up to its closing quote. *)
Lemma scanstring_encoded (s : str) :
  forall (fuel : nat) (rest : str),
    well_formed s ->
    List.length s < fuel ->
    scanstring fuel (flat_map escape_char s ++ quote :: rest) = Some (s, rest).
Proof.
  unfold well_formed. induction s as [|c s IH]; intros fuel rest Hw Hf.
  - destruct fuel as [|fuel]; [simpl in Hf; lia|]. reflexivity.
  - destruct fuel as [|fuel]; [simpl in Hf; lia|].
    simpl in Hw. apply andb_true_iff in Hw as [Hc Hw].
    cbn [flat_map]. rewrite <- app_assoc.
    rewrite scan_escape_char by exact Hc.
    rewrite IH; [reflexivity | exact Hw | simpl in Hf; lia].
Qed.

Lemma escape_char_not_empty (c : char) : 1 <= List.length (escape_char c).
Proof.
  unfold escape_char, u_escape.
  repeat match goal with
         | |- context [if ?b then _ else _] => destruct b
         end; try rewrite length_app; simpl; lia.
Qed.

Lemma escaped_length (s : str) : List.length s <= List.length (flat_map escape_char s).
Proof.
  induction s as [|c s IH]; [reflexivity|].
  cbn [flat_map]. rewrite length_app. pose proof (escape_char_not_empty c). simpl. lia.
Qed.

(** Reading back an encoded string as a JSON value. *)
Lemma parse_value_string (s rest : str) (fuel : nat) :
  well_formed s ->
  parse_value (S fuel) (encode_basestring_ascii s ++ rest) = Some (PStr s, rest).
Proof.
  intros Hw. unfold encode_basestring_ascii, quoted.
  cbn [app parse_value]. unfold quote at 1.
  rewrite <- app_assoc. cbn [app].
  rewrite scanstring_encoded; [reflexivity | exact Hw |].
  rewrite length_app. pose proof (escaped_length s). simpl. lia.
Qed.

Lemma skip_ws_quoted (s rest : str) :
  skip_ws (encode_basestring_ascii s ++ rest) = encode_basestring_ascii s ++ rest.
Proof. reflexivity. Qed.

Lemma skip_ws_space_quoted (s rest : str) :
  skip_ws (32%N :: encode_basestring_ascii s ++ rest) = encode_basestring_ascii s ++ rest.
Proof. reflexivity. Qed.

Lemma parse_members_S (fuel : nat) (r : str) (acc : list (str * pyval)) :
  parse_members (S fuel) (34%N :: r) acc =
    match scanstring (List.length r) r with
    | None => None
    | Some (k, r1) =>
        match skip_ws r1 with
        | 58%N :: r2 =>
            match parse_value fuel (skip_ws r2) with
            | None => None
            | Some (v, r3) =>
                match skip_ws r3 with
                | 125%N :: r4 => Some (dict_set acc k v, r4)
                | 44%N :: r4 => parse_members fuel (skip_ws r4) (dict_set acc k v)
                | _ => None
                end
            end
        | _ => None
        end
    end.
Proof. reflexivity. Qed.

(** Reading back one member, up to what follows its value. *)
Lemma parse_member (k v tail : str) (acc : list (str * pyval)) (fuel : nat) :
  well_formed k -> well_formed v ->
  parse_members (S (S fuel)) (member (k, PStr v) ++ tail) acc =
    match skip_ws tail with
    | 125%N :: r4 => Some (dict_set acc k (PStr v), r4)
    | 44%N :: r4 => parse_members (S fuel) (skip_ws r4) (dict_set acc k (PStr v))
    | _ => None
    end.
Proof.
  intros Hk Hv. cbn [member dumps].
  unfold encode_basestring_ascii at 1, quoted at 1.
  rewrite <- !app_assoc. cbn [app]. unfold quote at 1.
  rewrite parse_members_S.
  rewrite <- app_assoc. cbn [app].
  rewrite scanstring_encoded;
    [| exact Hk | rewrite length_app; pose proof (escaped_length k); simpl; lia].
  change (lit ": ") with [58%N; 32%N]. cbn [app].
  change (skip_ws (58%N :: 32%N :: encode_basestring_ascii v ++ tail))
    with (58%N :: 32%N :: encode_basestring_ascii v ++ tail).
  cbv iota. rewrite skip_ws_space_quoted.
  rewrite parse_value_string by exact Hv. reflexivity.
Qed.

(** Reading back the members of a dumped dictionary of strings. *)
Lemma parse_members_dumped (d : list (str * str)) :
  forall (kv : str * str) (acc : list (str * pyval)) (rest : str) (fuel : nat),
    items_well_formed (kv :: d) ->
    List.length (kv :: d) < fuel ->
    parse_members fuel
      (join (lit ", ") (map member (string_items (kv :: d))) ++ lit "}" ++ rest) acc
    = Some (fold_left (fun a x => dict_set a (fst x) (snd x)) (string_items (kv :: d)) acc,
            rest).
Proof.
  induction d as [|kv2 d IH]; intros [k v] acc rest fuel Hw Hf.
  - destruct fuel as [|[|fuel]]; [simpl in Hf; lia..|].
    apply Forall_inv in Hw. destruct Hw as [Hk Hv]. cbn [fst snd] in *.
    change (join (lit ", ") (map member (string_items [(k, v)])))
      with (member (k, PStr v)).
    rewrite parse_member by assumption. reflexivity.
  - destruct fuel as [|[|fuel]]; [simpl in Hf; lia..|].
    pose proof (Forall_inv Hw) as [Hk Hv]. apply Forall_inv_tail in Hw.
    cbn [fst snd] in Hk, Hv.
    change (string_items ((k, v) :: kv2 :: d))
      with ((k, PStr v) :: string_items (kv2 :: d)).
    change (map member ((k, PStr v) :: string_items (kv2 :: d)))
      with (member (k, PStr v) :: map member (string_items (kv2 :: d))).
    change (join (lit ", ") (member (k, PStr v) :: map member (string_items (kv2 :: d))))
      with (member (k, PStr v) ++ lit ", "
              ++ join (lit ", ") (map member (string_items (kv2 :: d)))).
    rewrite <- !app_assoc.
    rewrite parse_member by assumption.
    change (lit ", ") with [44%N; 32%N]. cbn [app].
    change (skip_ws (44%N :: ?x)) with (44%N :: x). cbv iota.
    destruct kv2 as [k2 v2].
    assert (Hskip : forall tail,
               skip_ws (32%N :: join [44%N; 32%N]
                                  (map member (string_items ((k2, v2) :: d))) ++ tail)
               = join [44%N; 32%N] (map member (string_items ((k2, v2) :: d))) ++ tail).
    { intros tail. destruct d; reflexivity. }
    rewrite Hskip.
    cbn [fold_left fst snd].
    apply (IH (k2, v2)); [exact Hw | simpl in Hf |- *; lia].
Qed.

Lemma parse_value_object (fuel : nat) (r : str) :
  parse_value (S fuel) (123%N :: 34%N :: r) =
    match parse_members fuel (34%N :: r) [] with
    | Some (d, r'') => Some (PDict d, r'')
    | None => None
    end.
Proof. reflexivity. Qed.

Lemma members_length (kv : str * str) (d : list (str * str)) :
  List.length (kv :: d)
  <= List.length (join (lit ", ") (map member (string_items (kv :: d)))).
Proof.
  revert kv. induction d as [|kv2 d IH]; intros [k v].
  - simpl. rewrite length_app. simpl. lia.
  - specialize (IH kv2).
    change (string_items ((k, v) :: kv2 :: d))
      with ((k, PStr v) :: string_items (kv2 :: d)).
    change (map member ((k, PStr v) :: string_items (kv2 :: d)))
      with (member (k, PStr v) :: map member (string_items (kv2 :: d))).
    change (join (lit ", ") (member (k, PStr v) :: map member (string_items (kv2 :: d))))
      with (member (k, PStr v) ++ lit ", "
              ++ join (lit ", ") (map member (string_items (kv2 :: d)))).
    rewrite !length_app. simpl in IH |- *. lia.
Qed.

(** [json.loads(json.dumps(d))] is [d], for a dictionary of strings that
    is not empty. *)
Lemma loads_dumps_strings (kv : str * str) (d : list (str * str)) :
  items_well_formed (kv :: d) ->
  loads (dumps (PDict (string_items (kv :: d))))
  = inr (PDict (dict_display (string_items (kv :: d)))).
Proof.
  intros Hw. unfold loads.
  change (dumps (PDict (string_items (kv :: d))))
    with (123%N :: (join (lit ", ") (map member (string_items (kv :: d))) ++ lit "}" ++ [])).
  pose proof (members_length kv d) as Hlen.
  pose proof (parse_members_dumped d kv [] []) as P.
  remember (join (lit ", ") (map member (string_items (kv :: d)))) as j eqn:Hj.
  assert (Hstart : exists r, j ++ lit "}" ++ [] = 34%N :: r).
  { subst j. destruct kv as [k v]. destruct d; eexists; reflexivity. }
  destruct Hstart as [r Hr].
  change (skip_ws (123%N :: ?x)) with (123%N :: x).
  specialize (P (List.length (123%N :: j ++ lit "}" ++ [])) Hw).
  rewrite Hr in *. rewrite parse_value_object.
  match goal with
  | |- context [parse_members ?f ?x ?a] =>
      replace (parse_members f x a)
        with (Some (fold_left (fun a0 x0 => dict_set a0 (fst x0) (snd x0))
                      (string_items (kv :: d)) [], @nil char));
      [reflexivity|]
  end.
  symmetry. apply P.
  rewrite <- Hr. cbn [List.length]. rewrite length_app. simpl in Hlen |- *. lia.
Qed.

End JsonFacts.

(* ===================================================================== *)
(** ** The function-calling notebook: the weather tool and its feedback *)
(* ===================================================================== *)

Module FunctionCallingFacts.
Import Python JsonTerms JsonFacts FunctionCalling FunctionCallingTerms.

Lemma weather_dumped (location unit : pyval) :
  get_current_weather location (Some unit) = dumps (PDict (weather_of location unit)).
Proof. reflexivity. Qed.

Lemma weather_default_unit (location : pyval) :
  get_current_weather location None
  = get_current_weather location (Some (PStr (lit "fahrenheit"))).
Proof. reflexivity. Qed.

(** The text the tool returns for two strings, read back. *)
Lemma weather_read_back (location unit : str) :
  well_formed location -> well_formed unit ->
  loads (get_current_weather (PStr location) (Some (PStr unit)))
  = inr (PDict (weather_of (PStr location) (PStr unit))).
Proof.
  intros Hl Hu. rewrite weather_dumped.
  change (weather_of (PStr location) (PStr unit))
    with (string_items [ (lit "location", location);
                         (lit "temperature", lit "50");
                         (lit "unit", unit) ]).
  rewrite loads_dumps_strings; [reflexivity|].
  repeat constructor; assumption.
Qed.

(** C8.  The weather tool is a total function of its arguments.  For every
    location string and every unit string it returns the JSON text of an
    object with exactly the keys "location", "temperature" and "unit", in
    this order, whose "location" is the given location, whose "temperature"
    is the string "50" and whose "unit" is the given unit; without a unit,
    the unit is "fahrenheit".  The text is spelled out below; read back by
    json.loads it gives that object again, for strings of Unicode scalar
    values. *)
Theorem get_current_weather_total (location unit : str) :
  let weather := weather_of (PStr location) (PStr unit) in
  get_current_weather (PStr location) (Some (PStr unit)) = dumps (PDict weather)
  /\ get_current_weather (PStr location) (Some (PStr unit))
     = lit "{" ++ quoted (lit "location") ++ lit ": " ++ encode_basestring_ascii location
         ++ lit ", " ++ quoted (lit "temperature") ++ lit ": " ++ quoted (lit "50")
         ++ lit ", " ++ quoted (lit "unit") ++ lit ": " ++ encode_basestring_ascii unit
         ++ lit "}"
  /\ keys weather = [lit "location"; lit "temperature"; lit "unit"]
  /\ dict_get weather (lit "location") = Some (PStr location)
  /\ dict_get weather (lit "temperature") = Some (PStr (lit "50"))
  /\ dict_get weather (lit "unit") = Some (PStr unit)
  /\ get_current_weather (PStr location) None
     = get_current_weather (PStr location) (Some (PStr (lit "fahrenheit")))
  /\ (well_formed location -> well_formed unit ->
      loads (get_current_weather (PStr location) (Some (PStr unit))) = inr (PDict weather)).
Proof.
  cbv zeta. split; [reflexivity|]. split.
  { rewrite weather_dumped. unfold weather_of.
    cbn [dumps map join]. rewrite <- !app_assoc. reflexivity. }
  split; [reflexivity|]. split; [reflexivity|]. split; [reflexivity|].
  split; [reflexivity|]. split; [reflexivity|].
  apply weather_read_back.
Qed.

Lemma get_current_weather_total_witness :
  loads (get_current_weather (PStr (lit "Boston, MA")) (Some (PStr (lit "celsius"))))
  = inr (PDict (weather_of (PStr (lit "Boston, MA")) (PStr (lit "celsius")))).
Proof.
  destruct (get_current_weather_total (lit "Boston, MA") (lit "celsius"))
    as (_ & _ & _ & _ & _ & _ & _ & H).
  apply H; reflexivity.
Defined.

(** *** Dictionaries under assignment and deletion *)

Lemma subscript_inv (v : pyval) (k : str) (x : pyval) :
  subscript v k = inr x -> exists d, v = PDict d /\ dict_get d k = Some x.
Proof.
  destruct v as [| b | s | l | d]; try discriminate. simpl.
  destruct (dict_get d k) as [y|] eqn:E; [|discriminate].
  intros H. injection H as <-. now exists d.
Qed.

Lemma dict_get_set_other (d : list (str * pyval)) (k k' : str) (v : pyval) :
  k <> k' -> dict_get (dict_set d k v) k' = dict_get d k'.
Proof.
  intros Hk. induction d as [|[k0 v0] d IH]; simpl.
  - destruct (str_eq_dec k k'); [contradiction | reflexivity].
  - destruct (str_eq_dec k0 k) as [->|Hk0]; simpl.
    + destruct (str_eq_dec k k'); [contradiction | reflexivity].
    + destruct (str_eq_dec k0 k'); [reflexivity | exact IH].
Qed.

Lemma dict_get_delete_other (d : list (str * pyval)) (k k' : str) :
  k <> k' ->
  dict_get (filter (fun kv => negb (str_eqb (fst kv) k)) d) k' = dict_get d k'.
Proof.
  intros Hk. induction d as [|[k0 v0] d IH]; simpl; [reflexivity|].
  unfold str_eqb at 1. destruct (str_eq_dec k0 k) as [->|Hk0]; simpl.
  - destruct (str_eq_dec k k'); [contradiction | exact IH].
  - destruct (str_eq_dec k0 k'); [reflexivity | exact IH].
Qed.

(** Cell 29 leaves every entry of the answer in place but "content" and
    "function_call". *)
Lemma prepare_keeps (py_str : pyval -> str) (reply tool_calls call function fc : pyval) :
  subscript reply (lit "tool_calls") = inr tool_calls ->
  item tool_calls 0 = inr call ->
  subscript call (lit "function") = inr function ->
  subscript reply (lit "function_call") = inr fc ->
  exists d,
    prepare_assistant_message py_str reply = inr (PDict d)
    /\ dict_get d (lit "content") = Some (PStr (py_str function))
    /\ dict_get d (lit "function_call") = None
    /\ forall k, k <> lit "content" -> k <> lit "function_call" ->
                 subscript (PDict d) k = subscript reply k.
Proof.
  intros Ht Hc Hf Hfc. unfold prepare_assistant_message.
  rewrite Ht. cbn [and_then]. rewrite Hc. cbn [and_then]. rewrite Hf. cbn [and_then].
  apply subscript_inv in Hfc as (d & -> & Hd).
  cbn [assign and_then delete].
  rewrite dict_get_set_other by discriminate. rewrite Hd.
  eexists. split; [reflexivity|]. split; [|split].
  - rewrite dict_get_delete_other by discriminate.
    clear. induction d as [|[k0 v0] d IH]; simpl.
    + reflexivity.
    + destruct (str_eq_dec k0 (lit "content")) as [->|Hk0]; simpl; [reflexivity|].
      destruct (str_eq_dec k0 (lit "content")); [contradiction | exact IH].
  - clear. generalize (dict_set d (lit "content") (PStr (py_str function))).
    intros l. induction l as [|[k0 v0] l IH]; simpl; [reflexivity|].
    unfold str_eqb at 1. destruct (str_eq_dec k0 (lit "function_call")) as [->|Hk0]; simpl.
    + exact IH.
    + destruct (str_eq_dec k0 (lit "function_call")); [contradiction | exact IH].
  - intros k Hk1 Hk2. simpl.
    rewrite dict_get_delete_other by congruence.
    rewrite dict_get_set_other by congruence. reflexivity.
Qed.

(** C9.  In the model-feedback walkthrough the tool is called with the
    value of the "arguments" entry itself, which is the JSON text of the
    arguments, as its location.  So the tool-role message appended to the
    conversation has as content the JSON text of an object whose "location"
    is that whole arguments text, not the location named in it.  For the
    answer recorded in the notebook the content is the recorded one, with
    location '{"location":"Boston, MA"}', while parsing the arguments first,
    as cells 11 and 13 do, gives the location "Boston, MA". *)
Theorem feedback_location_is_arguments_text
    (py_str : pyval -> str)
    (reply tool_calls call function arguments name id fc : pyval) :
  subscript reply (lit "tool_calls") = inr tool_calls ->
  item tool_calls 0 = inr call ->
  subscript call (lit "function") = inr function ->
  subscript function (lit "arguments") = inr arguments ->
  subscript function (lit "name") = inr name ->
  subscript call (lit "id") = inr id ->
  subscript reply (lit "function_call") = inr fc ->
  (exists assistant_message,
     prepare_assistant_message py_str reply = inr assistant_message
     /\ model_feedback py_str reply
        = inr [ user_message; assistant_message;
                tool_message id name (get_current_weather arguments None) ])
  /\ get_current_weather arguments None
     = dumps (PDict (weather_of arguments (PStr (lit "fahrenheit"))))
  /\ (forall a, arguments = PStr a -> well_formed a ->
        loads (get_current_weather arguments None)
        = inr (PDict (weather_of (PStr a) (PStr (lit "fahrenheit")))))
  /\ (exists assistant_message,
        model_feedback py_str recorded_reply
        = inr [ user_message; assistant_message;
                tool_message (PStr (lit "call_HjEsBatvMQLfyvpW3YjaRd6k"))
                  (PStr (lit "get_current_weather")) recorded_content ])
  /\ get_current_weather (PStr recorded_arguments) None = recorded_content
  /\ parse_and_call recorded_arguments
     = inr (get_current_weather (PStr (lit "Boston, MA")) None)
  /\ get_current_weather (PStr (lit "Boston, MA")) None <> recorded_content.
Proof.
  intros Ht Hc Hf Ha Hn Hi Hfc.
  split; [|split; [reflexivity|split; [|split; [|split; [|split]]]]].
  - destruct (prepare_keeps py_str _ _ _ _ _ Ht Hc Hf Hfc) as (d & Hp & _ & _ & Hk).
    exists (PDict d). split; [exact Hp|].
    unfold model_feedback. rewrite Hp. cbn [and_then app list_item nth_error].
    rewrite (Hk (lit "tool_calls")) by discriminate.
    rewrite Ht. cbn [and_then]. rewrite Hc. cbn [and_then]. rewrite Hf. cbn [and_then].
    rewrite Ha. cbn [and_then]. rewrite Hi. cbn [and_then]. rewrite Hn. cbn [and_then].
    reflexivity.
  - intros a -> Hw. rewrite weather_default_unit.
    apply weather_read_back; [exact Hw | reflexivity].
  - eexists. unfold model_feedback, prepare_assistant_message.
    cbn [recorded_reply subscript dict_get]. vm_compute. reflexivity.
  - vm_compute. reflexivity.
  - vm_compute. reflexivity.
  - vm_compute. discriminate.
Qed.

Lemma feedback_location_is_arguments_text_witness :
  exists assistant_message,
    model_feedback (fun _ => []) recorded_reply
    = inr [ user_message; assistant_message;
            tool_message (PStr (lit "call_HjEsBatvMQLfyvpW3YjaRd6k"))
              (PStr (lit "get_current_weather"))
              (get_current_weather (PStr recorded_arguments) None) ]
    /\ loads (get_current_weather (PStr recorded_arguments) None)
       = inr (PDict (weather_of (PStr recorded_arguments) (PStr (lit "fahrenheit")))).
Proof.
  destruct (feedback_location_is_arguments_text (fun _ => []) recorded_reply
              (PList [ PDict [ (lit "id", PStr (lit "call_HjEsBatvMQLfyvpW3YjaRd6k"));
                               (lit "function",
                                PDict [ (lit "arguments", PStr recorded_arguments);
                                        (lit "name", PStr (lit "get_current_weather")) ]);
                               (lit "type", PStr (lit "function")) ] ])
              (PDict [ (lit "id", PStr (lit "call_HjEsBatvMQLfyvpW3YjaRd6k"));
                       (lit "function",
                        PDict [ (lit "arguments", PStr recorded_arguments);
                                (lit "name", PStr (lit "get_current_weather")) ]);
                       (lit "type", PStr (lit "function")) ])
              (PDict [ (lit "arguments", PStr recorded_arguments);
                       (lit "name", PStr (lit "get_current_weather")) ])
              (PStr recorded_arguments)
              (PStr (lit "get_current_weather"))
              (PStr (lit "call_HjEsBatvMQLfyvpW3YjaRd6k"))
              PNone
              eq_refl eq_refl eq_refl eq_refl eq_refl eq_refl eq_refl)
    as ((am & _ & H1) & _ & H2 & _).
  exists am. split; [exact H1|]. apply (H2 recorded_arguments eq_refl). reflexivity.
Defined.

End FunctionCallingFacts.

(* ===================================================================== *)
(** ** The pieces of a split *)
(* ===================================================================== *)

Module SplitFacts.
Import Python PythonFacts.

(** [find] returns the lowest place: the separator stands at no earlier
    one. *)
Lemma find_lowest (sep s : str) (i : nat) :
  find sep s = Some i -> forall j, j < i -> starts_with sep (skipn j s) = false.
Proof.
  revert i; induction s as [|c s IH]; intros i H j Hj.
  - simpl in H. destruct (starts_with sep []); [|discriminate].
    injection H as <-. lia.
  - simpl in H. destruct (starts_with sep (c :: s)) eqn:E.
    + injection H as <-. lia.
    + destruct (find sep s) as [i'|] eqn:F; [|discriminate].
      injection H as <-. destruct j as [|j]; [exact E|].
      simpl. apply (IH i' eq_refl). lia.
Qed.

(** What stands before the first separator holds no separator. *)
Lemma find_firstn_lowest (sep s : str) (i : nat) :
  sep <> [] -> find sep s = Some i -> find sep (firstn i s) = None.
Proof.
  intros Hsep H. destruct (find sep (firstn i s)) as [j|] eqn:F; [|reflexivity].
  exfalso. apply find_Some_split in F as [F Hle].
  assert (Hlen : List.length sep <> 0) by (destruct sep; [contradiction | discriminate]).
  pose proof (length_firstn i s) as Hi.
  assert (Hj : j < i) by lia.
  pose proof (find_lowest _ _ _ H j Hj) as L.
  assert (E : skipn j s = sep ++ skipn (j + List.length sep) (firstn i s) ++ skipn i s).
  { rewrite <- (firstn_skipn i s) at 1. rewrite F at 1.
    rewrite <- !app_assoc. rewrite skipn_app.
    rewrite skipn_all2 by (rewrite !length_firstn; lia).
    rewrite !length_firstn.
    replace (j - Nat.min j (Nat.min i (List.length s))) with 0 by lia.
    reflexivity. }
  rewrite E, starts_with_app in L. discriminate.
Qed.

Lemma before_free (sep s : str) : sep <> [] -> find sep (before sep s) = None.
Proof.
  intros Hsep. unfold before. destruct (find sep s) as [i|] eqn:F; [|exact F].
  now apply find_firstn_lowest.
Qed.

(** [before] and [after] cut a string in parts. *)
Lemma before_rest (sep s : str) :
  exists r, s = before sep s ++ r /\ (r = [] \/ starts_with sep r = true).
Proof.
  unfold before. destruct (find sep s) as [i|] eqn:F.
  - apply find_Some_split in F as [F _].
    exists (sep ++ skipn (i + List.length sep) s). split; [exact F|].
    right. apply starts_with_app.
  - exists []. split; [now rewrite app_nil_r | now left].
Qed.

Lemma after_cut (sep s r : str) :
  after sep s = Some r ->
  exists a, s = a ++ sep ++ r /\ find sep s = Some (List.length a).
Proof.
  unfold after. destruct (find sep s) as [i|] eqn:F; [|discriminate].
  intros H. injection H as <-.
  pose proof (find_Some_split _ _ _ F) as [E Hle].
  exists (firstn i s). split; [exact E|].
  rewrite length_firstn. f_equal. lia.
Qed.

Lemma split_from_not_empty (fuel : nat) (sep s : str) : split_from fuel sep s <> [].
Proof.
  destruct fuel; simpl; destruct (find sep s); discriminate.
Qed.

Lemma join_cons (sep x : str) (l : list str) :
  l <> [] -> join sep (x :: l) = x ++ sep ++ join sep l.
Proof. destruct l; [contradiction | reflexivity]. Qed.

(** The pieces, joined by the separator, are the string again. *)
Lemma join_split_from (fuel : nat) (sep s : str) : join sep (split_from fuel sep s) = s.
Proof.
  revert s; induction fuel as [|fuel IH]; intros s; simpl.
  - now destruct (find sep s).
  - destruct (find sep s) as [i|] eqn:F; [|reflexivity].
    rewrite join_cons by apply split_from_not_empty.
    rewrite IH. symmetry. now apply find_Some_split.
Qed.

(** No piece holds the separator. *)
Lemma split_from_free (fuel : nat) (sep s : str) :
  sep <> [] -> List.length s <= fuel ->
  Forall (fun p => find sep p = None) (split_from fuel sep s).
Proof.
  intros Hsep. revert s; induction fuel as [|fuel IH]; intros s Hlen.
  - destruct s; [|simpl in Hlen; lia].
    destruct sep as [|c sep]; [contradiction|]. repeat constructor.
  - simpl. destruct (find sep s) as [i|] eqn:F.
    + constructor; [now apply find_firstn_lowest|].
      apply IH. rewrite length_skipn.
      assert (List.length sep <> 0) by (destruct sep; [contradiction | discriminate]).
      lia.
    + repeat constructor. exact F.
Qed.

(** X1.  [s.split(sep)] raises for an empty separator and for no other one.
    Else it returns at least one piece; the pieces joined by the separator
    give [s] back, and the separator occurs in none of them.  When the
    separator does not occur in [s], the only piece is [s] itself. *)
Theorem split_pieces (s sep : str) :
  (sep = [] -> split s sep = inl ValueError)
  /\ (sep <> [] ->
      exists parts,
        split s sep = inr parts
        /\ parts <> []
        /\ join sep parts = s
        /\ Forall (fun p => find sep p = None) parts
        /\ (find sep s = None -> parts = [s])).
Proof.
  split.
  - intros ->. reflexivity.
  - intros Hsep. destruct sep as [|c sep]; [contradiction|].
    exists (split_from (List.length s) (c :: sep) s).
    split; [reflexivity|]. split; [apply split_from_not_empty|].
    split; [apply join_split_from|]. split.
    + now apply split_from_free.
    + intros H. rewrite split_from_unfold by (discriminate || lia). now rewrite H.
Qed.

Lemma split_pieces_witness :
  exists parts,
    split ChainOfThoughtTerms.recorded_response ChainOfThought.response_delimiter = inr parts
    /\ join ChainOfThought.response_delimiter parts = ChainOfThoughtTerms.recorded_response
    /\ Forall (fun p => find ChainOfThought.response_delimiter p = None) parts.
Proof.
  destruct (split_pieces ChainOfThoughtTerms.recorded_response
              ChainOfThought.response_delimiter) as [_ H].
  destruct H as (parts & H1 & _ & H2 & H3 & _); [discriminate|].
  exists parts. exact (conj H1 (conj H2 H3)).
Defined.

End SplitFacts.

(* ===================================================================== *)
(** ** The inner-monologue cell: what is printed *)
(* ===================================================================== *)

Module ExtractionFacts.
Import Python PythonFacts SplitFacts ChainOfThought ChainOfThoughtTerms ChainOfThoughtFacts.

Lemma find_None_prefix (p a b : str) : find p (a ++ b) = None -> find p a = None.
Proof.
  intros H. replace a with (firstn (List.length a) (a ++ b)).
  - now apply find_None_firstn.
  - rewrite firstn_app, firstn_all, Nat.sub_diag. simpl. apply app_nil_r.
Qed.

Lemma find_None_suffix (p a b : str) : find p (a ++ b) = None -> find p b = None.
Proof.
  intros H. replace b with (skipn (List.length a) (a ++ b)).
  - now apply find_None_skipn.
  - rewrite skipn_app, skipn_all, Nat.sub_diag. reflexivity.
Qed.

(** X2.  What the [try] branch prints is a slice of the response: the text that
    follows the first "Response to the user: " after the first <response>,
    up to the next marker or the end of the response. *)
Theorem printed_text_is_a_slice (response : pyval) (out : str) :
  inner_monologue response = (TryBranch, out) ->
  exists s a c t b,
    response = PStr s
    /\ out = t ++ [newline]
    /\ s = a ++ response_delimiter ++ c ++ prefix ++ t ++ b
    /\ find response_delimiter s = Some (List.length a)
    /\ find prefix (c ++ prefix ++ t) = Some (List.length c)
    /\ find response_delimiter (c ++ prefix ++ t) = None
    /\ find response_delimiter_end (c ++ prefix ++ t) = None
    /\ find response_delimiter t = None
    /\ find response_delimiter_end t = None
    /\ find prefix t = None
    /\ (b = []
        \/ starts_with prefix b = true
        \/ starts_with response_delimiter_end b = true
        \/ starts_with response_delimiter b = true).
Proof.
  intros H.
  destruct response as [| bb | s | l | d]; try discriminate.
  rewrite inner_monologue_cuts in H.
  destruct (after response_delimiter s) as [r|] eqn:A; [|discriminate].
  set (inner := before response_delimiter r) in *.
  set (final := before response_delimiter_end inner) in *.
  destruct (after prefix final) as [u|] eqn:P; [|discriminate].
  injection H as <-.
  destruct (after_cut _ _ _ A) as (a & Es & Fs).
  destruct (after_cut _ _ _ P) as (c & Ef & Ff).
  destruct (before_rest response_delimiter r) as (r2 & Er & Hr2). fold inner in Er.
  destruct (before_rest response_delimiter_end inner) as (r3 & Ei & Hr3). fold final in Ei.
  destruct (before_rest prefix u) as (r4 & Eu & Hr4).
  set (t := before prefix u) in *.
  assert (Fsd : find response_delimiter final = None).
  { apply find_None_before. apply before_free. discriminate. }
  assert (Fed : find response_delimiter_end final = None).
  { apply before_free. discriminate. }
  assert (Ept : final = (c ++ prefix ++ t) ++ r4).
  { rewrite Ef, Eu at 1. now rewrite <- !app_assoc. }
  assert (Fsd' : find response_delimiter (c ++ prefix ++ t) = None).
  { rewrite Ept in Fsd. now apply find_None_prefix in Fsd. }
  assert (Fed' : find response_delimiter_end (c ++ prefix ++ t) = None).
  { rewrite Ept in Fed. now apply find_None_prefix in Fed. }
  exists s, a, c, t, (r4 ++ r3 ++ r2).
  split; [reflexivity|]. split; [reflexivity|]. split.
  { rewrite Es at 1. rewrite Er at 1. rewrite Ei at 1. rewrite Ept at 1.
    now rewrite <- !app_assoc. }
  split; [exact Fs|]. split.
  { assert (Hp : find prefix final = Some (List.length c)) by exact Ff.
    rewrite Ept in Hp.
    destruct (find prefix (c ++ prefix ++ t)) as [j|] eqn:Fj.
    - pose proof (find_Some_split _ _ _ Fj) as [Ej Hj].
      destruct (Nat.lt_trichotomy j (List.length c)) as [Hlt|[->|Hgt]]; [|reflexivity|].
      + exfalso. pose proof (find_lowest _ _ _ Hp j Hlt) as L.
        rewrite Ej in L. rewrite <- !app_assoc in L.
        rewrite skipn_app in L.
        rewrite skipn_all2 in L by (rewrite length_firstn; lia).
        rewrite length_firstn in L.
        replace (j - Nat.min j (List.length (c ++ prefix ++ t))) with 0 in L by lia.
        rewrite skipn_O in L. cbn [app] in L.
        rewrite starts_with_app in L. discriminate.
      + exfalso. pose proof (find_lowest _ _ _ Fj (List.length c) Hgt) as L.
        rewrite skipn_app, skipn_all, Nat.sub_diag, skipn_O in L. cbn [app] in L.
        rewrite starts_with_app in L. discriminate.
    - exfalso. exact (find_None_no_occurrence _ _ Fj c t eq_refl). }
  split; [exact Fsd'|]. split; [exact Fed'|].
  split.
  { rewrite app_assoc in Fsd'. now apply find_None_suffix in Fsd'. }
  split.
  { rewrite app_assoc in Fed'. now apply find_None_suffix in Fed'. }
  split; [apply before_free; discriminate|].
  destruct Hr4 as [->|Hr4].
  - destruct Hr3 as [->|Hr3].
    + destruct Hr2 as [->|Hr2]; [now left|].
      right. right. right. exact Hr2.
    + right. right. left.
      apply starts_with_inv in Hr3 as [x ->].
      rewrite app_nil_l, <- app_assoc. apply starts_with_app.
  - right. left.
    apply starts_with_inv in Hr4 as [x ->]. rewrite <- app_assoc. apply starts_with_app.
Qed.

Lemma printed_text_is_a_slice_witness :
  exists s a c t b,
    PStr recorded_response = PStr s
    /\ recorded_answer ++ [newline] = t ++ [newline]
    /\ s = a ++ response_delimiter ++ c ++ prefix ++ t ++ b
    /\ find response_delimiter s = Some (List.length a)
    /\ find prefix t = None.
Proof.
  assert (H : inner_monologue (PStr recorded_response)
              = (TryBranch, recorded_answer ++ [newline]))
    by (vm_compute; reflexivity).
  destruct (printed_text_is_a_slice _ _ H)
    as (s & a & c & t & b & H1 & H2 & H3 & H4 & _ & _ & _ & _ & _ & H5 & _).
  exists s, a, c, t, b. exact (conj H1 (conj H2 (conj H3 (conj H4 H5)))).
Defined.

End ExtractionFacts.

(* ===================================================================== *)
(** ** The inner-monologue cell on a response in the format asked for *)
(* ===================================================================== *)

Module ResponseFormatFacts.
Import Python PythonFacts SplitFacts ChainOfThought ChainOfThoughtTerms ChainOfThoughtFacts.
Import ResponseFormat ResponseFormatTerms.

(** An occurrence of [sep] in [a ++ b] that starts in [a] lies in [a] or
    stands across the end of [a]. *)
Lemma occurrence_from_left (sep a b u v : str) :
  a ++ b = u ++ sep ++ v ->
  List.length u < List.length a ->
  (exists w, a = u ++ sep ++ w)
  \/ exists x y, x <> [] /\ y <> [] /\ sep = x ++ y /\ a = u ++ x /\ b = y ++ v.
Proof.
  intros E Hlt. apply app_eq_app in E as [l [[Ha Hb]|[Hu Hb]]].
  - (* a = u ++ l, sep ++ v = l ++ b *)
    symmetry in Hb. apply app_eq_app in Hb as [l' [[Hl Hv]|[Hs Hv]]].
    + (* l = sep ++ l' *) left. exists l'. now rewrite Ha, Hl.
    + (* sep = l ++ l', b = l' ++ v *)
      destruct l' as [|c l'].
      * left. exists []. rewrite app_nil_r in Hs. now rewrite Ha, Hs, app_nil_r.
      * right. exists l, (c :: l'). repeat split; try assumption; try discriminate.
        intros ->. rewrite app_nil_r in Ha. subst a. lia.
  - (* u = a ++ l *) subst u. rewrite length_app in Hlt. lia.
Qed.

Lemma last_in_removelast (x y : str) (a' : str) (c : char) :
  x <> [] -> y <> [] -> a' ++ [c] = x -> In c (removelast (x ++ y)).
Proof.
  intros Hx Hy <-. rewrite removelast_app by exact Hy.
  apply in_or_app. left. apply in_or_app. right. now left.
Qed.

(** Where the marker stands across nothing, it occurs in [a ++ b] only
    where it occurs in [a] or in [b]. *)
Lemma find_app_ends_apart (sep a b : str) :
  find sep a = None -> find sep b = None -> ends_apart sep a -> find sep (a ++ b) = None.
Proof.
  intros Ha Hb (a' & c & Ea & Hc).
  destruct (find sep (a ++ b)) as [i|] eqn:F; [|reflexivity]. exfalso.
  pose proof (find_Some_split _ _ _ F) as [E Hle].
  destruct (Nat.lt_ge_cases (List.length (firstn i (a ++ b))) (List.length a)) as [Hlt|Hge].
  - destruct (occurrence_from_left _ _ _ _ _ E Hlt) as [[w Hw]|(x & y & Hx & Hy & Hs & Hax & _)].
    + exact (find_None_no_occurrence _ _ Ha _ _ Hw).
    + apply Hc. rewrite Hs. rewrite Ea in Hax.
      assert (Hl : exists x', x = x' ++ [c]).
      { destruct (exists_last Hx) as (x' & d & ->).
        rewrite app_assoc in Hax. apply app_inj_tail in Hax as [_ ->]. now exists x'. }
      destruct Hl as [x' ->]. now apply (last_in_removelast _ y x' c).
  - rewrite length_firstn in Hge.
    assert (Hi : List.length a <= i) by lia.
    apply (find_None_no_occurrence _ _ Hb (firstn (i - List.length a) b)
             (skipn (i + List.length sep) (a ++ b))).
    assert (Ef : firstn i (a ++ b) = a ++ firstn (i - List.length a) b).
    { rewrite firstn_app. rewrite firstn_all2 by exact Hi. reflexivity. }
    rewrite Ef in E. rewrite <- app_assoc in E. now apply app_inv_head in E.
Qed.

Lemma find_app_starts_apart (sep a b : str) :
  find sep a = None -> find sep b = None -> starts_apart sep b -> find sep (a ++ b) = None.
Proof.
  intros Ha Hb (c & b' & Eb & Hc).
  destruct (find sep (a ++ b)) as [i|] eqn:F; [|reflexivity]. exfalso.
  pose proof (find_Some_split _ _ _ F) as [E Hle].
  destruct (Nat.lt_ge_cases (List.length (firstn i (a ++ b))) (List.length a)) as [Hlt|Hge].
  - destruct (occurrence_from_left _ _ _ _ _ E Hlt) as [[w Hw]|(x & y & Hx & Hy & Hs & _ & Hby)].
    + exact (find_None_no_occurrence _ _ Ha _ _ Hw).
    + apply Hc. rewrite Hs. destruct x as [|d x]; [contradiction|].
      destruct y as [|e y]; [contradiction|].
      rewrite Eb in Hby. injection Hby as -> _.
      simpl. apply in_or_app. right. now left.
  - rewrite length_firstn in Hge.
    assert (Hi : List.length a <= i) by lia.
    apply (find_None_no_occurrence _ _ Hb (firstn (i - List.length a) b)
             (skipn (i + List.length sep) (a ++ b))).
    assert (Ef : firstn i (a ++ b) = a ++ firstn (i - List.length a) b).
    { rewrite firstn_app. rewrite firstn_all2 by exact Hi. reflexivity. }
    rewrite Ef in E. rewrite <- app_assoc in E. now apply app_inv_head in E.
Qed.

(** After a text without the marker, and across whose end the marker does
    not stand, the marker is found where it is put. *)
Lemma find_at_ends_apart (sep a rest : str) :
  sep <> [] -> find sep a = None -> ends_apart sep a ->
  find sep (a ++ sep ++ rest) = Some (List.length a).
Proof.
  intros Hsep Ha (a' & c & Ea & Hc).
  destruct (find_occurrence sep a rest) as [i F]. rewrite F. f_equal.
  pose proof (find_Some_split _ _ _ F) as [E Hle].
  destruct (Nat.lt_trichotomy i (List.length a)) as [Hlt|[->|Hgt]]; [|reflexivity|].
  - exfalso.
    assert (Hl : List.length (firstn i (a ++ sep ++ rest)) < List.length a)
      by (rewrite length_firstn; lia).
    destruct (occurrence_from_left _ _ _ _ _ E Hl)
      as [[w Hw]|(x & y & Hx & Hy & Hs & Hax & _)].
    + exact (find_None_no_occurrence _ _ Ha _ _ Hw).
    + apply Hc. rewrite Hs. rewrite Ea in Hax.
      assert (Hx' : exists x', x = x' ++ [c]).
      { destruct (exists_last Hx) as (x' & d & ->).
        rewrite app_assoc in Hax. apply app_inj_tail in Hax as [_ ->]. now exists x'. }
      destruct Hx' as [x' ->]. now apply (last_in_removelast _ y x' c).
  - exfalso. pose proof (find_lowest _ _ _ F (List.length a) Hgt) as L.
    rewrite skipn_app, skipn_all, Nat.sub_diag, skipn_O in L. cbn [app] in L.
    rewrite starts_with_app in L. discriminate.
Qed.

(** A cut at the first marker keeps a text without the marker, across
    whose end the marker does not stand. *)
Lemma before_keeps (sep a b : str) :
  find sep a = None -> ends_apart sep a -> exists b', before sep (a ++ b) = a ++ b'.
Proof.
  intros Ha (a' & c & Ea & Hc). unfold before.
  destruct (find sep (a ++ b)) as [i|] eqn:F; [|now exists b].
  pose proof (find_Some_split _ _ _ F) as [E Hle].
  destruct (Nat.lt_ge_cases i (List.length a)) as [Hlt|Hge].
  - exfalso.
    assert (Hl : List.length (firstn i (a ++ b)) < List.length a)
      by (rewrite length_firstn; lia).
    destruct (occurrence_from_left _ _ _ _ _ E Hl)
      as [[w Hw]|(x & y & Hx & Hy & Hs & Hax & _)].
    + exact (find_None_no_occurrence _ _ Ha _ _ Hw).
    + apply Hc. rewrite Hs. rewrite Ea in Hax.
      assert (Hx' : exists x', x = x' ++ [c]).
      { destruct (exists_last Hx) as (x' & d & ->).
        rewrite app_assoc in Hax. apply app_inj_tail in Hax as [_ ->]. now exists x'. }
      destruct Hx' as [x' ->]. now apply (last_in_removelast _ y x' c).
  - exists (firstn (i - List.length a) b).
    rewrite firstn_app. now rewrite firstn_all2 by exact Hge.
Qed.



End ResponseFormatFacts.

(* ===================================================================== *)
(** ** The testing loop of the chain-of-thought notebook *)
(* ===================================================================== *)

Module TestingLoopFacts.
Import Python ChainOfThought TestingLoop TestingLoopTerms.

Lemma loop_unfold (client : nat -> api) (system_message question : str)
    (qs : list str) (k : nat) (out : str) :
  testing_loop client system_message (question :: qs) k out =
    match get_chat_completion (client k)
            [ message (lit "system") system_message; message (lit "user") question ]
            None None with
    | inl e => (Some e, S k, out)
    | inr response =>
        testing_loop client system_message qs (S k) (out ++ block (question, response))
    end.
Proof.
  cbn [testing_loop]. destruct (get_chat_completion _ _ _ _) as [e|response]; [reflexivity|].
  cbv zeta. f_equal. unfold block, print. cbn [fst snd join].
  rewrite <- !app_assoc. reflexivity.
Qed.

Lemma completion_cases (create : api) (system_message question : str) :
  match get_chat_completion create
          [ message (lit "system") system_message; message (lit "user") question ]
          None None with
  | inr response => exists choices, create (asked system_message question) = inr (response :: choices)
  | inl (ApiError e) => create (asked system_message question) = inl e
  | inl (Uncaught e) => e = IndexError /\ create (asked system_message question) = inr []
  end.
Proof.
  unfold get_chat_completion.
  change (mk_request (lit "gpt-4o") _ 0%Q) with (asked system_message question).
  destruct (create (asked system_message question)) as [e|[|a choices]]; cbn.
  - reflexivity.
  - now split.
  - now exists choices.
Qed.

(** X4.  The testing loop asks the questions in their order, each in a
    conversation of its own: the request for a question holds the system
    message and this question only, for the model "gpt-4o" at temperature
    0, and its answer is the content of the first choice.  For every
    question answered, three lines are printed: the question, the answer
    and a separator.  The loop raises nothing itself: it ends after the
    last question, or at the first call that raises or returns no choice,
    and then nothing is printed for this question and no later question is
    asked. *)
Theorem testing_loop_transcript (client : nat -> api) (system_message : str)
    (user_questions : list str) (calls : nat) (out : str) :
  exists answers rest,
    user_questions = firstn (List.length answers) user_questions ++ rest
    /\ answered client system_message calls
         (firstn (List.length answers) user_questions) answers
    /\ snd (testing_loop client system_message user_questions calls out)
       = out ++ flat_map block (combine user_questions answers)
    /\ match rest with
       | [] =>
           fst (testing_loop client system_message user_questions calls out)
           = (None, calls + List.length user_questions)
       | question :: _ =>
           exists e,
             fst (testing_loop client system_message user_questions calls out)
             = (Some e, S (calls + List.length answers))
             /\ get_chat_completion (client (calls + List.length answers))
                  [ message (lit "system") system_message;
                    message (lit "user") question ] None None
                = inl e
       end.
Proof.
  revert calls out. induction user_questions as [|q qs IH]; intros k out.
  - exists [], []. cbn. rewrite app_nil_r, Nat.add_0_r. repeat split.
  - rewrite loop_unfold.
    pose proof (completion_cases (client k) system_message q) as C.
    destruct (get_chat_completion (client k) _ None None) as [e|response] eqn:G.
    + exists [], (q :: qs). cbn. rewrite app_nil_r, Nat.add_0_r.
      repeat split. exists e. now split.
    + destruct C as [choices C].
      destruct (IH (S k) (out ++ block (q, response))) as (answers & rest & H1 & H2 & H3 & H4).
      exists (response :: answers), rest. cbn [List.length firstn combine flat_map].
      split; [cbn [app]; now rewrite <- H1|].
      split; [split; [now exists choices | exact H2]|].
      split; [rewrite H3; now rewrite <- !app_assoc|].
      destruct rest as [|question rest'].
      * rewrite H4. f_equal. lia.
      * destruct H4 as (e & H4 & H5). exists e.
        rewrite H4. replace (k + S (List.length answers)) with (S k + List.length answers) by lia.
        split; [reflexivity | exact H5].
Qed.

Lemma testing_loop_transcript_witness :
  exists answers rest,
    [lit "Open?"; lit "Vegan?"] = firstn (List.length answers) [lit "Open?"; lit "Vegan?"] ++ rest
    /\ snd (testing_loop sample_client (lit "Answer briefly.")
              [lit "Open?"; lit "Vegan?"] 0 [])
       = [] ++ flat_map block (combine [lit "Open?"; lit "Vegan?"] answers).
Proof.
  destruct (testing_loop_transcript sample_client (lit "Answer briefly.")
              [lit "Open?"; lit "Vegan?"] 0 []) as (answers & rest & H1 & _ & H3 & _).
  exists answers, rest. exact (conj H1 H3).
Defined.

End TestingLoopFacts.

(* ===================================================================== *)
(** ** The model-feedback cells: what they keep and when they raise *)
(* ===================================================================== *)

Module FeedbackFacts.
Import Python FunctionCalling FunctionCallingTerms FunctionCallingFacts FeedbackTerms.

Lemma keys_dict_set_present (d : list (str * pyval)) (k : str) (v : pyval) :
  In k (keys d) -> keys (dict_set d k v) = keys d.
Proof.
  induction d as [|[k0 v0] d IH]; simpl; [contradiction|].
  intros [->|H].
  - destruct (str_eq_dec k k); [reflexivity | contradiction].
  - destruct (str_eq_dec k0 k); [reflexivity|]. simpl. now rewrite IH.
Qed.

Lemma keys_dict_set_absent (d : list (str * pyval)) (k : str) (v : pyval) :
  ~ In k (keys d) -> keys (dict_set d k v) = keys d ++ [k].
Proof.
  induction d as [|[k0 v0] d IH]; simpl; [reflexivity|].
  intros H. destruct (str_eq_dec k0 k) as [->|Hk]; [tauto|].
  simpl. rewrite IH; tauto.
Qed.

Lemma keys_delete (d : list (str * pyval)) (k : str) :
  keys (filter (fun kv => negb (str_eqb (fst kv) k)) d) = without k (keys d).
Proof.
  unfold without. induction d as [|[k0 v0] d IH]; simpl; [reflexivity|].
  unfold str_eqb at 1.
  destruct (str_eq_dec k0 k) as [->|Hk]; simpl.
  - destruct (str_eq_dec k k); [exact IH | contradiction].
  - destruct (str_eq_dec k k0) as [->|_]; [contradiction|]. simpl. now rewrite IH.
Qed.

(** Cell 29 returns only for an answer with the entries it reads, and
    then changes nothing but "content" and "function_call". *)
Lemma prepare_returns (py_str : pyval -> str) (reply assistant_message : pyval) :
  prepare_assistant_message py_str reply = inr assistant_message ->
  exists d tool_calls call function fc,
    reply = PDict d
    /\ assistant_message
       = PDict (filter (fun kv => negb (str_eqb (fst kv) (lit "function_call")))
                  (dict_set d (lit "content") (PStr (py_str function))))
    /\ dict_get d (lit "tool_calls") = Some tool_calls
    /\ item tool_calls 0 = inr call
    /\ subscript call (lit "function") = inr function
    /\ dict_get d (lit "function_call") = Some fc
    /\ subscript assistant_message (lit "content") = inr (PStr (py_str function))
    /\ subscript assistant_message (lit "function_call") = inl KeyError
    /\ (forall k, k <> lit "content" -> k <> lit "function_call" ->
                  subscript assistant_message k = subscript reply k).
Proof.
  unfold prepare_assistant_message. intros H.
  destruct (subscript reply (lit "tool_calls")) as [e|tool_calls] eqn:Ht; [discriminate|].
  cbn [and_then] in H.
  destruct (item tool_calls 0) as [e|call] eqn:Hc; [discriminate|].
  cbn [and_then] in H.
  destruct (subscript call (lit "function")) as [e|function] eqn:Hf; [discriminate|].
  cbn [and_then] in H.
  pose proof (subscript_inv _ _ _ Ht) as (d & -> & Hd).
  cbn [assign and_then delete] in H.
  rewrite dict_get_set_other in H by discriminate.
  destruct (dict_get d (lit "function_call")) as [fc|] eqn:Hfc; [|discriminate].
  injection H as <-.
  assert (Hs : subscript (PDict d) (lit "function_call") = inr fc)
    by (simpl; now rewrite Hfc).
  destruct (prepare_keeps py_str _ _ _ _ _ Ht Hc Hf Hs) as (d1 & Hp & H1 & H2 & H3).
  unfold prepare_assistant_message in Hp.
  rewrite Ht in Hp. cbn [and_then] in Hp. rewrite Hc in Hp. cbn [and_then] in Hp.
  rewrite Hf in Hp. cbn [assign and_then delete] in Hp.
  rewrite dict_get_set_other in Hp by discriminate. rewrite Hfc in Hp.
  injection Hp as Hp.
  exists d, tool_calls, call, function, fc.
  split; [reflexivity|]. split; [reflexivity|].
  split; [exact Hd|]. split; [exact Hc|]. split; [exact Hf|]. split; [exact Hfc|].
  rewrite Hp. split; [|split].
  - simpl. now rewrite H1.
  - simpl. now rewrite H2.
  - exact H3.
Qed.

(** X5.  What cell 29 returns.  It returns only for an answer that is a
    dictionary with a "function_call" entry and a "tool_calls" entry whose
    first element has a "function" entry.  The message it returns has
    Python's [str] of that function entry as "content" and no
    "function_call"; every other entry is the answer's.  The keys keep the
    answer's order: "content" stays where it was, or goes last when the
    answer had none. *)
Theorem prepared_message (py_str : pyval -> str) (reply assistant_message : pyval) :
  prepare_assistant_message py_str reply = inr assistant_message ->
  exists d d' tool_calls call function fc,
    reply = PDict d
    /\ assistant_message = PDict d'
    /\ dict_get d (lit "tool_calls") = Some tool_calls
    /\ item tool_calls 0 = inr call
    /\ subscript call (lit "function") = inr function
    /\ dict_get d (lit "function_call") = Some fc
    /\ dict_get d' (lit "content") = Some (PStr (py_str function))
    /\ dict_get d' (lit "function_call") = None
    /\ (forall k, k <> lit "content" -> k <> lit "function_call" ->
                  dict_get d' k = dict_get d k)
    /\ (In (lit "content") (keys d) ->
        keys d' = without (lit "function_call") (keys d))
    /\ (~ In (lit "content") (keys d) ->
        keys d' = without (lit "function_call") (keys d) ++ [lit "content"]).
Proof.
  intros H.
  destruct (prepare_returns _ _ _ H)
    as (d & tool_calls & call & function & fc & -> & -> & Hd & Hc & Hf & Hfc & H1 & H2 & H3).
  set (d' := filter (fun kv => negb (str_eqb (fst kv) (lit "function_call")))
               (dict_set d (lit "content") (PStr (py_str function)))) in *.
  exists d, d', tool_calls, call, function, fc.
  split; [reflexivity|]. split; [reflexivity|].
  split; [exact Hd|]. split; [exact Hc|]. split; [exact Hf|]. split; [exact Hfc|].
  unfold subscript in H1, H2, H3.
  split.
  { destruct (dict_get d' (lit "content")); congruence. }
  split.
  { destruct (dict_get d' (lit "function_call")); [discriminate | reflexivity]. }
  split.
  { intros k K1 K2. specialize (H3 k K1 K2).
    destruct (dict_get d' k), (dict_get d k); congruence. }
  unfold d'. split.
  - intros Hin. rewrite keys_delete, keys_dict_set_present by exact Hin. reflexivity.
  - intros Hin. rewrite keys_delete, keys_dict_set_absent by exact Hin.
    unfold without. rewrite remove_app. reflexivity.
Qed.

Lemma prepared_message_witness :
  exists d d',
    recorded_reply = PDict d
    /\ keys d = [lit "content"; lit "refusal"; lit "role"; lit "audio";
                 lit "function_call"; lit "tool_calls"]
    /\ keys d' = [lit "content"; lit "refusal"; lit "role"; lit "audio"; lit "tool_calls"]
    /\ dict_get d' (lit "role") = Some (PStr (lit "assistant")).
Proof.
  destruct (prepare_assistant_message (fun _ => []) recorded_reply) as [e|am] eqn:E;
    [discriminate|].
  destruct (prepared_message _ _ _ E)
    as (d & d' & tc & call & f & fc & H1 & _ & _ & _ & _ & _ & _ & _ & H3 & H4 & _).
  exists d, d'. injection H1 as <-.
  split; [reflexivity|]. split; [reflexivity|]. split.
  - rewrite H4 by (now left). reflexivity.
  - rewrite H3 by discriminate. reflexivity.
Defined.

(** X6.  When the walkthrough raises.  An answer without a tool call has [None]
    as "tool_calls": subscripting it is a [TypeError].  An empty list of
    tool calls is an [IndexError]; an answer without the key "tool_calls",
    a first call without "function" or "id", a function entry without
    "arguments" or "name", and an answer without the key "function_call"
    to delete are each a [KeyError].  In all these cases no tool-role
    message is built. *)
Theorem feedback_raises (py_str : pyval -> str) (d : list (str * pyval)) :
  (dict_get d (lit "tool_calls") = Some PNone ->
     model_feedback py_str (PDict d) = inl TypeError)
  /\ (dict_get d (lit "tool_calls") = Some (PList []) ->
        model_feedback py_str (PDict d) = inl IndexError)
  /\ (dict_get d (lit "tool_calls") = None ->
        model_feedback py_str (PDict d) = inl KeyError)
  /\ (forall call calls,
        dict_get d (lit "tool_calls") = Some (PList (PDict call :: calls)) ->
        (dict_get call (lit "function") = None ->
           model_feedback py_str (PDict d) = inl KeyError)
        /\ (forall function,
              dict_get call (lit "function") = Some (PDict function) ->
              (dict_get d (lit "function_call") = None ->
                 model_feedback py_str (PDict d) = inl KeyError)
              /\ (dict_get d (lit "function_call") <> None ->
                  dict_get function (lit "arguments") = None
                  \/ dict_get call (lit "id") = None
                  \/ dict_get function (lit "name") = None ->
                  model_feedback py_str (PDict d) = inl KeyError))).
Proof.
  split; [|split; [|split]].
  - intros H. unfold model_feedback, prepare_assistant_message.
    cbn [subscript]. rewrite H. reflexivity.
  - intros H. unfold model_feedback, prepare_assistant_message.
    cbn [subscript]. rewrite H. reflexivity.
  - intros H. unfold model_feedback, prepare_assistant_message.
    cbn [subscript]. rewrite H. reflexivity.
  - intros call calls Ht. split.
    + intros H. unfold model_feedback, prepare_assistant_message.
      cbn [subscript]. rewrite Ht. cbn [and_then item nth_error subscript].
      rewrite H. reflexivity.
    + intros function Hf. split.
      * intros H. unfold model_feedback, prepare_assistant_message.
        cbn [subscript]. rewrite Ht. cbn [and_then item nth_error subscript].
        rewrite Hf. cbn [and_then assign delete].
        rewrite dict_get_set_other by discriminate. rewrite H. reflexivity.
      * intros Hfc Hmiss.
        destruct (dict_get d (lit "function_call")) as [fc|] eqn:Efc; [|contradiction].
        assert (H1 : subscript (PDict d) (lit "tool_calls")
                     = inr (PList (PDict call :: calls)))
          by (simpl; now rewrite Ht).
        assert (H2 : subscript (PDict call) (lit "function") = inr (PDict function))
          by (simpl; now rewrite Hf).
        assert (H3 : subscript (PDict d) (lit "function_call") = inr fc)
          by (simpl; now rewrite Efc).
        destruct (prepare_keeps py_str _ _ _ _ _ H1 eq_refl H2 H3)
          as (d1 & Hp & _ & _ & Hk).
        unfold model_feedback. rewrite Hp. cbn [and_then app list_item nth_error].
        rewrite (Hk (lit "tool_calls")) by discriminate.
        rewrite H1. cbn [and_then item nth_error]. rewrite H2. cbn [and_then].
        unfold subscript at 1.
        destruct (dict_get function (lit "arguments")) as [a|] eqn:Ea; [|reflexivity].
        cbn [and_then item nth_error].
        unfold subscript at 1.
        destruct (dict_get call (lit "id")) as [i|] eqn:Ei; [|reflexivity].
        cbn [and_then].
        unfold subscript at 1.
        destruct (dict_get function (lit "name")) as [n|] eqn:En; [|reflexivity].
        destruct Hmiss as [?|[?|?]]; discriminate.
Qed.

Lemma feedback_raises_witness :
  model_feedback (fun _ => []) recorded_plain_reply = inl TypeError.
Proof.
  destruct (feedback_raises (fun _ => [])
              [ (lit "content",
                 PStr (lit "Would you like the temperature in Celsius or Fahrenheit?"));
                (lit "refusal", PNone);
                (lit "role", PStr (lit "assistant"));
                (lit "audio", PNone);
                (lit "function_call", PNone);
                (lit "tool_calls", PNone) ]) as (H & _).
  apply H. reflexivity.
Defined.

(** X7.  Whenever the walkthrough returns, the conversation has exactly three
    messages: the user's question, the prepared assistant message and one
    tool-role message.  The tool-role message answers the first tool call
    of the answer, whatever other calls follow it: it carries that call's
    id and function name, and as content the tool's text for that call's
    arguments entry. *)
Theorem feedback_conversation (py_str : pyval -> str) (reply : pyval) (messages : list pyval) :
  model_feedback py_str reply = inr messages ->
  exists assistant_message tool_calls call function arguments name id,
    subscript reply (lit "tool_calls") = inr tool_calls
    /\ item tool_calls 0 = inr call
    /\ subscript call (lit "function") = inr function
    /\ subscript function (lit "arguments") = inr arguments
    /\ subscript function (lit "name") = inr name
    /\ subscript call (lit "id") = inr id
    /\ prepare_assistant_message py_str reply = inr assistant_message
    /\ subscript assistant_message (lit "tool_calls") = inr tool_calls
    /\ messages = [ user_message; assistant_message;
                    tool_message id name (get_current_weather arguments None) ].
Proof.
  intros H. unfold model_feedback in H.
  destruct (prepare_assistant_message py_str reply) as [e|am] eqn:Hp; [discriminate|].
  cbn [and_then app list_item nth_error] in H.
  destruct (prepare_returns _ _ _ Hp)
    as (d & tc & c0 & f0 & fc & -> & _ & _ & _ & _ & _ & _ & _ & Hk).
  specialize (Hk (lit "tool_calls")). rewrite Hk in H by discriminate.
  destruct (subscript (PDict d) (lit "tool_calls")) as [e|tool_calls] eqn:Ht; [discriminate|].
  cbn [and_then] in H.
  destruct (item tool_calls 0) as [e|call] eqn:Hc; [discriminate|].
  cbn [and_then] in H.
  destruct (subscript call (lit "function")) as [e|function] eqn:Hf; [discriminate|].
  cbn [and_then] in H.
  destruct (subscript function (lit "arguments")) as [e|arguments] eqn:Ha; [discriminate|].
  cbn [and_then] in H.
  destruct (subscript call (lit "id")) as [e|id] eqn:Hi; [discriminate|].
  cbn [and_then] in H.
  destruct (subscript function (lit "name")) as [e|name] eqn:Hn; [discriminate|].
  cbn [and_then] in H. injection H as <-.
  exists am, tool_calls, call, function, arguments, name, id.
  rewrite Hk by discriminate. repeat split; try assumption; reflexivity.
Qed.

Lemma feedback_conversation_witness :
  exists assistant_message,
    model_feedback (fun _ => []) recorded_reply
    = inr [ user_message; assistant_message;
            tool_message (PStr (lit "call_HjEsBatvMQLfyvpW3YjaRd6k"))
              (PStr (lit "get_current_weather"))
              (get_current_weather (PStr recorded_arguments) None) ]
    /\ subscript assistant_message (lit "function_call") = inl KeyError.
Proof.
  destruct (model_feedback (fun _ => []) recorded_reply) as [e|messages] eqn:E;
    [discriminate|].
  destruct (feedback_conversation _ _ _ E)
    as (am & tc & call & f & a & n & i & H1 & H2 & H3 & H4 & H5 & H6 & H7 & _ & H9).
  injection H1 as <-. injection H2 as <-. injection H3 as <-.
  injection H4 as <-. injection H5 as <-. injection H6 as <-.
  exists am. split; [now rewrite H9|].
  injection H7 as <-. reflexivity.
Defined.

End FeedbackFacts.

(* ===================================================================== *)
(** ** The declared tool and the tool *)
(* ===================================================================== *)

Module ToolSchemaFacts.
Import Python FunctionCalling ToolSchema ToolSchemaTerms.

Lemma dict_get_In (d : list (str * pyval)) (k : str) :
  In k (keys d) <-> exists x, dict_get d k = Some x.
Proof.
  induction d as [|[k0 v0] d IH]; simpl.
  - split; [contradiction | intros [x H]; discriminate].
  - destruct (str_eq_dec k0 k) as [->|Hk].
    + split; [intros _; now exists v0 | intros _; now left].
    + rewrite <- IH. split; [intros [H|H]; [contradiction | exact H] | now right].
Qed.

(** X8.  The schema of cell 5 and the signature of the tool of cell 3 agree.
    The schema declares the parameters "location" and "unit" and requires
    "location", under the name of the function; and the call of the tool
    with the entries of an arguments object as keywords returns exactly when
    the object has every required parameter and no key that is not
    declared. *)
Theorem schema_matches_signature :
  declared_name = inr (PStr (lit "get_current_weather"))
  /\ exists declared required,
       declared_parameters = inr declared
       /\ required_parameters = inr required
       /\ forall d,
            (exists out, get_current_weather_kwargs (PDict d) = inr out)
            <-> (forall k, In k (keys d) -> In k declared)
                /\ (forall k, In k required -> In k (keys d)).
Proof.
  split; [reflexivity|].
  exists [lit "location"; lit "unit"], [lit "location"].
  split; [reflexivity|]. split; [reflexivity|].
  intros d. unfold get_current_weather_kwargs.
  assert (F : forallb (fun k => str_eqb k (lit "location") || str_eqb k (lit "unit")) (keys d)
              = true
              <-> forall k, In k (keys d) -> In k [lit "location"; lit "unit"]).
  { rewrite forallb_forall. split; intros H k Hk; specialize (H k Hk).
    - apply orb_true_iff in H. unfold str_eqb in H. simpl.
      destruct (str_eq_dec k (lit "location")) as [->|]; [now left|].
      destruct (str_eq_dec k (lit "unit")) as [->|]; [right; now left|].
      destruct H; discriminate.
    - simpl in H. unfold str_eqb.
      destruct H as [<-|[<-|[]]]; apply orb_true_iff.
      + left. now destruct (str_eq_dec (lit "location") (lit "location")).
      + right. now destruct (str_eq_dec (lit "unit") (lit "unit")). }
  split.
  - intros [out H].
    destruct (forallb _ (keys d)) eqn:E; [|discriminate].
    destruct (dict_get d (lit "location")) as [l|] eqn:L; [|discriminate].
    split; [now apply F|].
    intros k [<-|[]]. apply dict_get_In. now exists l.
  - intros [H1 H2]. apply F in H1. rewrite H1.
    assert (Hl : In (lit "location") (keys d)) by (apply H2; now left).
    apply dict_get_In in Hl as [l Hl]. rewrite Hl. eexists. reflexivity.
Qed.

Lemma schema_matches_signature_witness :
  exists out,
    get_current_weather_kwargs
      (PDict [(lit "location", PStr (lit "London, UK")); (lit "unit", PStr (lit "celsius"))])
    = inr out.
Proof.
  destruct schema_matches_signature as (_ & declared & required & H1 & H2 & H).
  injection H1 as <-. injection H2 as <-.
  apply H. split.
  - intros k [<-|[<-|[]]]; simpl; tauto.
  - intros k [<-|[]]. simpl. tauto.
Defined.

End ToolSchemaFacts.

(* ===================================================================== *)
(** ** json.dumps and json.loads on all values *)
(* ===================================================================== *)

Module JsonRoundTrip.
Import Python JsonTerms JsonFacts JsonValues.

(** Induction on values, with the elements of lists and dictionaries. *)
Lemma pyval_induction (P : pyval -> Prop) :
  P PNone ->
  (forall b, P (PBool b)) ->
  (forall s, P (PStr s)) ->
  (forall l, Forall P l -> P (PList l)) ->
  (forall d, Forall (fun kv => P (snd kv)) d -> P (PDict d)) ->
  forall v, P v.
Proof.
  intros HN HB HS HL HD. fix IH 1. intros [| b | s | l | d].
  - exact HN.
  - apply HB.
  - apply HS.
  - apply HL. induction l as [|x l IHl]; constructor; [apply IH | exact IHl].
  - apply HD. induction d as [|[k x] d IHd]; constructor; [apply IH | exact IHd].
Qed.

(** *** json.dumps writes printable ASCII only *)

Lemma hex_digit_printable (d : N) : (d < 16)%N -> printable (hex_digit d) = true.
Proof.
  intros H. unfold printable, hex_digit.
  destruct (N.ltb_spec d 10); apply andb_true_iff; split; apply N.leb_le; lia.
Qed.

Lemma u_escape_printable (n : N) : Forall (fun c => printable c = true) (u_escape n).
Proof.
  unfold u_escape, hex4.
  repeat constructor; apply hex_digit_printable; apply N.mod_lt; discriminate.
Qed.

Lemma escape_char_printable (c : char) : Forall (fun x => printable x = true) (escape_char c).
Proof.
  unfold escape_char.
  repeat match goal with
         | |- context [if (c =? ?k)%N then _ else _] => destruct (c =? k)%N
         end; try (repeat constructor).
  destruct ((32 <=? c) && (c <=? 126))%N eqn:P; [repeat constructor; exact P|].
  destruct (c <? 65536)%N; [apply u_escape_printable|].
  apply Forall_app. split; apply u_escape_printable.
Qed.

Lemma encoded_printable (s : str) :
  Forall (fun c => printable c = true) (encode_basestring_ascii s).
Proof.
  unfold encode_basestring_ascii, quoted. constructor; [reflexivity|].
  apply Forall_app. split; [|repeat constructor].
  induction s as [|c s IH]; [constructor|].
  cbn [flat_map]. apply Forall_app. split; [apply escape_char_printable | exact IH].
Qed.

Lemma join_printable (l : list str) :
  Forall (Forall (fun c => printable c = true)) l ->
  Forall (fun c => printable c = true) (join (lit ", ") l).
Proof.
  induction l as [|x l IH]; intros H; [constructor|].
  pose proof (Forall_inv H) as Hx. apply Forall_inv_tail in H.
  destruct l as [|y l]; [exact Hx|].
  change (join (lit ", ") (x :: y :: l)) with (x ++ lit ", " ++ join (lit ", ") (y :: l)).
  apply Forall_app. split; [exact Hx|].
  apply Forall_app. split; [repeat constructor | now apply IH].
Qed.

Lemma dumps_printable (v : pyval) : Forall (fun c => printable c = true) (dumps v).
Proof.
  induction v as [| b | s | l IH | d IH] using pyval_induction.
  - repeat constructor.
  - destruct b; repeat constructor.
  - apply encoded_printable.
  - cbn [dumps]. apply Forall_app. split; [repeat constructor|].
    apply Forall_app. split; [|repeat constructor].
    apply join_printable. rewrite Forall_map. exact IH.
  - cbn [dumps]. apply Forall_app. split; [repeat constructor|].
    apply Forall_app. split; [|repeat constructor].
    apply join_printable. rewrite Forall_map.
    apply (Forall_impl _ (P := fun kv => Forall (fun c => printable c = true) (dumps (snd kv))));
      [|exact IH].
    intros [k x] Hx. apply Forall_app. split; [apply encoded_printable|].
    apply Forall_app. split; [repeat constructor | exact Hx].
Qed.

(** *** Reading back what json.dumps wrote *)

Lemma dumps_head (v : pyval) : exists c t, dumps v = c :: t /\ starts_value c.
Proof.
  unfold starts_value. destruct v as [| [|] | s | l | d]; eexists; eexists;
    (split; [reflexivity | simpl; tauto]).
Qed.

Lemma member_head (kv : str * pyval) : exists t, member kv = 34%N :: t.
Proof. destruct kv as [k x]. eexists. reflexivity. Qed.

Lemma join_head {X : Type} (f : X -> str) (x : X) (l : list X) (c : char) (t : str) :
  f x = c :: t -> exists t', join (lit ", ") (map f (x :: l)) = c :: t'.
Proof.
  intros E. destruct l as [|y l].
  - exists t. exact E.
  - change (join (lit ", ") (map f (x :: y :: l)))
      with (f x ++ lit ", " ++ join (lit ", ") (map f (y :: l))).
    rewrite E. eexists. reflexivity.
Qed.

Lemma skip_ws_value (c : char) (t : str) : starts_value c -> skip_ws (c :: t) = c :: t.
Proof.
  unfold starts_value. simpl.
  intros [<-|[<-|[<-|[<-|[<-|[<-|[]]]]]]]; reflexivity.
Qed.

Lemma skip_ws_space_value (c : char) (t : str) :
  starts_value c -> skip_ws (32%N :: c :: t) = c :: t.
Proof.
  unfold starts_value. simpl.
  intros [<-|[<-|[<-|[<-|[<-|[<-|[]]]]]]]; reflexivity.
Qed.

Lemma parse_value_array (fuel : nat) (c : char) (t : str) :
  starts_value c ->
  parse_value (S fuel) (91%N :: c :: t) =
    match parse_items fuel (c :: t) with
    | Some (l, r) => Some (PList l, r)
    | None => None
    end.
Proof.
  unfold starts_value. simpl In.
  intros [<-|[<-|[<-|[<-|[<-|[<-|[]]]]]]]; reflexivity.
Qed.

Lemma parse_items_S (fuel : nat) (s : str) :
  parse_items (S fuel) s =
    match parse_value fuel s with
    | None => None
    | Some (v, r) =>
        match skip_ws r with
        | 93%N :: r' => Some ([v], r')
        | 44%N :: r' =>
            match parse_items fuel (skip_ws r') with
            | Some (l, r'') => Some (v :: l, r'')
            | None => None
            end
        | _ => None
        end
    end.
Proof. reflexivity. Qed.

Lemma size_positive (v : pyval) : 1 <= size v.
Proof. destruct v; simpl; lia. Qed.

(** Reading back one member of a dictionary whose value reads back. *)
Lemma parse_member_value (k : str) (x : pyval) (tail : str) (acc : list (str * pyval))
    (fuel : nat) :
  well_formed k ->
  parse_value fuel (dumps x ++ tail) = Some (x, tail) ->
  parse_members (S fuel) (member (k, x) ++ tail) acc =
    match skip_ws tail with
    | 125%N :: r4 => Some (dict_set acc k x, r4)
    | 44%N :: r4 => parse_members fuel (skip_ws r4) (dict_set acc k x)
    | _ => None
    end.
Proof.
  intros Hk Hx. cbn [member].
  unfold encode_basestring_ascii at 1, quoted at 1.
  rewrite <- !app_assoc. cbn [app]. unfold quote at 1.
  rewrite parse_members_S.
  rewrite <- app_assoc. cbn [app].
  rewrite scanstring_encoded;
    [| exact Hk | rewrite length_app; pose proof (escaped_length k); simpl; lia].
  change (lit ": ") with [58%N; 32%N]. cbn [app].
  destruct (dumps_head x) as (c & t & E & Hc).
  rewrite E in *. cbn [app] in *.
  change (skip_ws (58%N :: ?r)) with (58%N :: r). cbv iota.
  rewrite (skip_ws_space_value c _ Hc). rewrite Hx. reflexivity.
Qed.

(** With fuel for its size, a dumped value reads back, whatever follows
    it; so do the elements of a dumped list and the members of a dumped
    dictionary. *)
Lemma parse_dumped (fuel : nat) :
  (forall v rest,
     json_value v = true -> size v <= fuel ->
     parse_value fuel (dumps v ++ rest) = Some (v, rest))
  /\ (forall x l rest,
        forallb json_value (x :: l) = true ->
        1 + list_sum (map size (x :: l)) <= fuel ->
        parse_items fuel (join (lit ", ") (map dumps (x :: l)) ++ 93%N :: rest)
        = Some (x :: l, rest))
  /\ (forall kv d acc rest,
        forallb member_ok (kv :: d) = true ->
        1 + list_sum (map member_size (kv :: d)) <= fuel ->
        parse_members fuel (join (lit ", ") (map member (kv :: d)) ++ 125%N :: rest) acc
        = Some (fold_left (fun a x => dict_set a (fst x) (snd x)) (kv :: d) acc, rest)).
Proof.
  induction fuel as [|fuel (IHv & IHl & IHd)].
  - split; [|split].
    + intros v rest _ H. pose proof (size_positive v). lia.
    + intros x l rest _ H. simpl in H. lia.
    + intros kv d acc rest _ H. simpl in H. lia.
  - split; [|split].
    + intros v rest Hv Hs. destruct v as [| b | s | l | d].
      * reflexivity.
      * destruct b; reflexivity.
      * apply parse_value_string. exact Hv.
      * destruct l as [|x l]; [reflexivity|].
        change (dumps (PList (x :: l)))
          with (91%N :: (join (lit ", ") (map dumps (x :: l)) ++ [93%N])).
        cbn [app]. rewrite <- app_assoc. cbn [app].
        destruct (dumps_head x) as (c & t & E & Hc).
        destruct (join_head dumps x l c t E) as (t' & Ej).
        rewrite Ej. cbn [app]. rewrite (parse_value_array fuel c _ Hc).
        change (c :: t' ++ 93%N :: rest) with ((c :: t') ++ 93%N :: rest).
        rewrite <- Ej. rewrite IHl; [reflexivity | exact Hv |].
        cbn [size] in Hs. lia.
      * destruct d as [|kv d]; [reflexivity|].
        change (dumps (PDict (kv :: d)))
          with (123%N :: (join (lit ", ") (map member (kv :: d)) ++ [125%N])).
        cbn [app]. rewrite <- app_assoc. cbn [app].
        destruct (member_head kv) as (t & E).
        destruct (join_head member kv d _ t E) as (t' & Ej).
        cbn [json_value] in Hv. apply andb_true_iff in Hv as [Hdist Hall].
        assert (Hf : 1 + list_sum (map member_size (kv :: d)) <= fuel)
          by (cbn [size] in Hs; exact (le_S_n _ _ Hs)).
        pose proof (IHd kv d [] rest Hall Hf) as Pd.
        rewrite Ej in Pd |- *. cbn [app] in Pd |- *. rewrite parse_value_object.
        match goal with
        | |- context [parse_members ?f ?x ?a] =>
            replace (parse_members f x a)
              with (Some (fold_left (fun a0 x0 => dict_set a0 (fst x0) (snd x0)) (kv :: d) [],
                          rest))
              by (symmetry; exact Pd)
        end.
        do 3 f_equal.
        clear - Hdist.
        assert (G : forall (items acc : list (str * pyval)),
                   distinct (keys (acc ++ items)) = true ->
                   fold_left (fun a x => dict_set a (fst x) (snd x)) items acc = acc ++ items).
        { induction items as [|[k x] items IH]; intros acc Hd; simpl.
          - now rewrite app_nil_r.
          - assert (Hset : dict_set acc k x = acc ++ [(k, x)]).
            { clear IH. induction acc as [|[k0 x0] acc IHa]; [reflexivity|].
              simpl in Hd. apply andb_true_iff in Hd as [Hk0 Hd].
              simpl. destruct (str_eq_dec k0 k) as [->|Hne].
              - exfalso. apply negb_true_iff in Hk0.
                assert (existsb (str_eqb k) (keys (acc ++ (k, x) :: items)) = true).
                { apply existsb_exists. exists k. split.
                  - unfold keys. rewrite map_app. apply in_or_app. right. now left.
                  - unfold str_eqb. destruct (str_eq_dec k k); [reflexivity | contradiction]. }
                congruence.
              - f_equal. apply IHa. exact Hd. }
            rewrite Hset. rewrite IH; rewrite <- app_assoc; [reflexivity | exact Hd]. }
        apply (G (kv :: d) []). exact Hdist.
    + intros x l rest Hv Hs. rewrite parse_items_S.
      cbn [forallb] in Hv. apply andb_true_iff in Hv as [Hx Hl].
      cbn [map list_sum fold_right] in Hs. pose proof (size_positive x) as Hpos.
      destruct l as [|y l].
      * change (join (lit ", ") (map dumps [x])) with (dumps x).
        rewrite IHv; [reflexivity | exact Hx | lia].
      * change (join (lit ", ") (map dumps (x :: y :: l)))
          with (dumps x ++ lit ", " ++ join (lit ", ") (map dumps (y :: l))).
        rewrite <- !app_assoc. rewrite IHv; [| exact Hx | lia].
        assert (Hf : 1 + list_sum (map size (y :: l)) <= fuel)
          by (cbn [map list_sum fold_right] in Hs |- *; lia).
        pose proof (IHl y l rest Hl Hf) as Pl.
        destruct (dumps_head y) as (c & t & E & Hc).
        destruct (join_head dumps y l c t E) as (t' & Ej).
        rewrite Ej in Pl |- *. cbn [app] in Pl |- *.
        change (lit ", ") with [44%N; 32%N]. cbn [app].
        change (skip_ws (44%N :: ?r)) with (44%N :: r). cbv iota.
        rewrite (skip_ws_space_value c _ Hc).
        match goal with
        | |- context [parse_items ?f ?s] =>
            replace (parse_items f s) with (Some (y :: l, rest)) by (symmetry; exact Pl)
        end.
        reflexivity.
    + intros [k x] d acc rest Hv Hs.
      cbn [forallb member_ok] in Hv. apply andb_true_iff in Hv as [Hkx Hd].
      apply andb_true_iff in Hkx as [Hk Hx].
      cbn [map list_sum fold_right member_size] in Hs. pose proof (size_positive x) as Hpos.
      destruct d as [|kv2 d].
      * change (join (lit ", ") (map member [(k, x)])) with (member (k, x)).
        rewrite parse_member_value; [reflexivity | exact Hk |].
        apply IHv; [exact Hx | lia].
      * change (join (lit ", ") (map member ((k, x) :: kv2 :: d)))
          with (member (k, x) ++ lit ", " ++ join (lit ", ") (map member (kv2 :: d))).
        rewrite <- !app_assoc.
        rewrite parse_member_value; [| exact Hk | apply IHv; [exact Hx | lia]].
        assert (Hf : 1 + list_sum (map member_size (kv2 :: d)) <= fuel)
          by (cbn [map list_sum fold_right] in Hs |- *; lia).
        pose proof (IHd kv2 d (dict_set acc k x) rest Hd Hf) as Pd.
        destruct (member_head kv2) as (t & E).
        destruct (join_head member kv2 d _ t E) as (t' & Ej).
        rewrite Ej in Pd |- *. cbn [app] in Pd |- *.
        change (lit ", ") with [44%N; 32%N]. cbn [app].
        change (skip_ws (44%N :: ?r)) with (44%N :: r). cbv iota.
        change (skip_ws (32%N :: 34%N :: ?r)) with (34%N :: r).
        exact Pd.
Qed.

Lemma join_length {X : Type} (f : X -> str) (g : X -> nat) (l : list X) :
  Forall (fun x => g x <= List.length (f x)) l ->
  list_sum (map g l) <= List.length (join (lit ", ") (map f l)).
Proof.
  induction l as [|x l IH]; intros H; [simpl; lia|].
  pose proof (Forall_inv H) as Hx. apply Forall_inv_tail in H. specialize (IH H).
  destruct l as [|y l]; [simpl in *; lia|].
  change (join (lit ", ") (map f (x :: y :: l)))
    with (f x ++ lit ", " ++ join (lit ", ") (map f (y :: l))).
  rewrite !length_app. cbn [map list_sum fold_right] in *. lia.
Qed.

Lemma size_dumps (v : pyval) : size v <= List.length (dumps v).
Proof.
  induction v as [| b | s | l IH | d IH] using pyval_induction.
  - simpl. lia.
  - destruct b; simpl; lia.
  - unfold dumps, encode_basestring_ascii, quoted. simpl. lia.
  - cbn [dumps size]. rewrite !length_app.
    pose proof (join_length dumps size l IH). simpl. lia.
  - cbn [dumps size]. rewrite !length_app.
    assert (H : Forall (fun kv => member_size kv <= List.length (member kv)) d).
    { apply (Forall_impl _ (P := fun kv => size (snd kv) <= List.length (dumps (snd kv))));
        [|exact IH].
      intros [k x] Hx. cbn [member member_size snd] in *. rewrite !length_app. lia. }
    pose proof (join_length member member_size d H) as J.
    change (fun kv : str * pyval => match kv with (_, x) => size x end) with member_size.
    change (fun kv : str * pyval =>
              match kv with (k, x) => encode_basestring_ascii k ++ lit ": " ++ dumps x end)
      with member.
    change (List.length (lit "{")) with 1. change (List.length (lit "}")) with 1.
    match goal with
    | |- 2 + ?a <= 1 + (?b + 1) => assert (a <= b) by exact J; lia
    end.
Qed.

(** [json.loads(json.dumps(v))] is [v]. *)
Lemma loads_dumps (v : pyval) : json_value v = true -> loads (dumps v) = inr v.
Proof.
  intros Hv. unfold loads.
  destruct (dumps_head v) as (c & t & E & Hc).
  rewrite E at 2. rewrite (skip_ws_value c t Hc). rewrite <- E.
  rewrite <- (app_nil_r (dumps v)) at 2.
  destruct (parse_dumped (S (List.length (dumps v)))) as (P & _).
  rewrite P; [reflexivity | exact Hv |].
  pose proof (size_dumps v). lia.
Qed.

End JsonRoundTrip.

(* ===================================================================== *)
(** ** The weather tool on all values, and the arguments it is called with *)
(* ===================================================================== *)

Module ToolFacts.
Import Python JsonTerms JsonFacts JsonValues JsonRoundTrip.
Import FunctionCalling FunctionCallingTerms FunctionCallingFacts.



(** X10.  Whatever the location and the unit are, the text the weather tool
    returns is made of printable ASCII characters only: every other
    character of a string is written as an escape. *)
Theorem weather_text_is_ascii (location : pyval) (unit : option pyval) :
  Forall (fun c => printable c = true) (get_current_weather location unit).
Proof.
  unfold get_current_weather. apply dumps_printable.
Qed.



End ToolFacts.

(* ===================================================================== *)
(** ** The prompt-optimization flowchart: termination, cost, storage *)
(* ===================================================================== *)

Module FlowchartRuns.
Import Flowchart FlowchartTerms FlowchartFacts FlowchartLedger Samples.

(** The fields of a store after an update. *)
Ltac fields :=
  cbn [calls trace storage iteration system_prompt evaluations improved_prompt
       validation_data predictions avg_score zero_shot_prompt best_score best_prompt
       best_iteration
       record write advance count_call set_predictions set_evaluations set_improved_prompt
       set_validation_data set_system_prompt set_iteration set_best set_zero_shot_prompt].

Section Ends.
Variable env : environment.

Lemma step_G_cases (st : store) :
  (exists st', step env G_GeneratePredictions st = Next H_EvaluatePredictions st'
               /\ iteration st' = iteration st)
  \/ exists e st', step env G_GeneratePredictions st = Raised e st'.
Proof.
  destruct (step env G_GeneratePredictions st) as [n' st'|e st'|st'] eqn:S1.
  - apply step_G_next in S1 as (-> & preds & -> & _). left. eexists. now split.
  - right. now exists e, st'.
  - apply step_halt in S1 as [? _]. discriminate.
Qed.

Lemma step_H_cases (st : store) :
  (exists st', step env H_EvaluatePredictions st = Next I_SaveIterationResults st'
               /\ iteration st' = iteration st)
  \/ exists e st', step env H_EvaluatePredictions st = Raised e st'.
Proof.
  destruct (step env H_EvaluatePredictions st) as [n' st'|e st'|st'] eqn:S1.
  - apply step_H_next in S1 as (-> & evals & -> & _). left. eexists. now split.
  - right. now exists e, st'.
  - apply step_halt in S1 as [? _]. discriminate.
Qed.

Lemma step_N_cases (st : store) :
  (exists st', step env N_ImprovePrompt st = Next O_UpdateSystemPrompt st'
               /\ iteration st' = iteration st)
  \/ exists e st', step env N_ImprovePrompt st = Raised e st'.
Proof.
  rewrite step_N. cbv zeta.
  destruct (llm env O3_mini (calls st) (improve_request env st)) as [e|out].
  - right. eexists. eexists. reflexivity.
  - left. eexists. now split.
Qed.

Lemma ended_raised (e : exn) (st : store) : ended (Raised e st).
Proof. intros n st'. discriminate. Qed.

Lemma ended_halt (st : store) : ended (Halt st).
Proof. intros n st'. discriminate. Qed.

(** A run that is over after [a] boxes is over after any [b >= a]. *)
Lemma run_over (a b : nat) (n : node) (st : store) (o : outcome) :
  run env a n st = o -> ended o -> a <= b -> run env b n st = o.
Proof. intros H He Hle. exact (run_ended_stable env a b n st o H He Hle). Qed.

Lemma run_then (a b : nat) (n n1 : node) (st st1 : store) :
  run env a n st = Next n1 st1 -> run env (a + b) n st = run env b n1 st1.
Proof. intros H. now rewrite run_add, H. Qed.

Lemma run_one (n : node) (st : store) : run env 1 n st = step env n st.
Proof. simpl. now destruct (step env n st). Qed.

(** From the head of the loop, seven boxes lead to the test for the last
    round, unless a call raises on the way. *)
Lemma round_to_M_or_raised (st : store) :
  (exists st', run env 7 E_EnterLoop st = Next M_LastIteration st'
               /\ iteration st' = S (iteration st))
  \/ exists e st', run env 7 E_EnterLoop st = Raised e st'.
Proof.
  assert (S1 : exists st1, run env 2 E_EnterLoop st = Next G_GeneratePredictions st1
                           /\ iteration st1 = S (iteration st))
    by (eexists; split; reflexivity).
  destruct S1 as (st1 & R1 & I1).
  change 7 with (2 + 5). rewrite (run_then 2 5 _ _ _ _ R1).
  destruct (step_G_cases st1) as [(st2 & R2 & I2)|(e & st' & R2)].
  2: { right. exists e, st'.
       apply (run_over 1 5 _ _ _); [now rewrite run_one | apply ended_raised | lia]. }
  rewrite <- run_one in R2. change 5 with (1 + 4). rewrite (run_then 1 4 _ _ _ _ R2).
  destruct (step_H_cases st2) as [(st3 & R3 & I3)|(e & st' & R3)].
  2: { right. exists e, st'.
       apply (run_over 1 4 _ _ _); [now rewrite run_one | apply ended_raised | lia]. }
  rewrite <- run_one in R3. change 4 with (1 + 3). rewrite (run_then 1 3 _ _ _ _ R3).
  left.
  assert (S4 : exists st4, run env 3 I_SaveIterationResults st3 = Next M_LastIteration st4
                           /\ iteration st4 = iteration st3).
  { unfold run, step at 1. cbn [action bind get modify ret next find edges fst snd
                                 node_beq label_beq andb].
    unfold step at 1, action, bind, get, ret.
    destruct (beats _ _); eexists; split; reflexivity. }
  destruct S4 as (st4 & R4 & I4). exists st4. split; [exact R4 | congruence].
Qed.

(** From the head of the loop, the run is over after ten boxes per round
    that is left, and one more. *)
Lemma loop_is_over (d : nat) :
  forall st,
    rounds_made env - S (iteration st) = d ->
    iteration st < rounds_made env ->
    ended (run env (10 * d + 11) E_EnterLoop st).
Proof.
  induction d as [|d IH]; intros st Hd Hlt.
  - destruct (round_to_M_or_raised st) as [(st1 & R1 & I1)|(e & st' & R1)].
    2: { rewrite (run_over 7 _ _ _ _ R1 (ended_raised _ _)) by lia. apply ended_raised. }
    assert (L : last_iteration env st1 = true).
    { unfold last_iteration. apply Nat.leb_le. unfold rounds_made in *. lia. }
    change (10 * 0 + 11) with (7 + 4). rewrite (run_then 7 4 _ _ _ _ R1).
    rewrite run_S, step_M, L. apply ended_halt.
  - destruct (round_to_M_or_raised st) as [(st1 & R1 & I1)|(e & st' & R1)].
    2: { rewrite (run_over 7 _ _ _ _ R1 (ended_raised _ _)) by lia. apply ended_raised. }
    replace (10 * S d + 11) with (7 + (1 + (1 + (1 + (10 * d + 11))))) by lia.
    rewrite (run_then 7 _ _ _ _ _ R1).
    destruct (last_iteration env st1) eqn:L.
    + assert (R2 : run env 4 M_LastIteration st1
                   = Halt (final_store (run env 4 M_LastIteration st1))).
      { rewrite run_S, step_M, L. reflexivity. }
      rewrite (run_over 4 _ _ _ _ R2 (ended_halt _)) by lia. apply ended_halt.
    + assert (R2 : run env 1 M_LastIteration st1
                   = Next N_ImprovePrompt (record (Visit M_LastIteration) st1)).
      { rewrite run_S, step_M, L. reflexivity. }
      rewrite (run_then 1 _ _ _ _ _ R2).
      destruct (step_N_cases (record (Visit M_LastIteration) st1))
        as [(st2 & R3 & I3)|(e & st' & R3)].
      2: { rewrite <- run_one in R3.
           rewrite (run_over 1 _ _ _ _ R3 (ended_raised _ _)) by lia. apply ended_raised. }
      rewrite <- run_one in R3. rewrite (run_then 1 _ _ _ _ _ R3).
      assert (R4 : exists st3, run env 1 O_UpdateSystemPrompt st2 = Next E_EnterLoop st3
                               /\ iteration st3 = iteration st2)
        by (eexists; split; reflexivity).
      destruct R4 as (st3 & R4 & I4). rewrite (run_then 1 _ _ _ _ _ R4).
      unfold last_iteration in L. apply Nat.leb_gt in L.
      cbn in I3. apply IH; unfold rounds_made in *; lia.
Qed.

Lemma main_is_over : ended (main env (boxes_of_run (rounds_made env))).
Proof.
  unfold main, boxes_of_run.
  assert (Hr : 1 <= rounds_made env) by (unfold rounds_made; lia).
  replace (10 * rounds_made env + 5) with (4 + (10 * (rounds_made env - 1) + 11)) by lia.
  erewrite run_then by reflexivity.
  apply loop_is_over; cbn; lia.
Qed.

End Ends.

(** X12.  Whatever the models answer, the program ends: with an exception that a
    model call raised, or at the end of the chart.  It has ended after at
    most [10 * rounds + 5] boxes, where [rounds] is the configured number of
    rounds, or one when none is configured; more fuel changes nothing. *)
Theorem main_always_ends (env : environment) :
  exists o,
    ((exists st, o = Halt st) \/ (exists e st, o = Raised e st))
    /\ forall fuel, boxes_of_run (rounds_made env) <= fuel -> main env fuel = o.
Proof.
  pose proof (main_is_over env) as He.
  exists (main env (boxes_of_run (rounds_made env))). split.
  - destruct (main env (boxes_of_run (rounds_made env))) as [n st|e st|st].
    + now destruct (He n st).
    + right. now exists e, st.
    + left. now exists st.
  - intros fuel Hle. unfold main in *.
    exact (run_ended_stable env _ fuel _ _ _ eq_refl He Hle).
Qed.

Lemma main_always_ends_witness :
  exists o,
    ((exists st, o = Halt st) \/ (exists e st, o = Raised e st))
    /\ main (failing_env 2 5) 25 = o.
Proof.
  destruct (main_always_ends (failing_env 2 5)) as (o & Ho & H).
  exists o. split; [exact Ho|]. apply H. vm_compute. reflexivity.
Defined.

(** *** The number of model calls *)

Section Cost.
Variable env : environment.

Lemma calls_to_shape (m : model) (tr : list event) :
  calls_to m tr = calls_in m (shape tr).
Proof.
  unfold calls_to, calls_in, shape. induction tr as [|ev tr IH]; [reflexivity|].
  destruct ev as [n|m' k msgs|[i p a e|s p i]]; simpl; try exact IH.
  destruct m, m'; simpl; now rewrite ?IH.
Qed.

Lemma calls_in_app (m : model) (k1 k2 : list kind) :
  calls_in m (k1 ++ k2) = calls_in m k1 + calls_in m k2.
Proof. unfold calls_in. now rewrite filter_app, length_app. Qed.

Lemma calls_in_repeat (m m' : model) (n : nat) :
  calls_in m (repeat (KCall m') n) = if model_beq m m' then n else 0.
Proof.
  unfold calls_in. induction n as [|n IH]; simpl.
  - now destruct (model_beq m m').
  - destruct (model_beq m m') eqn:E; simpl; now rewrite IH.
Qed.

Lemma calls_in_to_M (m : model) (np : nat) (b : bool) : calls_in m (to_M np b) = np.
Proof.
  unfold to_M, to_J, to_I, to_H, to_G.
  rewrite !calls_in_app. change (?a :: repeat ?x ?n) with ([a] ++ repeat x n).
  rewrite !calls_in_app, !calls_in_repeat.
  destruct m, b; cbn; lia.
Qed.

Lemma calls_in_rounds (m : model) (np : nat) (choices : list bool) :
  calls_in m (rounds np choices)
  = List.length choices * (np + if model_beq m O3_mini then 1 else 0).
Proof.
  unfold rounds. induction choices as [|c choices IH]; [reflexivity|].
  cbn [flat_map]. rewrite calls_in_app, IH.
  unfold full_round, to_O. rewrite !calls_in_app, calls_in_to_M.
  destruct m; cbn; lia.
Qed.

Lemma calls_in_whole_run (m : model) (np : nat) (choices : list bool) (b : bool) :
  calls_in m (whole_run np choices b)
  = S (List.length choices) * np
    + if model_beq m O3_mini then List.length choices else 0.
Proof.
  unfold whole_run, last_round.
  rewrite !calls_in_app, calls_in_rounds, calls_in_to_M.
  destruct m; cbn; lia.
Qed.

Lemma calls_to_app (m : model) (tr1 tr2 : list event) :
  calls_to m (tr1 ++ tr2) = calls_to m tr1 + calls_to m tr2.
Proof. unfold calls_to. now rewrite filter_app, length_app. Qed.

Lemma calls_to_call_events {X : Type} (m m' : model) (request : X -> list str) (k : nat)
    (l : list X) :
  calls_to m (call_events m' request k l) = if model_beq m m' then List.length l else 0.
Proof.
  unfold calls_to. revert k; induction l as [|x l IH]; intros k; simpl.
  - now destruct (model_beq m m').
  - specialize (IH (S k)). destruct m, m'; simpl in *; now rewrite IH.
Qed.

(** Every step keeps the call counter in line with the trace. *)
Lemma Counted_step (n : node) (st : store) (n' : node) (st' : store) :
  Counted n st -> step env n st = Next n' st' -> Counted n' st'.
Proof.
  unfold Counted. intros HS Hstep. destruct n.
  7: { apply step_G_next in Hstep as (-> & preds & -> & _). fields.
       rewrite !calls_to_app, !calls_to_call_events, call_events_length.
       change (calls_to ?m [Visit ?x]) with 0. cbn [model_beq]. rewrite HS. lia. }
  7: { apply step_H_next in Hstep as (-> & evals & -> & _). fields.
       rewrite !calls_to_app, !calls_to_call_events, call_events_length.
       change (calls_to ?m [Visit ?x]) with 0. cbn [model_beq]. rewrite HS. lia. }
  8: { rewrite step_J in Hstep. injection Hstep as <- <-. fields.
       rewrite !calls_to_app. change (calls_to ?m [Visit ?x]) with 0. rewrite HS. lia. }
  10: { rewrite step_M in Hstep. injection Hstep as <- <-. fields.
        rewrite !calls_to_app. change (calls_to ?m [Visit ?x]) with 0. rewrite HS. lia. }
  10: { rewrite step_N in Hstep. cbv zeta in Hstep.
        destruct (llm env O3_mini (calls st) (improve_request env st)); [discriminate|].
        injection Hstep as <- <-. fields.
        rewrite !calls_to_app. change (calls_to ?m [Visit ?x]) with 0.
        change (calls_to GPT_4o_mini [ModelCall O3_mini ?k ?msgs]) with 0.
        change (calls_to O3_mini [ModelCall O3_mini ?k ?msgs]) with 1.
        cbn [List.length]. rewrite HS. lia. }
  13: { cbn in Hstep. discriminate. }
  all: cbn in Hstep; injection Hstep as <- <-; fields.
  all: rewrite ?calls_to_app; change (calls_to ?m [Visit ?x]) with 0;
    try change (calls_to ?m [Save ?x]) with 0; rewrite HS; lia.
Qed.

Lemma Counted_main (fuel : nat) (n : node) (st : store) :
  main env fuel = Next n st -> Counted n st.
Proof. apply (run_invariant env Counted Counted_step). reflexivity. Qed.

End Cost.

(** X13.  A run that reaches the end of the chart has made, for [rounds] rounds
    over [np] papers, [rounds * np] requests to GPT-4o-mini, one per paper
    and round, and [rounds * np + (rounds - 1)] requests to o3-mini: one
    judgement per paper and round and one improvement after every round but
    the last.  The call counter holds their total. *)
Theorem complete_run_calls (env : environment) (fuel : nat) (st : store) :
  main env fuel = Halt st ->
  let np := List.length (validation_json env) in
  let rounds := rounds_made env in
  calls_to GPT_4o_mini (trace st) = rounds * np
  /\ calls_to O3_mini (trace st) = rounds * np + (rounds - 1)
  /\ calls st = 2 * (rounds * np) + (rounds - 1).
Proof.
  intros H np rounds.
  destruct (Shape_halt env fuel st H) as (choices & b & Hs & Hr & _).
  fold np in Hs. fold rounds in Hr.
  assert (HG : calls_to GPT_4o_mini (trace st) = rounds * np).
  { rewrite calls_to_shape, Hs, calls_in_whole_run, Hr. cbn. lia. }
  assert (HO : calls_to O3_mini (trace st) = rounds * np + (rounds - 1)).
  { rewrite calls_to_shape, Hs, calls_in_whole_run, Hr. cbn. lia. }
  split; [exact HG|]. split; [exact HO|].
  destruct (run_ended env _ _ _ _ H) as (k & n1 & st1 & _ & Hrun & Hstep); [discriminate|].
  apply Counted_main in Hrun. apply step_halt in Hstep as [-> ->].
  unfold Counted in Hrun. revert HG HO. fields.
  rewrite !calls_to_app. change (calls_to ?m [Visit ?x]) with 0. lia.
Qed.

Lemma complete_run_calls_witness :
  exists st,
    main (sample_env 2) 25 = Halt st
    /\ calls_to GPT_4o_mini (trace st) = 4
    /\ calls_to O3_mini (trace st) = 5
    /\ calls st = 9.
Proof.
  exists (final_store (main (sample_env 2) 25)).
  assert (H : main (sample_env 2) 25 = Halt (final_store (main (sample_env 2) 25)))
    by (vm_compute; reflexivity).
  destruct (complete_run_calls (sample_env 2) 25 _ H) as (H1 & H2 & H3).
  exact (conj H (conj H1 (conj H2 H3))).
Defined.

(** *** What is in storage *)

Section Saved.
Variable env : environment.

(** Whatever its outcome, a step adds to storage what its box writes. *)
Lemma step_storage (n : node) (st : store) :
  storage (final_store (step env n st)) = storage st ++ written n st.
Proof.
  destruct n.
  7: { rewrite step_G.
       pose proof (for_each_one_call env GPT_4o_mini (gen_request env) (gen_answer env)
                     (fun _ _ => eq_refl) (validation_data st)
                     (record (Visit G_GeneratePredictions) st)) as F.
       destruct (for_each _ _ _) as [[e|preds] st1].
       - destruct F as (l1 & p & l2 & _ & -> & _). cbn. now rewrite app_nil_r.
       - destruct F as (-> & _). cbn. now rewrite app_nil_r. }
  7: { rewrite step_H.
       pose proof (for_each_one_call env O3_mini (judge_request env) (judge_answer env)
                     (fun _ _ => eq_refl) (predictions st)
                     (record (Visit H_EvaluatePredictions) st)) as F.
       destruct (for_each _ _ _) as [[e|evals] st1].
       - destruct F as (l1 & p & l2 & _ & -> & _). cbn. now rewrite app_nil_r.
       - destruct F as (-> & _). cbn. now rewrite app_nil_r. }
  8: { rewrite step_J. cbn. now rewrite app_nil_r. }
  10: { rewrite step_M. cbn. now rewrite app_nil_r. }
  10: { rewrite step_N. cbv zeta.
        destruct (llm env O3_mini (calls st) (improve_request env st)); cbn;
          now rewrite app_nil_r. }
  all: cbn; now rewrite ?app_nil_r.
Qed.

Lemma step_next_storage (n : node) (st : store) (n' : node) (st' : store) :
  step env n st = Next n' st' -> storage st' = storage st ++ written n st.
Proof. intros H. pose proof (step_storage n st) as S1. now rewrite H in S1. Qed.

(** The outcome of a run is a state of a shorter run, or the outcome of
    one more step from such a state. *)
Lemma outcome_cases (fuel : nat) (o : outcome) :
  main env fuel = o ->
  (exists n st, o = Next n st)
  \/ exists k n1 st1, main env k = Next n1 st1 /\ step env n1 st1 = o /\ ended o.
Proof.
  intros H. destruct o as [n st|e st|st].
  - left. now exists n, st.
  - right. destruct (run_ended env _ _ _ _ H) as (k & n1 & st1 & _ & Hr & Hs); [discriminate|].
    exists k, n1, st1. repeat split; [exact Hr | exact Hs | apply ended_raised].
  - right. destruct (run_ended env _ _ _ _ H) as (k & n1 & st1 & _ & Hr & Hs); [discriminate|].
    exists k, n1, st1. repeat split; [exact Hr | exact Hs | apply ended_halt].
Qed.

Lemma judged_each (l : list prediction) (evals : list evaluation) :
  Forall2 (judged env) l evals ->
  Forall (fun y => judged env (eval_prediction y) y) evals.
Proof.
  induction 1 as [|p y l evals Hy _ IH]; constructor; [|exact IH].
  destruct Hy as (k & out & Hk & ->). now exists k, out.
Qed.

(** What box I writes is sound. *)
Lemma written_sound (n : node) (st : store) :
  Shape env n st -> RoundData env n st -> Forall (sound_record env) (written n st).
Proof.
  intros HS HD. destruct n; cbn [written]; try (now constructor).
  constructor; [|constructor].
    destruct HS as (Hv & _). destruct HD as (Hp & Hg & Hj & Ha).
    unfold prompted in Hp. unfold generated in Hg. rewrite Hv, Hp in Hg.
    split; [|split; [|exact Ha]].
    + now rewrite (FlowchartData.judged_prediction env _ _ Hj).
    + exact (judged_each _ _ Hj).
Qed.

Lemma Sound_main (fuel : nat) (n : node) (st : store) :
  main env fuel = Next n st ->
  Shape env n st /\ RoundData env n st /\ Forall (sound_record env) (storage st).
Proof.
  apply (run_invariant env
           (fun n st => Shape env n st /\ RoundData env n st
                        /\ Forall (sound_record env) (storage st))).
  - intros n0 st0 n' st' (HS & HD & HF) Hstep.
    split; [exact (Shape_step env _ _ _ _ HS Hstep)|].
    split; [exact (FlowchartData.RoundData_step env _ _ _ _ HD Hstep)|].
    rewrite (step_next_storage _ _ _ _ Hstep).
    apply Forall_app. split; [exact HF | now apply written_sound].
  - split; [reflexivity|]. split; [exact I | constructor].
Qed.

End Saved.



(** *** The chain of prompts *)

Section Chain.
Variable env : environment.

Lemma ledger_step (n : node) (st : store) (n' : node) (st' : store) :
  step env n st = Next n' st' ->
  ledger st' = ledger st ++ flat_map round_data (written n st).
Proof.
  intros H. unfold ledger. rewrite (step_next_storage env _ _ _ _ H).
  apply flat_map_app.
Qed.

Lemma latest_snoc (prev : option (str * list evaluation)) (l : list (str * list evaluation))
    (r : str * list evaluation) :
  latest prev (l ++ [r]) = Some r.
Proof. unfold latest. rewrite map_app. apply last_last. Qed.

Lemma latest_cons (l : list (str * list evaluation)) :
  forall prev x, latest prev (x :: l) = latest (Some x) l.
Proof.
  unfold latest. induction l as [|y l IH]; intros prev x; [reflexivity|].
  change (last (map Some (x :: y :: l)) prev) with (last (map Some (y :: l)) prev).
  now rewrite (IH prev y), (IH (Some x) y).
Qed.

Lemma chained_snoc (prev : option (str * list evaluation)) (l : list (str * list evaluation))
    (r : str * list evaluation) :
  chained env prev l -> follows env (latest prev l) (fst r) -> chained env prev (l ++ [r]).
Proof.
  revert prev; induction l as [|x l IH]; intros prev Hc Hf.
  - simpl. split; [exact Hf | exact I].
  - destruct Hc as [Hx Hc]. split; [exact Hx|]. apply IH; [exact Hc|].
    now rewrite <- (latest_cons l prev x).
Qed.

(** A step that is not one of I, N and O keeps the ledger, the system
    prompt and the evaluations, or only changes the evaluations before they
    are saved. *)
Lemma Lineage_step (n : node) (st : store) (n' : node) (st' : store) :
  Lineage env n st -> step env n st = Next n' st' -> Lineage env n' st'.
Proof.
  intros [Hc HS] Hstep. pose proof (ledger_step _ _ _ _ Hstep) as HL.
  destruct n; cbn [written flat_map round_data app] in HL; rewrite ?app_nil_r in HL.
  - (* A *) cbn in Hstep. injection Hstep as <- <-. split; [now rewrite HL | now rewrite HL].
  - (* B *) cbn in Hstep. injection Hstep as <- <-. split; [now rewrite HL | now rewrite HL].
  - (* C *) cbn in Hstep. injection Hstep as <- <-. split; [now rewrite HL|].
    rewrite HL, HS. reflexivity.
  - (* D *) cbn in Hstep. injection Hstep as <- <-. split; [now rewrite HL|].
    rewrite HL. exact HS.
  - (* E *) cbn in Hstep. injection Hstep as <- <-. split; [now rewrite HL|].
    rewrite HL. exact HS.
  - (* F *) cbn in Hstep. injection Hstep as <- <-. split; [now rewrite HL|].
    rewrite HL. exact HS.
  - (* G *) apply step_G_next in Hstep as (-> & preds & -> & _).
    split; [now rewrite HL|]. rewrite HL. exact HS.
  - (* H *) apply step_H_next in Hstep as (-> & evals & -> & _).
    split; [now rewrite HL|]. rewrite HL. exact HS.
  - (* I *) cbn in Hstep. injection Hstep as <- <-. split.
    + rewrite HL. now apply chained_snoc.
    + rewrite HL. apply latest_snoc.
  - (* J *) rewrite step_J in Hstep.
    destruct (beats _ _); injection Hstep as <- <-;
      (split; [now rewrite HL | rewrite HL; exact HS]).
  - (* K *) cbn in Hstep. injection Hstep as <- <-. split; [now rewrite HL|].
    rewrite HL. exact HS.
  - (* L *) cbn in Hstep. injection Hstep as <- <-. split; [now rewrite HL|].
    rewrite HL. exact HS.
  - (* M *) rewrite step_M in Hstep.
    destruct (last_iteration env st); injection Hstep as <- <-;
      (split; [now rewrite HL|]); [exact I | rewrite HL; exact HS].
  - (* N *) rewrite step_N in Hstep. cbv zeta in Hstep.
    destruct (llm env O3_mini (calls st) (improve_request env st)) as [e|out] eqn:L;
      [discriminate|]. injection Hstep as <- <-.
    split; [now rewrite HL|]. rewrite HL. rewrite HS. split; [|discriminate].
    exists (calls st), out. split; [exact L | reflexivity].
  - (* O *) cbn in Hstep. injection Hstep as <- <-. split; [now rewrite HL|].
    rewrite HL. exact (proj1 HS).
  - (* P *) cbn in Hstep. injection Hstep as <- <-. split; [now rewrite HL | exact I].
  - (* Q *) cbn in Hstep. injection Hstep as <- <-. split; [now rewrite HL | exact I].
  - (* R *) cbn in Hstep. discriminate.
Qed.

Lemma Lineage_main (fuel : nat) (n : node) (st : store) :
  main env fuel = Next n st -> Lineage env n st.
Proof. apply (run_invariant env (Lineage env) Lineage_step). now split. Qed.

End Chain.

(** X16.  The system prompts of the rounds saved form a chain, whether the run
    is still going, has been ended by an exception or has reached the end
    of the chart: the first round saved was made under the initial system
    prompt, and every later round under the prompt read from an answer of
    o3-mini to the metaprompt built from the system prompt and the
    evaluations saved for the round before it. *)
Theorem prompts_are_chained (env : environment) (fuel : nat) :
  chained env None (ledger (final_store (main env fuel))).
Proof.
  destruct (outcome_cases env fuel _ eq_refl) as [(n & st & E)|(k & n1 & st1 & Hr & Hs & _)].
  - rewrite E. cbn [final_store]. exact (proj1 (Lineage_main env fuel n st E)).
  - rewrite <- Hs. unfold ledger. rewrite step_storage.
    apply Lineage_main in Hr as [Hc HS]. rewrite flat_map_app.
    destruct n1; cbn [written flat_map round_data app]; rewrite ?app_nil_r; try exact Hc.
    now apply chained_snoc.
Qed.

Lemma prompts_are_chained_witness :
  exists r1 r2,
    ledger (final_store (main (sample_env 2) 25)) = [r1; r2]
    /\ fst r1 = lit "Extract the model names."
    /\ improved_from (sample_env 2) r1 (fst r2).
Proof.
  pose proof (prompts_are_chained (sample_env 2) 25) as H.
  assert (E : exists r1 r2, ledger (final_store (main (sample_env 2) 25)) = [r1; r2])
    by (eexists; eexists; vm_compute; reflexivity).
  destruct E as (r1 & r2 & E). rewrite E in H. destruct H as (H1 & H2 & _).
  exists r1, r2. exact (conj E (conj H1 H2)).
Defined.

(** *** What an exception leaves in storage *)

Section Crash.
Variable env : environment.

Lemma RoundsOnly_step (n : node) (st : store) (n' : node) (st' : store) :
  RoundsOnly n st -> step env n st = Next n' st' -> RoundsOnly n' st'.
Proof.
  intros [->|HS] Hstep; [cbn in Hstep; discriminate|].
  destruct (node_eq_dec n Q_SaveFinalResults) as [->|Hn].
  - cbn in Hstep. injection Hstep as <- <-. now left.
  - right. rewrite (step_next_storage env _ _ _ _ Hstep), forallb_app, HS.
    destruct n; try reflexivity. contradiction.
Qed.

Lemma RoundsOnly_main (fuel : nat) (n : node) (st : store) :
  main env fuel = Next n st -> RoundsOnly n st.
Proof. apply (run_invariant env RoundsOnly RoundsOnly_step). now right. Qed.

Lemma history_length (l : list saved) :
  forallb is_round l = true -> List.length (flat_map logged l) = List.length l.
Proof.
  induction l as [|[i p a e|s p i] l IH]; simpl; [reflexivity| |discriminate].
  intros H. now rewrite IH.
Qed.

End Crash.

(** X17.  When a model call raises, storage holds the results of the rounds
    that were saved before, numbered 1, 2, ... in this order, and nothing
    else: no final results.  If the call that raised asked for a prediction
    or a judgement, the round it belongs to is not among them; if it asked
    for a better prompt, the round it belongs to is the last of them. *)
Theorem exception_keeps_saved_rounds (env : environment) (fuel : nat) (e : exn) (st : store) :
  main env fuel = Raised e st ->
  forallb is_round (storage st) = true
  /\ map (fun r => fst (fst r)) (history st) = seq 1 (List.length (storage st))
  /\ exists before box,
       visited (trace st) = before ++ [box]
       /\ ((box = G_GeneratePredictions \/ box = H_EvaluatePredictions)
           /\ S (List.length (storage st)) = iteration st
           \/ box = N_ImprovePrompt /\ List.length (storage st) = iteration st).
Proof.
  intros H.
  destruct (run_ended env _ _ _ _ H) as (k & n1 & st1 & _ & Hr & Hs); [discriminate|].
  pose proof (step_storage env n1 st1) as HS. rewrite Hs in HS. cbn [final_store] in HS.
  pose proof (FlowchartExceptions.step_visited env n1 st1) as HV.
  rewrite Hs in HV. cbn [final_store] in HV.
  destruct (FlowchartExceptions.step_raised env _ _ _ _ Hs)
    as (evs & m & c & msgs & _ & _ & _ & Hn).
  pose proof (RoundsOnly_main env k n1 st1 Hr) as HR.
  pose proof (FlowchartBest.Best_main env k n1 st1 Hr) as HB.
  assert (Hit : iteration st = iteration st1).
  { simpl in Hn. destruct Hn as [<-|[<-|[<-|[]]]].
    - apply step_G_raised in Hs as (l1 & p & l2 & _ & -> & _). reflexivity.
    - apply step_H_raised in Hs as (l1 & p & l2 & _ & -> & _). reflexivity.
    - rewrite step_N in Hs. cbv zeta in Hs.
      destruct (llm env _ _ _); [|discriminate]. now injection Hs as _ <-. }
  assert (Hst : storage st = storage st1).
  { rewrite HS. simpl in Hn. destruct Hn as [<-|[<-|[<-|[]]]]; apply app_nil_r. }
  assert (Hro : forallb is_round (storage st1) = true).
  { destruct HR as [->|HR]; [|exact HR].
    simpl in Hn. destruct Hn as [Hn|[Hn|[Hn|[]]]]; discriminate. }
  assert (Hh : history st = history st1) by (unfold history; now rewrite Hst).
  assert (Hlen : List.length (history st1) = List.length (storage st1))
    by (apply history_length; exact Hro).
  rewrite Hst, Hh, Hit. split; [exact Hro|].
  simpl in Hn. destruct Hn as [<-|[<-|[<-|[]]]].
  - destruct HB as (_ & Hnum & Hl). split; [unfold numbered in Hnum; now rewrite <- Hlen|].
    exists (visited (trace st1)), G_GeneratePredictions. split; [exact HV|].
    left. split; [now left | congruence].
  - destruct HB as (_ & Hnum & Hl). split; [unfold numbered in Hnum; now rewrite <- Hlen|].
    exists (visited (trace st1)), H_EvaluatePredictions. split; [exact HV|].
    left. split; [now right | congruence].
  - destruct HB as (_ & Hnum & Hl). split; [unfold numbered in Hnum; now rewrite <- Hlen|].
    exists (visited (trace st1)), N_ImprovePrompt. split; [exact HV|].
    right. split; [reflexivity | congruence].
Qed.

Lemma exception_keeps_saved_rounds_witness :
  exists e st,
    main (failing_env 2 5) 25 = Raised e st
    /\ iteration st = 2
    /\ List.length (storage st) = 1
    /\ map (fun r => fst (fst r)) (history st) = [1].
Proof.
  exists "RateLimitError"%string, (final_store (main (failing_env 2 5) 25)).
  assert (H : main (failing_env 2 5) 25
              = Raised "RateLimitError"%string (final_store (main (failing_env 2 5) 25)))
    by (vm_compute; reflexivity).
  destruct (exception_keeps_saved_rounds _ _ _ _ H) as (_ & H2 & _).
  assert (L : List.length (storage (final_store (main (failing_env 2 5) 25))) = 1)
    by (vm_compute; reflexivity).
  rewrite L in H2.
  split; [exact H|]. split; [vm_compute; reflexivity|]. split; [exact L | exact H2].
Defined.

End FlowchartRuns.

(* ===================================================================== *)
(** ** The prompt-optimization flowchart: no more calls than a complete run *)
(* ===================================================================== *)

Module FlowchartBudget.
Import Flowchart FlowchartTerms FlowchartFacts FlowchartLedger FlowchartRuns.
Import FlowchartBudgetTerms Samples.

Section Budget.
Variable env : environment.

Let np : nat := List.length (validation_json env).
Let R : nat := rounds_made env.

Lemma rounds_made_positive : 1 <= rounds_made env.
Proof. unfold rounds_made. lia. Qed.

Lemma rounds_made_configured : num_iterations env <= rounds_made env.
Proof. unfold rounds_made. lia. Qed.

(** The calls of a trace that is [tail] into a round. *)
Lemma calls_in_round (m : model) (st : store) (tail : list kind) :
  in_round env st tail ->
  calls_to m (trace st)
  = (iteration st - 1) * (np + if model_beq m O3_mini then 1 else 0) + calls_in m tail.
Proof.
  intros (choices & Hs & Hi). rewrite calls_to_shape, Hs, !calls_in_app, calls_in_rounds.
  rewrite Hi. fold np. change (calls_in m prelude) with 0.
  replace (S (List.length choices) - 1) with (List.length choices) by lia. lia.
Qed.

Lemma calls_in_to_G (m : model) : calls_in m to_G = 0.
Proof. reflexivity. Qed.

Lemma calls_in_to_H (m : model) (k : nat) :
  calls_in m (to_G ++ KVisit G_GeneratePredictions :: repeat (KCall GPT_4o_mini) k)
  = if model_beq m GPT_4o_mini then k else 0.
Proof.
  change (KVisit G_GeneratePredictions :: repeat (KCall GPT_4o_mini) k)
    with ([KVisit G_GeneratePredictions] ++ repeat (KCall GPT_4o_mini) k).
  rewrite !calls_in_app, calls_in_repeat. reflexivity.
Qed.

Lemma calls_in_to_I (m : model) (k : nat) :
  calls_in m (to_H np ++ KVisit H_EvaluatePredictions :: repeat (KCall O3_mini) k)
  = (if model_beq m GPT_4o_mini then np else 0) + (if model_beq m O3_mini then k else 0).
Proof.
  change (KVisit H_EvaluatePredictions :: repeat (KCall O3_mini) k)
    with ([KVisit H_EvaluatePredictions] ++ repeat (KCall O3_mini) k).
  unfold to_H. rewrite calls_in_app, calls_in_to_H, calls_in_app, calls_in_repeat.
  change (calls_in m [KVisit H_EvaluatePredictions]) with 0. lia.
Qed.

Lemma calls_in_to_J (m : model) : calls_in m (to_J np) = np.
Proof.
  unfold to_J, to_I. rewrite calls_in_app, (calls_in_to_I m np).
  destruct m; cbn; lia.
Qed.

(** The bound, for a trace that is into a round. *)
Lemma budget_in_round (m : model) (st : store) (tail : list kind) :
  in_round env st tail ->
  iteration st <= R ->
  calls_in m tail <= np ->
  calls_to m (trace st) <= budget m R np.
Proof.
  intros Hr Hle Ht. rewrite (calls_in_round m st tail Hr).
  destruct Hr as (choices & _ & Hi). pose proof rounds_made_positive as Hp. fold R in Hp.
  destruct m; cbn [model_beq budget]; nia.
Qed.

(** The bound, for a trace that is into a round which is not the last. *)
Lemma budget_in_early_round (m : model) (st : store) (tail : list kind) :
  in_round env st tail ->
  iteration st < num_iterations env ->
  calls_in m tail <= np + (if model_beq m O3_mini then 1 else 0) ->
  calls_to m (trace st) <= budget m R np.
Proof.
  intros Hr Hlt Ht. rewrite (calls_in_round m st tail Hr).
  destruct Hr as (choices & _ & Hi). pose proof rounds_made_configured as Hc. fold R in Hc.
  destruct m; cbn [model_beq budget] in *; nia.
Qed.

Lemma calls_in_tail_M (m : model) (b : bool) (more : list kind) :
  calls_in m more = 0 -> calls_in m (to_M np b ++ more) = np.
Proof. intros H. now rewrite calls_in_app, calls_in_to_M, H, Nat.add_0_r. Qed.

(** While the program runs, no model has been asked more than its budget. *)
Lemma budget_next (fuel : nat) (n : node) (st : store) (m : model) :
  main env fuel = Next n st -> calls_to m (trace st) <= budget m R np.
Proof.
  intros H. pose proof (Shape_main env fuel n st H) as HS.
  pose proof rounds_made_positive as Hp. fold R in Hp.
  destruct n; cbn [Shape] in HS.
  - (* A *) rewrite HS. cbn. lia.
  - (* B *) rewrite calls_to_shape, HS. cbn. lia.
  - (* C *) destruct HS as [HS _]. rewrite calls_to_shape, HS. cbn. lia.
  - (* D *) destruct HS as [HS _]. rewrite calls_to_shape, HS. cbn. lia.
  - (* E *) destruct HS as (_ & Hlt & choices & Hs & Hi).
    rewrite calls_to_shape, Hs, calls_in_app, calls_in_rounds. fold np.
    change (calls_in m prelude) with 0. fold R in Hlt.
    destruct m; cbn [model_beq budget]; nia.
  - (* F *) destruct HS as (_ & Hle & Hr).
    apply (budget_in_round m st _ Hr Hle). cbn. lia.
  - (* G *) destruct HS as (_ & Hle & Hr).
    apply (budget_in_round m st _ Hr Hle). cbn. lia.
  - (* H *) destruct HS as (_ & Hle & Hr & _).
    apply (budget_in_round m st _ Hr Hle). unfold to_H. fold np.
    rewrite calls_in_to_H. destruct m; cbn; lia.
  - (* I *) destruct HS as (_ & Hle & Hr).
    apply (budget_in_round m st _ Hr Hle). unfold to_I. fold np.
    rewrite (calls_in_to_I m np). destruct m; cbn; lia.
  - (* J *) destruct HS as (_ & Hle & Hr).
    apply (budget_in_round m st _ Hr Hle). fold np.
    rewrite (calls_in_to_J m). lia.
  - (* K *) destruct HS as (_ & Hle & Hr).
    apply (budget_in_round m st _ Hr Hle). fold np.
    rewrite calls_in_app, (calls_in_to_J m). cbn. lia.
  - (* L *) destruct HS as (_ & Hle & Hr).
    apply (budget_in_round m st _ Hr Hle). fold np.
    rewrite calls_in_app, (calls_in_to_J m). cbn. lia.
  - (* M *) destruct HS as (_ & Hle & b & Hr).
    apply (budget_in_round m st _ Hr Hle). fold np. rewrite calls_in_to_M. lia.
  - (* N *) destruct HS as (_ & Hlt & b & Hr).
    apply (budget_in_early_round m st _ Hr Hlt). fold np.
    rewrite calls_in_tail_M by reflexivity. lia.
  - (* O *) destruct HS as (_ & Hlt & b & Hr).
    apply (budget_in_early_round m st _ Hr Hlt). unfold to_O. fold np.
    rewrite calls_in_app, calls_in_to_M. destruct m; cbn; lia.
  - (* P *) destruct HS as (Hi & b & Hr).
    apply (budget_in_round m st _ Hr); [fold R in Hi; lia|]. unfold last_round. fold np.
    rewrite calls_in_tail_M by reflexivity. lia.
  - (* Q *) destruct HS as (Hi & b & Hr).
    apply (budget_in_round m st _ Hr); [fold R in Hi; lia|]. unfold last_round. fold np.
    rewrite calls_in_app, calls_in_tail_M by reflexivity. cbn. lia.
  - (* R *) destruct HS as (Hi & b & Hr).
    apply (budget_in_round m st _ Hr); [fold R in Hi; lia|]. unfold last_round. fold np.
    rewrite calls_in_app, calls_in_tail_M by reflexivity. cbn. lia.
Qed.

(** A step that raises has asked, in its box, one model at most once per
    element of a list it was going through. *)
Lemma budget_raised (fuel : nat) (n : node) (st : store) (e : exn) (st' : store)
    (m : model) :
  main env fuel = Next n st ->
  step env n st = Raised e st' ->
  calls_to m (trace st') <= budget m R np.
Proof.
  intros H Hs. pose proof (Shape_main env fuel n st H) as HS.
  pose proof rounds_made_positive as Hp. fold R in Hp.
  pose proof rounds_made_configured as Hc. fold R in Hc.
  destruct (FlowchartExceptions.step_raised env _ _ _ _ Hs) as (_ & _ & _ & _ & _ & _ & _ & Hn).
  simpl in Hn. destruct Hn as [<-|[<-|[<-|[]]]].
  - (* G *) destruct HS as (Hv & Hle & Hr).
    apply step_G_raised in Hs as (l1 & p & l2 & Hl & -> & _).
    assert (Hlen : List.length (l1 ++ [p]) <= np).
    { unfold np. rewrite <- Hv, Hl, !length_app. simpl. lia. }
    cbn [trace advance record]. rewrite !calls_to_app, calls_to_call_events.
    change (calls_to m [Visit G_GeneratePredictions]) with 0.
    rewrite (calls_in_round m st _ Hr), calls_in_to_G.
    destruct Hr as (choices & _ & Hi). fold R in Hle.
    destruct m; cbn [model_beq budget]; nia.
  - (* H *) destruct HS as (Hv & Hle & Hr & Hpl).
    apply step_H_raised in Hs as (l1 & p & l2 & Hl & -> & _).
    assert (Hlen : List.length (l1 ++ [p]) <= np).
    { unfold np. rewrite <- Hpl, Hl, !length_app. simpl. lia. }
    cbn [trace advance record]. rewrite !calls_to_app, calls_to_call_events.
    change (calls_to m [Visit H_EvaluatePredictions]) with 0.
    rewrite (calls_in_round m st _ Hr). unfold to_H. fold np. rewrite calls_in_to_H.
    destruct Hr as (choices & _ & Hi). fold R in Hle.
    destruct m; cbn [model_beq budget]; nia.
  - (* N *) destruct HS as (Hv & Hlt & b & Hr).
    rewrite step_N in Hs. cbv zeta in Hs.
    destruct (llm env O3_mini (calls st) (improve_request env st)); [|discriminate].
    injection Hs as _ <-.
    cbn [trace advance record]. rewrite !calls_to_app.
    change (calls_to m [Visit N_ImprovePrompt]) with 0.
    rewrite (calls_in_round m st _ Hr). fold np. rewrite calls_in_tail_M by reflexivity.
    destruct Hr as (choices & _ & Hi).
    destruct m; cbn [budget model_beq calls_to filter List.length model_eq_dec]; cbn; nia.
Qed.

End Budget.

(** X14.  No run asks a model more often than a complete run does: at any point
    of any run, also one that an exception has ended, GPT-4o-mini has been
    asked at most [rounds * np] times and o3-mini at most
    [rounds * np + (rounds - 1)] times, for [rounds] rounds over [np]
    papers. *)
Theorem calls_within_budget (env : environment) (fuel : nat) (m : model) :
  calls_to m (trace (final_store (main env fuel)))
  <= budget m (rounds_made env) (List.length (validation_json env)).
Proof.
  destruct (main env fuel) as [n st|e st|st] eqn:H; cbn [final_store].
  - exact (budget_next env fuel n st m H).
  - destruct (run_ended env _ _ _ _ H) as (k & n1 & st1 & _ & Hr & Hs); [discriminate|].
    exact (budget_raised env k n1 st1 e st m Hr Hs).
  - destruct (run_ended env _ _ _ _ H) as (k & n1 & st1 & _ & Hr & Hs); [discriminate|].
    apply step_halt in Hs as [-> ->].
    pose proof (budget_next env k _ st1 m Hr) as B.
    cbn [trace record]. rewrite calls_to_app.
    change (calls_to m [Visit R_End]) with 0. lia.
Qed.

Lemma calls_within_budget_witness :
  calls_to O3_mini (trace (final_store (main (failing_env 2 5) 25))) <= 5.
Proof. exact (calls_within_budget (failing_env 2 5) 25 O3_mini). Defined.

End FlowchartBudget.
